(** * moltbook-observatory: the collection pipeline of [collector/main.py]

    A shallow embedding of the collector (URL resolution, rate limiter,
    backoff policy, SQLite store, fetch-with-retry loop, orchestrator) and
    the properties its specification states about it.

    Modelling conventions.
    - Python [int] is [Z]. Python [float] is an exact rational [Q]: the
      operations are exact, so rounding is outside the model. The one
      exception of float arithmetic the collector can meet, the
      [OverflowError] of converting [2 ** k] to a float for [k >= 1024], is
      modelled.
    - [str] is [string], one character per code point: the model covers
      texts of code points below U+0100, and such a text always encodes as
      UTF-8. The text [json.dumps] returns for a payload is kept opaque:
      the environment gives it, and says whether it encodes as UTF-8 (it
      does not when the payload holds a lone surrogate).
    - [Optional[T]] is [option T].
    - The two SQLite tables have [id TEXT PRIMARY KEY]; a table is a finite
      map from the id to the other columns, and [INSERT OR IGNORE] inserts
      only when the id is free.
    - What the environment decides (the wall clock, the monotonic clock,
      the random generator, the HTTP server, [hashlib], [json.dumps]) is a
      parameter of the definitions. *)

From Stdlib Require Import ZArith QArith Qminmax Lqa Lia List Bool.
From Stdlib Require Import String Ascii DecimalString DecimalZ.
From stdpp Require Import gmap strings list fin_maps.
Import ListNotations.

Set Warnings "-register-all".

Local Open Scope string_scope.
Local Open Scope Z_scope.

(** ** Rendering of integers, as [str(int)] and f-strings do *)

Definition str_int (z : Z) : string := NilZero.string_of_int (Z.to_int z).

(** [f"{status_code}"] for an [Optional[int]]: [None] prints as [None]. *)
Definition str_opt_int (o : option Z) : string :=
  match o with
  | Some z => str_int z
  | None => "None"
  end.

(** ** Exceptions *)

(** The exceptions the collector raises. [Unmodelled] is not one of them:
    it marks an input on which the model does not say what Python does (a
    replacement field that is not a plain ASCII name). *)
Inductive exn :=
  | KeyError (key : string)
  | IndexError
  | ValueError (msg : string)
  | OverflowError
  | UnicodeEncodeError
  | Unmodelled (msg : string).

Inductive result (A : Type) :=
  | Ok (a : A)
  | Raised (e : exn).
Arguments Ok {A} a.
Arguments Raised {A} e.


(** ** Backoff policy: [compute_backoff_s] *)

Module Backoff.

Local Open Scope Q_scope.

(** [random.random()] returns [k / 2**53] for an integer [0 <= k < 2**53];
    [unit_draw N k] is the draw [k / N] of a generator of resolution [N]. *)
Definition unit_draw (N : positive) (k : Z) : Q := k # N.

Definition python_resolution : positive := 2 ^ 53.

(** [float * int] converts the integer to a double first;
    [int too large to convert to float] is the message of the
    [OverflowError] this raises for an integer of 1025 bits or more. *)
Definition overflow_message : string := "int too large to convert to float".

(** [exp = min(cap, base * (2 ** max(0, attempt - 1)))]. [2 ** k] is an
    integer; its conversion to a double raises [OverflowError] for
    [k >= 1024], that is for every [attempt >= 1025], whatever [base] and
    [cap]: the result is then [None]. Below that the product and the
    minimum are exact here. *)
Definition exp_delay (attempt : Z) (base cap : Q) : option Q :=
  let k := Z.max 0 (attempt - 1) in
  if 1024 <=? k then None
  else Some (Qmin cap (base * inject_Z (2 ^ k))).

(** [jitter = exp * jitter_ratio * random.random()]; the draw [u] is the
    value [random.random()] returned. *)
Definition jitter (exp jitter_ratio u : Q) : Q := exp * jitter_ratio * u.

(** [None] is the [OverflowError] of [exp_delay]. *)
Definition compute_backoff_s (attempt : Z) (base cap jitter_ratio u : Q) : option Q :=
  match exp_delay attempt base cap with
  | Some exp => Some (exp + jitter exp jitter_ratio u)
  | None => None
  end.

(** Mean of [f] over the [N] equally likely draws [0/N, 1/N, ..., (N-1)/N]. *)
Definition draws (N : positive) : list Q :=
  map (fun k : nat => unit_draw N (Z.of_nat k)) (seq 0 (Pos.to_nat N)).

Definition Qsum (l : list Q) : Q := fold_right Qplus 0 l.

Definition expectation (N : positive) (f : Q -> Q) : Q :=
  Qsum (map f (draws N)) / inject_Z (Z.pos N).

(** The mean of the delay of an attempt whose delay is computed. *)
Definition expected_backoff (N : positive) (attempt : Z) (base cap jitter_ratio : Q)
    : option Q :=
  match exp_delay attempt base cap with
  | Some exp => Some (expectation N (fun u => exp + jitter exp jitter_ratio u))
  | None => None
  end.

End Backoff.

(** ** Rate limiter: [RateLimiter] *)

Module RateLimiter.

Local Open Scope Q_scope.

(** The limiter object: [_min_interval] and [_last_ts]. The lock admits one
    caller at a time, so a [wait()] is one transition of this state. *)
Record t := mk { min_interval : Q; last_ts : Q }.

(** [__init__]: [ValueError] when [rps_per_host <= 0]. *)
Definition init (rps_per_host : Q) : option t :=
  if Qle_bool rps_per_host 0 then None
  else Some {| min_interval := 1 / rps_per_host; last_ts := 0 |}.

(** What the scheduler and the clock decide during one [wait()]: the time
    that passes before the first reading of [time.monotonic()], the time by
    which [asyncio.sleep] overruns its argument, and the time that passes
    before the second reading. *)
Record lag := mk_lag { before_now : Q; oversleep : Q; before_stamp : Q }.

Definition lag_ok (e : lag) : Prop :=
  0 <= before_now e /\ 0 <= oversleep e /\ 0 <= before_stamp e.

Definition Qltb (x y : Q) : bool := negb (Qle_bool y x).

(** [wait()], on the pair of the limiter and the monotonic clock. *)
Definition wait (e : lag) (s : t * Q) : t * Q :=
  let '(lim, clock) := s in
  let now := clock + before_now e in
  let elapsed := now - last_ts lim in
  let woke :=
    if Qltb elapsed (min_interval lim)
    then now + (min_interval lim - elapsed) + oversleep e
    else now in
  let stamp := woke + before_stamp e in
  ({| min_interval := min_interval lim; last_ts := stamp |}, stamp).

(** Consecutive [wait()] calls; the result also lists the release stamps. *)
Fixpoint waits (es : list lag) (s : t * Q) : list Q * (t * Q) :=
  match es with
  | [] => ([], s)
  | e :: es' =>
      let s1 := wait e s in
      let '(rs, s2) := waits es' s1 in
      (last_ts (fst s1) :: rs, s2)
  end.

(** Adjacent elements are at least [d] apart. *)
Fixpoint spaced (d : Q) (rs : list Q) : Prop :=
  match rs with
  | r1 :: ((r2 :: _) as tl) => r1 + d <= r2 /\ spaced d tl
  | _ => True
  end.

End RateLimiter.

(** ** Data model *)

(** A decoded JSON document, the value of [resp.json()]. Numbers are kept
    integral. *)
Inductive json :=
  | JNull
  | JBool (b : bool)
  | JNum (n : Z)
  | JStr (s : string)
  | JArr (items : list json)
  | JObj (members : list (string * json)).

(** [json.loads] maps JSON [null] to Python's [None], the same value
    [fetch_json_with_retries] returns for "no payload". [py_optional] is the
    decoded document seen as an [Optional]. *)
Definition py_optional (data : json) : option json :=
  match data with
  | JNull => None
  | _ => Some data
  end.

(** A value of the [params] dict. A replacement field without a format
    specification prints it with [str]; for a value that is neither a
    string nor an integer, [POther] carries what [str] returns. *)
Inductive pyvalue :=
  | PStr (s : string)
  | PInt (z : Z)
  | POther (shown : string).

Definition str_value (v : pyvalue) : string :=
  match v with
  | PStr s => s
  | PInt z => str_int z
  | POther shown => shown
  end.

Record EndpointSpec := mkEndpointSpec {
  name : string;
  path_template : string;
  params : gmap string pyvalue
}.

Record CollectorConfig := mkCollectorConfig {
  base_url : string;
  user_agent : string;
  timeout_s : Q;
  max_concurrency : Z;
  rps_per_host : Q;
  max_retries : Z;
  backoff_base_s : Q;
  backoff_cap_s : Q;
  jitter_ratio : Q;
  sqlite_path : string;
  auth_bearer : option string
}.

(** Columns of [request_log] and of [raw_events], without the [id]. *)
Record request_row := mkRequestRow {
  rq_ts_utc : string;
  rq_endpoint_name : string;
  rq_url : string;
  rq_status_code : option Z;
  rq_elapsed_ms : Z;
  rq_attempt : Z;
  rq_error : option string
}.

Record event_row := mkEventRow {
  ev_ts_utc : string;
  ev_endpoint_name : string;
  ev_url : string;
  ev_payload_json : string
}.

(** What a run does, in order. [ELog] and [EStore] are the calls of
    [log_request] and [store_payload] with the id and the row they bind;
    [ESleep] is the backoff sleep with its duration. *)
Inductive event :=
  | EWait
  | EGet (url : string)
  | ELog (id : string) (row : request_row)
  | ESleep (seconds : Q)
  | EStore (id : string) (row : event_row).

(** The store's two tables, the number of wall-clock readings made so far,
    and the history of the run. *)
Record state := mkState {
  request_log : gmap string request_row;
  raw_events : gmap string event_row;
  clock_reads : nat;
  trace : list event
}.

(** The environment of the process. [utc_now_iso n] is the string the
    [n]-th call of [utc_now_iso()] returns. [sha256_hex] is the digest of a
    text that encodes as UTF-8; [utf8_encodable] says whether the text
    [json_dumps] returned does. *)
Record Env := mkEnv {
  sha256_hex : string -> string;
  utc_now_iso : nat -> string;
  json_dumps : json -> string;
  utf8_encodable : string -> bool
}.

(** What [client.get(url)] followed by the decoding of the body does on one
    attempt, with the elapsed milliseconds the attempt measures. *)
Inductive body :=
  | ParsesTo (data : json)
  | ParseRaises (exc_name : string).

Inductive get_result :=
  | Responded (status : Z) (b : body) (elapsed_ms : Z)
  | RaisedNetwork (exc_name : string) (elapsed_ms : Z)
  | RaisedOther (exc_name : string) (msg : string) (elapsed_ms : Z).

(** The server, the random generator and the monotonic clock as one
    endpoint's run meets them: the outcome of the GET of each attempt, the
    integer [k] behind the [random.random()] of each backoff, and the
    elapsed milliseconds measured by the handler of [except Exception] when
    it is entered after the response of the attempt was received. *)
Record world := mkWorld {
  response : Z -> get_result;
  random_k : Z -> Z;
  late_elapsed_ms : Z -> Z
}.

(** ** Durable store: [SQLiteStore] *)

(** [INSERT OR IGNORE] into a table keyed by its primary key. *)
Definition insert_or_ignore {R : Type} (id : string) (row : R)
    (table : gmap string R) : gmap string R :=
  match table !! id with
  | Some _ => table
  | None => <[id := row]> table
  end.

Definition emit (e : event) (st : state) : state :=
  {| request_log := request_log st; raw_events := raw_events st;
     clock_reads := clock_reads st; trace := trace st ++ [e] |}.

(** [error or ''] *)
Definition or_empty (error : option string) : string :=
  match error with
  | Some s => s
  | None => ""
  end.

(** [f"{ts}|{endpoint_name}|{url}|{attempt}|{status_code}|{error or ''}"] *)
Definition request_key (ts endpoint_name url : string) (attempt : Z)
    (status_code : option Z) (error : option string) : string :=
  ts ++ "|" ++ endpoint_name ++ "|" ++ url ++ "|" ++ str_int attempt ++ "|"
     ++ str_opt_int status_code ++ "|" ++ or_empty error.

Definition log_request (E : Env) (endpoint_name url : string)
    (status_code : option Z) (elapsed_ms attempt : Z) (error : option string)
    (st : state) : state :=
  let ts := utc_now_iso E (clock_reads st) in
  let key := sha256_hex E (request_key ts endpoint_name url attempt status_code error) in
  let row := mkRequestRow ts endpoint_name url status_code elapsed_ms attempt error in
  {| request_log := insert_or_ignore key row (request_log st);
     raw_events := raw_events st;
     clock_reads := S (clock_reads st);
     trace := trace st ++ [ELog key row] |}.

(** [f"{endpoint_name}|{url}|{ts}|{sha256_hex(payload_json)}"] *)
Definition event_key (E : Env) (endpoint_name url ts payload_json : string) : string :=
  endpoint_name ++ "|" ++ url ++ "|" ++ ts ++ "|" ++ sha256_hex E payload_json.

Definition store_payload (E : Env) (endpoint_name url : string) (payload : json)
    (st : state) : state :=
  let ts := utc_now_iso E (clock_reads st) in
  let payload_json := json_dumps E payload in
  let key := sha256_hex E (event_key E endpoint_name url ts payload_json) in
  let row := mkEventRow ts endpoint_name url payload_json in
  {| request_log := request_log st;
     raw_events := insert_or_ignore key row (raw_events st);
     clock_reads := S (clock_reads st);
     trace := trace st ++ [EStore key row] |}.

(** The call [store.store_payload(...)]. [sha256_hex(payload_json)] encodes
    the text as UTF-8 before it hashes it, and raises [UnicodeEncodeError]
    when the text does not encode; nothing is inserted then. Otherwise the
    call does what [store_payload] describes. *)
Definition try_store_payload (E : Env) (endpoint_name url : string) (payload : json)
    (st : state) : result state :=
  if utf8_encodable E (json_dumps E payload)
  then Ok (store_payload E endpoint_name url payload st)
  else Raised UnicodeEncodeError.

(** ** URL resolver: [build_url] *)

Definition is_digit (c : ascii) : bool :=
  let n := nat_of_ascii c in (48 <=? n)%nat && (n <=? 57)%nat.

Fixpoint all_digits (s : string) : bool :=
  match s with
  | EmptyString => true
  | String c s' => is_digit c && all_digits s'
  end.

Definition is_ascii (c : ascii) : bool := (nat_of_ascii c <? 128)%nat.

(** The characters that start an attribute, an index, a conversion, a
    format specification or a nested field inside a replacement field. *)
Definition field_special (c : ascii) : bool :=
  (c =? ".")%char || (c =? "[")%char || (c =? "!")%char || (c =? ":")%char
  || (c =? "{")%char.

(** The value of the replacement field [{field}] when [format] receives
    keyword arguments only: an empty or numeric field is positional, and
    there are no positional arguments. *)
Definition field_value (field : string) (ps : gmap string pyvalue) : result string :=
  if all_digits field then Raised IndexError
  else match ps !! field with
       | Some v => Ok (str_value v)
       | None => Raised (KeyError field)
       end.

Definition prepend (s : string) (r : result string) : result string :=
  match r with
  | Ok t => Ok (s ++ t)
  | Raised e => Raised e
  end.

(** [template.format] applied to the keyword arguments [params], for
    templates whose replacement fields are plain ASCII names: a field with
    an attribute, an index, a conversion, a format specification, a nested
    field or a character outside ASCII is outside the model, and the result
    is then [Unmodelled]. [field] is [None] in literal text and [Some acc]
    inside a replacement field of which [acc] has been read. *)
Fixpoint format_from (field : option string) (template : string)
    (ps : gmap string pyvalue) : result string :=
  match field with
  | None =>
      match template with
      | EmptyString => Ok ""
      | String c rest =>
          if (c =? "{")%char then
            match rest with
            | String c' rest' =>
                if (c' =? "{")%char then prepend "{" (format_from None rest' ps)
                else format_from (Some "") rest ps
            | EmptyString => Raised (ValueError "Single '{' encountered in format string")
            end
          else if (c =? "}")%char then
            match rest with
            | String c' rest' =>
                if (c' =? "}")%char then prepend "}" (format_from None rest' ps)
                else Raised (ValueError "Single '}' encountered in format string")
            | EmptyString => Raised (ValueError "Single '}' encountered in format string")
            end
          else prepend (String c "") (format_from None rest ps)
      end
  | Some acc =>
      match template with
      | EmptyString => Raised (ValueError "expected '}' before end of string")
      | String c rest =>
          if (c =? "}")%char then
            match field_value acc ps with
            | Ok v => prepend v (format_from None rest ps)
            | Raised e => Raised e
            end
          else if field_special c || negb (is_ascii c)
               then Raised (Unmodelled "replacement field is not a plain ASCII name")
          else format_from (Some (acc ++ String c "")) rest ps
      end
  end.

Definition format (template : string) (ps : gmap string pyvalue) : result string :=
  format_from None template ps.

Fixpoint endswith_slash (s : string) : bool :=
  match s with
  | EmptyString => false
  | String c EmptyString => (c =? "/")%char
  | String _ s' => endswith_slash s'
  end.

Definition build_url (base path_tpl : string) (ps : gmap string pyvalue) : result string :=
  match format path_tpl ps with
  | Raised e => Raised e
  | Ok path =>
      let base := if endswith_slash base then base else base ++ "/" in
      let path :=
        match path with
        | String c rest => if (c =? "/")%char then rest else path
        | EmptyString => path
        end in
      Ok (base ++ path)
  end.

(** ** Fetch-with-retry: [fetch_json_with_retries] *)

(** [resp.raise_for_status()] returns for a 2xx status and raises
    [HTTPStatusError] for every other one. *)
Definition is_success (status : Z) : bool :=
  (200 <=? status) && (status <=? 299).

(** [compute_backoff_s(attempt, cfg.backoff_base_s, cfg.backoff_cap_s,
    cfg.jitter_ratio)] as the run of [w] evaluates it. *)
Definition backoff_of (cfg : CollectorConfig) (w : world) (attempt : Z) : option Q :=
  Backoff.compute_backoff_s attempt (backoff_base_s cfg) (backoff_cap_s cfg)
    (jitter_ratio cfg) (Backoff.unit_draw Backoff.python_resolution (random_k w attempt)).

(** [f"unexpected:{type(e).__name__}:{str(e)[:200]}"] *)
Definition unexpected_error (exc_name msg : string) : string :=
  "unexpected:" ++ exc_name ++ ":" ++ substring 0 200 msg.

(** The body of [for attempt in range(1, cfg.max_retries + 1)], with
    [remaining] iterations left, the current one included. The first
    component is [Ok] of the returned value when the function returns, and
    the exception when one leaves it.

    The backoff after a 429 or 5xx is computed inside the [try]: its
    [OverflowError] is caught by [except Exception], which logs a second
    row for the attempt and returns. The backoff after a timeout or network
    error is computed inside the handler of that error: its [OverflowError]
    leaves the function. *)
Fixpoint fetch_loop (E : Env) (cfg : CollectorConfig) (w : world)
    (endpoint_name url : string) (remaining : nat) (attempt : Z) (st : state)
    : result (option json) * state :=
  match remaining with
  | O => (Ok None, st)
  | S remaining' =>
      let st := emit EWait st in
      let st := emit (EGet url) st in
      match response w attempt with
      | Responded status_code b elapsed_ms =>
          if (status_code =? 401) || (status_code =? 403) then
            let err := "auth_status:" ++ str_int status_code in
            (Ok None,
             log_request E endpoint_name url (Some status_code) elapsed_ms attempt (Some err) st)
          else if (status_code =? 429) || ((500 <=? status_code) && (status_code <=? 599)) then
            let err := "retryable_status:" ++ str_int status_code in
            let st := log_request E endpoint_name url (Some status_code) elapsed_ms attempt (Some err) st in
            match backoff_of cfg w attempt with
            | Some seconds =>
                fetch_loop E cfg w endpoint_name url remaining' (attempt + 1)
                  (emit (ESleep seconds) st)
            | None =>
                let err := unexpected_error "OverflowError" Backoff.overflow_message in
                (Ok None,
                 log_request E endpoint_name url (Some status_code)
                   (late_elapsed_ms w attempt) attempt (Some err) st)
            end
          else if negb (is_success status_code) then
            let err := "http_status:" ++ str_int status_code in
            (Ok None,
             log_request E endpoint_name url (Some status_code) elapsed_ms attempt (Some err) st)
          else
            match b with
            | ParseRaises exc_name =>
                let err := "json_parse:" ++ exc_name in
                (Ok None,
                 log_request E endpoint_name url (Some status_code) elapsed_ms attempt (Some err) st)
            | ParsesTo data =>
                (Ok (py_optional data),
                 log_request E endpoint_name url (Some status_code) elapsed_ms attempt None st)
            end
      | RaisedNetwork exc_name elapsed_ms =>
          let err := "network:" ++ exc_name in
          let st := log_request E endpoint_name url None elapsed_ms attempt (Some err) st in
          match backoff_of cfg w attempt with
          | Some seconds =>
              fetch_loop E cfg w endpoint_name url remaining' (attempt + 1)
                (emit (ESleep seconds) st)
          | None => (Raised OverflowError, st)
          end
      | RaisedOther exc_name msg elapsed_ms =>
          let err := unexpected_error exc_name msg in
          (Ok None, log_request E endpoint_name url None elapsed_ms attempt (Some err) st)
      end
  end.

Definition fetch_json_with_retries (E : Env) (cfg : CollectorConfig) (w : world)
    (endpoint_name url : string) (st : state) : result (option json) * state :=
  fetch_loop E cfg w endpoint_name url (Z.to_nat (max_retries cfg)) 1 st.

(** ** Orchestrator: [run_once] *)

(** [worker(spec)]: the URL is built before the concurrency gate is
    entered. An exception of the fetch or of [store_payload] leaves the
    worker. *)
Definition worker (E : Env) (cfg : CollectorConfig) (spec : EndpointSpec) (w : world)
    (st : state) : result ((string * option json) * state) :=
  match build_url (base_url cfg) (path_template spec) (params spec) with
  | Raised e => Raised e
  | Ok url =>
      match fetch_json_with_retries E cfg w (name spec) url st with
      | (Raised e, _) => Raised e
      | (Ok None, st) => Ok ((name spec, None), st)
      | (Ok (Some payload), st) =>
          match try_store_payload E (name spec) url payload st with
          | Ok st => Ok ((name spec, Some payload), st)
          | Raised e => Raised e
          end
      end
  end.

(** The first exception a worker raises while building its URL. Every
    worker builds its URL in its first scheduling step, before any request
    of the run has completed, so this is the exception [asyncio.gather]
    propagates. *)
Fixpoint first_resolution_error (cfg : CollectorConfig) (specs : list EndpointSpec)
    : option exn :=
  match specs with
  | [] => None
  | spec :: specs' =>
      match build_url (base_url cfg) (path_template spec) (params spec) with
      | Raised e => Some e
      | Ok _ => first_resolution_error cfg specs'
      end
  end.

(** The workers run one after the other in catalogue order, the schedule of
    [max_concurrency = 1]; [server i] is the world of the [i]-th endpoint. *)
Fixpoint gather (E : Env) (cfg : CollectorConfig) (specs : list EndpointSpec)
    (server : nat -> world) (i : nat) (st : state)
    : result (list (string * option json) * state) :=
  match specs with
  | [] => Ok ([], st)
  | spec :: specs' =>
      match worker E cfg spec (server i) st with
      | Raised e => Raised e
      | Ok (r, st1) =>
          match gather E cfg specs' server (S i) st1 with
          | Raised e => Raised e
          | Ok (rs, st2) => Ok (r :: rs, st2)
          end
      end
  end.

Inductive run_result :=
  | RunRaised (e : exn)
  | RunHangs
  | RunCompleted (results : list (string * option json)) (ok total : nat) (st : state).

Definition count_ok (results : list (string * option json)) : nat :=
  length (List.filter (fun r => match snd r with Some _ => true | None => false end) results).

(** [run_once], from the construction of the limiter on. A semaphore of
    value 0 admits no worker, and a negative value is a [ValueError]. *)
Definition run_once (E : Env) (cfg : CollectorConfig) (specs : list EndpointSpec)
    (server : nat -> world) (st : state) : run_result :=
  match RateLimiter.init (rps_per_host cfg) with
  | None => RunRaised (ValueError "rps_per_host must be > 0")
  | Some _ =>
      if max_concurrency cfg <? 0
      then RunRaised (ValueError "Semaphore initial value must be >= 0")
      else
        match first_resolution_error cfg specs with
        | Some e => RunRaised e
        | None =>
            match specs with
            | [] => RunCompleted [] 0 0 st
            | _ :: _ =>
                if max_concurrency cfg =? 0 then RunHangs
                else
                  match gather E cfg specs server 0 st with
                  | Raised e => RunRaised e
                  | Ok (results, st') =>
                      RunCompleted results (count_ok results) (length results) st'
                  end
            end
        end
  end.

(** ** Vocabulary of the specification *)

(** The states of the fetch state machine an attempt can end in. *)
Inductive outcome := Success | AuthRejected | RetryableFailure | TerminalFailure.

Definition classify (g : get_result) : outcome :=
  match g with
  | Responded status _ _ =>
      if (status =? 401) || (status =? 403) then AuthRejected
      else if (status =? 429) || ((500 <=? status) && (status <=? 599)) then RetryableFailure
      else if negb (is_success status) then TerminalFailure
      else match g with
           | Responded _ (ParsesTo _) _ => Success
           | _ => TerminalFailure
           end
  | RaisedNetwork _ _ => RetryableFailure
  | RaisedOther _ _ _ => TerminalFailure
  end.


(** The events a state gained over an earlier one. *)
Definition new_events (st st' : state) : list event :=
  drop (length (trace st)) (trace st').

Definition logged (tr : list event) : list (string * request_row) :=
  omap (fun e => match e with ELog id row => Some (id, row) | _ => None end) tr.

Definition stored (tr : list event) : list (string * event_row) :=
  omap (fun e => match e with EStore id row => Some (id, row) | _ => None end) tr.

Definition gets (tr : list event) : list string :=
  omap (fun e => match e with EGet url => Some url | _ => None end) tr.

(** The history cut into the iterations of the attempt loop: an iteration
    starts at the limiter's [wait()]. *)
Definition cut (e : event) (acc : list event * list (list event))
    : list event * list (list event) :=
  match e with
  | EWait => ([], (EWait :: fst acc) :: snd acc)
  | _ => (e :: fst acc, snd acc)
  end.

Definition iterations (tr : list event) : list (list event) :=
  snd (fold_right cut ([], []) tr).

(** The ids a run binds are pairwise distinct and free in the table. *)
Definition fresh_ids {R : Type} (table : gmap string R) (ids : list string) : Prop :=
  NoDup ids /\ Forall (fun id => table !! id = None) ids.

Definition log_ids (tr : list event) : list string := map fst (logged tr).

(** The table after the [log_request] calls of a history, in order. *)
Definition replay_logs (table : gmap string request_row)
    (l : list (string * request_row)) : gmap string request_row :=
  foldl (fun t p => insert_or_ignore (fst p) (snd p) t) table l.

(** One iteration of the attempt loop, for attempt number [attempt]: one
    wait on the limiter, one GET, one [log_request] call carrying that
    attempt number, and a backoff sleep when the attempt is retried. *)
Definition one_attempt (url : string) (attempt : Z) (b : list event) : Prop :=
  exists id row,
    rq_attempt row = attempt /\
    (b = [EWait; EGet url; ELog id row] \/
     exists s, b = [EWait; EGet url; ELog id row; ESleep s]).

(** A [RequestOutcome] row with no error and a 2xx status for an endpoint
    name and URL. *)
Definition success_row (endpoint_name url : string) (rq : request_row) : Prop :=
  rq_endpoint_name rq = endpoint_name /\ rq_url rq = url /\ rq_error rq = None /\
  exists s, rq_status_code rq = Some s /\ is_success s = true.

(** The invariant of the data model: every [RawEvent] row has a
    corresponding successful [RequestOutcome] row. *)
Definition backed (st : state) : Prop :=
  forall id ev, raw_events st !! id = Some ev ->
  exists id' rq, request_log st !! id' = Some rq /\
                 success_row (ev_endpoint_name ev) (ev_url ev) rq.

(** The attempt numbers of [k] consecutive iterations starting at [a], as
    [range] yields them. *)
Fixpoint attempts_from (a : Z) (k : nat) : list Z :=
  match k with
  | O => []
  | S k' => a :: attempts_from (a + 1) k'
  end.


(** The part of [run_once] before the fan-out: the limiter and the
    semaphore are built. *)
Definition setup_ok (cfg : CollectorConfig) : Prop :=
  RateLimiter.init (rps_per_host cfg) <> None /\ 0 <= max_concurrency cfg.


(** [c in s] for a character. *)
Fixpoint contains (c : ascii) (s : string) : bool :=
  match s with
  | EmptyString => false
  | String c' s' => (c' =? c)%char || contains c s'
  end.

(** The durations of the backoff sleeps of a history, in order. *)
Definition sleeps (tr : list event) : list Q :=
  omap (fun e => match e with ESleep s => Some s | _ => None end) tr.

(** The key string [log_request] derives the id of a row from, read back
    from the row's columns. *)
Definition row_key (row : request_row) : string :=
  request_key (rq_ts_utc row) (rq_endpoint_name row) (rq_url row) (rq_attempt row)
    (rq_status_code row) (rq_error row).

Definition retryable (g : get_result) : bool :=
  match classify g with
  | RetryableFailure => true
  | _ => false
  end.

(** The id and the row [log_request] writes at the reading [clock] of the
    wall clock. *)
Definition row_at (E : Env) (endpoint_name url : string) (clock : nat)
    (status : option Z) (elapsed attempt : Z) (err : option string)
    : string * request_row :=
  let row := mkRequestRow (utc_now_iso E clock) endpoint_name url status elapsed
               attempt err in
  (sha256_hex E (row_key row), row).

(** The state after [i] consecutive attempts from attempt [a] on, each run
    as an attempt loop of one iteration. *)
Fixpoint after_attempts (E : Env) (cfg : CollectorConfig) (w : world)
    (endpoint_name url : string) (i : nat) (a : Z) (st : state) : state :=
  match i with
  | O => st
  | S i' =>
      after_attempts E cfg w endpoint_name url i' (a + 1)
        (snd (fetch_loop E cfg w endpoint_name url 1 a st))
  end.

(** [st'] is [st] after the history [tr], which calls [log_request] for one
    endpoint name and URL and never [store_payload]: the outcome table is
    the old one with the logged rows replayed, each row is the one
    [log_request] writes at some reading of the clock, and the clock has
    been read once per row. *)
Definition logs_only (E : Env) (endpoint_name url : string) (st : state)
    (tr : list event) (st' : state) : Prop :=
  trace st' = (trace st ++ tr)%list /\
  request_log st' = replay_logs (request_log st) (logged tr) /\
  raw_events st' = raw_events st /\
  clock_reads st' = (clock_reads st + length (logged tr))%nat /\
  stored tr = [] /\
  Forall (fun p => exists clock status elapsed attempt err,
            p = row_at E endpoint_name url clock status elapsed attempt err)
    (logged tr).

(** What distinguishes the rows of one run: the attempt number and the
    error text. *)
Definition attempt_and_error (p : string * request_row) : Z * string :=
  (rq_attempt (snd p), or_empty (rq_error (snd p))).

(** Attempt [n] is made: it is allowed, and every attempt before it was a
    retryable failure followed by its backoff sleep. The backoff is
    computed for attempts up to 1024 only, so no attempt after the 1025th
    is ever made. *)
Definition reached (cfg : CollectorConfig) (w : world) (n : Z) : Prop :=
  (1 <= n <= max_retries cfg) /\ (n <= 1025) /\
  (forall j, 1 <= j < n -> classify (response w j) = RetryableFailure).

(** The loop goes on after attempt [attempt]: it was a retryable failure
    and its backoff was computed. *)
Definition goes_on (cfg : CollectorConfig) (w : world) (attempt : Z) : bool :=
  retryable (response w attempt) &&
  match backoff_of cfg w attempt with Some _ => true | None => false end.


(** What the worker of [spec] adds to the history of a run when it returns
    [res]: [k] GETs of the endpoint's URL, [k] being at most [max_retries];
    one [log_request] call per GET, and one more when the 1025th attempt
    had to be retried; one [store_payload] call when [res] has a payload. *)
Definition worker_segment (cfg : CollectorConfig) (spec : EndpointSpec)
    (res : string * option json) (seg : list event) : Prop :=
  fst res = name spec /\
  exists (url : string) (k : nat),
    build_url (base_url cfg) (path_template spec) (params spec) = Ok url /\
    gets seg = replicate k url /\ (k <= Z.to_nat (max_retries cfg))%nat /\
    (k <= length (logged seg) <= S k)%nat /\
    ((k <= 1024)%nat -> length (logged seg) = k) /\
    length (stored seg) = match snd res with Some _ => 1%nat | None => 0%nat end.


(** Literal text of a template: no brace. *)
Definition brace_free (s : string) : bool :=
  negb (contains "{" s) && negb (contains "}" s).

(** A field name that [format] looks up as a keyword: ASCII characters, no
    closing brace and none of the characters that start an attribute, an
    index, a conversion or a format specification. *)
Fixpoint plain_name (s : string) : bool :=
  match s with
  | EmptyString => true
  | String c s' =>
      negb (c =? "}")%char && negb (field_special c) && is_ascii c && plain_name s'
  end.

(** [s.startswith("/")] *)
Definition startswith_slash (s : string) : bool :=
  match s with
  | String c _ => (c =? "/")%char
  | EmptyString => false
  end.

(** Adjacent elements are exactly [d] apart. *)
Fixpoint evenly_spaced (d : Q) (rs : list Q) : Prop :=
  match rs with
  | r1 :: ((r2 :: _) as tl) => (r2 == r1 + d)%Q /\ evenly_spaced d tl
  | _ => True
  end.

(** A scheduler and a clock that add no time of their own. *)
Definition no_lag : RateLimiter.lag := RateLimiter.mk_lag 0 0 0.

(** ** Concrete scenarios *)

Module Demo.

(** An environment for examples: the identity stands for SHA-256, so that an
    id is the key string it is derived from; the clock shows [t0], [t1], ... *)
Definition env : Env :=
  mkEnv (fun s => s) (fun n => "t" ++ str_int (Z.of_nat n)) (fun _ => "{}")
    (fun _ => true).

(** The same with a clock that always shows the same instant. *)
Definition frozen_env : Env :=
  mkEnv (fun s => s) (fun _ => "2026-01-01T00:00:00+00:00") (fun _ => "{}")
    (fun _ => true).

(** The defaults of [load_config_from_env]. *)
Definition cfg : CollectorConfig :=
  mkCollectorConfig "http://host" "moltbook-observatory/0.1 (public-only)" 20 4 1 6
    (8 # 10) 30 (25 # 100) "data/observatory.sqlite" None.

Definition empty_state : state := mkState ∅ ∅ 0 [].

Definition always (g : get_result) : world :=
  mkWorld (fun _ => g) (fun _ => 0) (fun _ => 0).

(** HTTP 500 on attempts 1 and 2, then 200 with a JSON object. *)
Definition flaky : world :=
  mkWorld (fun attempt => if attempt <? 3
                          then Responded 500 (ParseRaises "JSONDecodeError") 7
                          else Responded 200 (ParsesTo (JObj [])) 9)
          (fun _ => 0) (fun _ => 0).

Definition forbidden : world := always (Responded 403 (ParseRaises "JSONDecodeError") 5).


(** HTTP 200 with the body [null]. *)
Definition null_body : world := always (Responded 200 (ParsesTo JNull) 5).

Definition trending : EndpointSpec :=
  mkEndpointSpec "trending" "/api/public/trending" ∅.


(** The endpoint of the examples, its URL, and a run of it under the
    frozen clock. *)
Definition trending_url : string := "http://host/api/public/trending".

Definition fetch_trending (w : world) (st : state) : result (option json) * state :=
  fetch_json_with_retries frozen_env cfg w "trending" trending_url st.


(** HTTP 200 with a body that parses to [data]. *)
Definition ok_with (data : json) : world := always (Responded 200 (ParsesTo data) 5).

(** Two endpoints whose names and URLs differ only in the place of a bar:
    the name of the second is the name of the first, a bar, and the
    beginning of the URL of the first. *)
Definition pipe_first : EndpointSpec := mkEndpointSpec "x" "/p|http://host/q" ∅.

Definition pipe_second : EndpointSpec := mkEndpointSpec "x|http://host/p" "/q" ∅.

(** The frozen clock, with a [json.dumps] that tells an array from the
    rest. *)
Definition coarse_env : Env :=
  mkEnv (fun s => s) (fun _ => "2026-01-01T00:00:00+00:00")
    (fun data => match data with JArr _ => "[]" | _ => "{}" end) (fun _ => true).

(** The store after the worker of the first of the two endpoints. *)
Definition after_pipe_first : state :=
  match worker coarse_env cfg pipe_first (ok_with (JObj [])) empty_state with
  | Ok (_, st) => st
  | Raised _ => empty_state
  end.

Definition after_pipe_second : state :=
  match worker coarse_env cfg pipe_second (ok_with (JArr [])) after_pipe_first with
  | Ok (_, st) => st
  | Raised _ => after_pipe_first
  end.

(** An environment in which no payload text encodes as UTF-8. *)
Definition surrogate_env : Env :=
  mkEnv (fun s => s) (fun _ => "2026-01-01T00:00:00+00:00") (fun _ => "{}")
    (fun _ => false).

(** The defaults with [MOLTBOOK_MAX_RETRIES=2000]. *)
Definition patient_cfg : CollectorConfig :=
  mkCollectorConfig "http://host" "moltbook-observatory/0.1 (public-only)" 20 4 1 2000
    (8 # 10) 30 (25 # 100) "data/observatory.sqlite" None.

End Demo.

(** * Properties *)

(** ** Backoff policy *)

Section BackoffFacts.

Import Backoff.
Local Open Scope Q_scope.

Lemma unit_draw_range (N : positive) (k : Z) :
  (0 <= k < Z.pos N)%Z -> 0 <= unit_draw N k /\ unit_draw N k < 1.
Proof.
  intros [Hlo Hhi]. unfold unit_draw, Qle, Qlt. simpl. lia.
Qed.

Lemma pow2_nonneg (n : Z) : 0 <= inject_Z (2 ^ n).
Proof.
  assert (0 <= 2 ^ n)%Z by (apply Z.pow_nonneg; lia).
  unfold Qle. simpl. lia.
Qed.

(** The exponential part is computed up to attempt 1024, and only there. *)
Lemma exp_delay_computed (attempt : Z) (base cap : Q) :
  (attempt <= 1024)%Z ->
  exp_delay attempt base cap
  = Some (Qmin cap (base * inject_Z (2 ^ Z.max 0 (attempt - 1)))).
Proof.
  intros Ha. unfold exp_delay. cbv zeta.
  replace (1024 <=? Z.max 0 (attempt - 1))%Z with false
    by (symmetry; apply Z.leb_gt; lia).
  reflexivity.
Qed.

Lemma exp_delay_overflows (attempt : Z) (base cap : Q) :
  (1025 <= attempt)%Z -> exp_delay attempt base cap = None.
Proof.
  intros Ha. unfold exp_delay. cbv zeta.
  replace (1024 <=? Z.max 0 (attempt - 1))%Z with true
    by (symmetry; apply Z.leb_le; lia).
  reflexivity.
Qed.

Lemma exp_delay_inv (attempt : Z) (base cap e : Q) :
  exp_delay attempt base cap = Some e ->
  (attempt <= 1024)%Z /\
  e = Qmin cap (base * inject_Z (2 ^ Z.max 0 (attempt - 1))).
Proof.
  intros H. destruct (Z_le_gt_dec attempt 1024) as [Ha | Ha].
  - rewrite exp_delay_computed in H by exact Ha. injection H as <-.
    split; [exact Ha | reflexivity].
  - rewrite exp_delay_overflows in H by lia. discriminate.
Qed.

Lemma compute_backoff_inv (attempt : Z) (base cap jr u d : Q) :
  compute_backoff_s attempt base cap jr u = Some d ->
  exists e, exp_delay attempt base cap = Some e /\ d = e + e * jr * u.
Proof.
  unfold compute_backoff_s, jitter.
  destruct (exp_delay attempt base cap) as [e |]; [| discriminate].
  intros H. injection H as <-. exists e. split; reflexivity.
Qed.

Lemma compute_backoff_none (attempt : Z) (base cap jr u : Q) :
  compute_backoff_s attempt base cap jr u = None <-> (1025 <= attempt)%Z.
Proof.
  unfold compute_backoff_s. split.
  - intros H. destruct (Z_le_gt_dec attempt 1024) as [Ha | Ha]; [| lia].
    rewrite exp_delay_computed in H by exact Ha. discriminate.
  - intros Ha. rewrite exp_delay_overflows by exact Ha. reflexivity.
Qed.

Lemma capped_nonneg (k : Z) (base cap : Q) :
  0 <= base -> 0 <= cap -> 0 <= Qmin cap (base * inject_Z (2 ^ k)).
Proof.
  intros Hb Hc. apply Q.min_glb; [exact Hc |].
  apply Qmult_le_0_compat; [exact Hb | apply pow2_nonneg].
Qed.

Lemma capped_mono (k k' : Z) (base cap : Q) :
  0 <= base -> (0 <= k <= k')%Z ->
  Qmin cap (base * inject_Z (2 ^ k)) <= Qmin cap (base * inject_Z (2 ^ k')).
Proof.
  intros Hb Hk. apply Q.min_le_compat_l.
  rewrite (Qmult_comm base), (Qmult_comm base).
  apply Qmult_le_compat_r; [| exact Hb].
  rewrite <- Zle_Qle. apply Z.pow_le_mono_r; lia.
Qed.

(** The delay grows with the exponential part, for a fixed draw. *)
Lemma delay_mono_in_exp (e e' jr u : Q) :
  0 <= jr -> 0 <= u -> e <= e' -> e + e * jr * u <= e' + e' * jr * u.
Proof.
  intros Hj Hu He.
  assert (Hju : 0 <= jr * u) by (apply Qmult_le_0_compat; assumption).
  assert (H : e * (jr * u) <= e' * (jr * u))
    by (apply Qmult_le_compat_r; assumption).
  rewrite <- !Qmult_assoc. lra.
Qed.

Lemma Qsum_le (f g : Q -> Q) (l : list Q) :
  Forall (fun u => f u <= g u) l -> Qsum (map f l) <= Qsum (map g l).
Proof.
  unfold Qsum. induction 1 as [| u l Hu _ IH]; simpl; lra.
Qed.

Lemma draws_nonneg (N : positive) : Forall (fun u => 0 <= u) (draws N).
Proof.
  unfold draws. apply List.Forall_forall. intros u Hu.
  apply in_map_iff in Hu. destruct Hu as [k [<- Hk]].
  unfold unit_draw, Qle. simpl. lia.
Qed.

Lemma expectation_le (N : positive) (f g : Q -> Q) :
  Forall (fun u => f u <= g u) (draws N) -> expectation N f <= expectation N g.
Proof.
  intros H. unfold expectation, Qdiv.
  apply Qmult_le_compat_r; [apply Qsum_le, H |].
  apply Qlt_le_weak, Qinv_lt_0_compat. unfold Qlt. simpl. lia.
Qed.

(** A delay that is computed lies between 0 and [cap * (1 + jitter_ratio)]. *)
Lemma compute_backoff_bounds (attempt : Z) (base cap jr u d : Q) :
  0 <= base -> 0 <= cap -> 0 <= jr -> 0 <= u -> u < 1 ->
  compute_backoff_s attempt base cap jr u = Some d ->
  0 <= d /\ d <= cap * (1 + jr).
Proof.
  intros Hb Hc Hj Hu0 Hu1 Hd.
  apply compute_backoff_inv in Hd as (e & He & ->).
  apply exp_delay_inv in He as [_ ->].
  pose proof (capped_nonneg (Z.max 0 (attempt - 1)) base cap Hb Hc) as He0.
  pose proof (Q.le_min_l cap (base * inject_Z (2 ^ Z.max 0 (attempt - 1)))) as Hec.
  set (e := Qmin cap (base * inject_Z (2 ^ Z.max 0 (attempt - 1)))) in *.
  assert (Hw0 : 0 <= e * jr) by (apply Qmult_le_0_compat; assumption).
  assert (Hwc : e * jr <= cap * jr) by (apply Qmult_le_compat_r; assumption).
  assert (Hwu0 : 0 <= e * jr * u) by (apply Qmult_le_0_compat; assumption).
  assert (Hwu1 : e * jr * u <= e * jr).
  { rewrite <- (Qmult_1_r (e * jr)) at 2.
    rewrite (Qmult_comm (e * jr) u), (Qmult_comm (e * jr) 1).
    apply Qmult_le_compat_r; [apply Qlt_le_weak; exact Hu1 | exact Hw0]. }
  split; lra.
Qed.

(** C7 fails on the code for every attempt from the 1025th on.
    [2 ** (attempt - 1)] is then an integer of 1025 bits or more, and its
    conversion to a float for the product with [base] raises
    [OverflowError] before [min] applies the cap: no delay is returned,
    whatever the base, the cap, the jitter ratio and the draw, where the
    claim gives the delay [min(cap, base * 2^(attempt-1))] plus jitter. *)
Theorem C7_backoff_overflow (attempt : Z) (base cap jr u : Q) :
  (1025 <= attempt)%Z ->
  exp_delay attempt base cap = None /\
  compute_backoff_s attempt base cap jr u = None.
Proof.
  intros Ha. split; [apply exp_delay_overflows, Ha | apply compute_backoff_none, Ha].
Qed.

Lemma C7_backoff_overflow_witness :
  compute_backoff_s 1025 (8 # 10) 30 (25 # 100) 0 = None.
Proof.
  destruct (C7_backoff_overflow 1025 (8 # 10) 30 (25 # 100) 0) as [_ H].
  - lia.
  - exact H.
Defined.

(** X24. For attempts 1 to 1024, with the operations on floats read as
    exact, and for non-negative [base], [cap] and [jitter_ratio] and every
    draw [u = k/N] of the generator: the delay is
    [e + e * jitter_ratio * u] with [e = min(cap, base * 2^(attempt-1))];
    the jitter lies in [[0, e * jitter_ratio)] (it is 0 when that interval
    is empty); the delay is at most [cap * (1 + jitter_ratio)]; and the
    mean of the delay over the [N] equally likely draws does not decrease
    when the attempt grows. *)
Theorem backoff_delay_exact (N : positive) (attempt attempt' k : Z) (base cap jr : Q) :
  (1 <= attempt <= attempt')%Z -> (attempt' <= 1024)%Z ->
  0 <= base -> 0 <= cap -> 0 <= jr -> (0 <= k < Z.pos N)%Z ->
  let e := Qmin cap (base * inject_Z (2 ^ (attempt - 1))) in
  let u := unit_draw N k in
  exists d m m',
    compute_backoff_s attempt base cap jr u = Some d /\
    d == e + e * jr * u /\
    0 <= e * jr * u /\ e * jr * u <= e * jr /\
    (0 < e * jr -> e * jr * u < e * jr) /\
    d <= cap * (1 + jr) /\
    expected_backoff N attempt base cap jr = Some m /\
    expected_backoff N attempt' base cap jr = Some m' /\
    m <= m'.
Proof.
  intros Ha Ha' Hb Hc Hj Hk e u.
  destruct (unit_draw_range N k Hk) as [Hu0 Hu1]. fold u in Hu0, Hu1.
  assert (He : exp_delay attempt base cap = Some e).
  { rewrite exp_delay_computed by lia. unfold e. rewrite Z.max_r by lia. reflexivity. }
  assert (He0 : 0 <= e) by (apply capped_nonneg; assumption).
  assert (Hw0 : 0 <= e * jr) by (apply Qmult_le_0_compat; assumption).
  assert (Hwu1 : e * jr * u <= e * jr).
  { rewrite <- (Qmult_1_r (e * jr)) at 2.
    rewrite (Qmult_comm (e * jr) u), (Qmult_comm (e * jr) 1).
    apply Qmult_le_compat_r; [apply Qlt_le_weak; exact Hu1 | exact Hw0]. }
  assert (Hd : compute_backoff_s attempt base cap jr u = Some (e + e * jr * u)).
  { unfold compute_backoff_s, jitter. rewrite He. reflexivity. }
  unfold expected_backoff. rewrite He, (exp_delay_computed attempt') by lia.
  do 3 eexists. split; [exact Hd |].
  split; [reflexivity |].
  split; [apply Qmult_le_0_compat; assumption |].
  split; [exact Hwu1 |].
  split.
  { intros Hw. rewrite <- (Qmult_1_r (e * jr)) at 2.
    rewrite (Qmult_comm (e * jr) u), (Qmult_comm (e * jr) 1).
    apply Qmult_lt_compat_r; assumption. }
  split; [apply (compute_backoff_bounds attempt base cap jr u); assumption |].
  split; [reflexivity |]. split; [reflexivity |].
  apply expectation_le.
  eapply List.Forall_impl; [| apply draws_nonneg].
  intros v Hv. unfold jitter. apply delay_mono_in_exp; [assumption .. |].
  unfold e. rewrite (Z.max_r 0 (attempt' - 1)) by lia.
  apply capped_mono; [exact Hb | lia].
Qed.

Lemma backoff_delay_exact_witness :
  exists d, compute_backoff_s 3 (8 # 10) 30 (25 # 100) (unit_draw 8 3) = Some d /\
            d <= 30 * (1 + (25 # 100)).
Proof.
  destruct (backoff_delay_exact 8 3 4 3 (8 # 10) 30 (25 # 100))
    as (d & _ & _ & Hd & _ & _ & _ & _ & Hbound & _);
    try lia; try (unfold Qle; simpl; lia).
  exists d. split; [exact Hd | exact Hbound].
Defined.

End BackoffFacts.

(** ** Rate limiter *)

Section RateLimiterFacts.

Import RateLimiter.
Local Open Scope Q_scope.

Lemma Qltb_true (x y : Q) : Qltb x y = true -> x < y.
Proof.
  unfold Qltb. intros H. apply negb_true_iff in H.
  apply Qnot_le_lt. intros Hle. apply Qle_bool_iff in Hle. congruence.
Qed.

Lemma Qltb_false (x y : Q) : Qltb x y = false -> y <= x.
Proof.
  unfold Qltb. intros H. apply negb_false_iff in H. apply Qle_bool_iff, H.
Qed.

(** One [wait()]: the release is no earlier than the call and at least the
    minimum interval after the previous release; the clock then stands at
    the release. *)
Lemma wait_release (e : lag) (lim : t) (clock : Q) :
  lag_ok e ->
  let s := wait e (lim, clock) in
  min_interval (fst s) = min_interval lim /\
  snd s = last_ts (fst s) /\
  clock <= last_ts (fst s) /\
  last_ts lim + min_interval lim <= last_ts (fst s).
Proof.
  intros (H1 & H2 & H3). unfold wait. simpl.
  destruct (Qltb _ _) eqn:Hcmp.
  - apply Qltb_true in Hcmp. repeat split; try reflexivity; lra.
  - apply Qltb_false in Hcmp. repeat split; try reflexivity; lra.
Qed.

Lemma waits_length (es : list lag) (s : t * Q) :
  length (fst (waits es s)) = length es.
Proof.
  revert s. induction es as [| e es IH]; intros s; simpl; [reflexivity |].
  specialize (IH (wait e s)). destruct (waits es (wait e s)) as [rs s2].
  simpl in *. congruence.
Qed.

(** Consecutive waits: releases are spaced, the first one is at least the
    minimum interval after the limiter's previous release and no earlier
    than the start, and the clock ends at least [N] intervals after that
    previous release. *)
Lemma waits_spaced (d : Q) (es : list lag) :
  Forall lag_ok es ->
  forall (lim : t) (clock : Q),
  min_interval lim = d ->
  let r := waits es (lim, clock) in
  spaced d (fst r) /\
  (forall r1, head (fst r) = Some r1 -> last_ts lim + d <= r1 /\ clock <= r1) /\
  (es <> [] ->
   last_ts lim + inject_Z (Z.of_nat (length es)) * d <= snd (snd r) /\
   clock + (inject_Z (Z.of_nat (length es)) - 1) * d <= snd (snd r)).
Proof.
  induction 1 as [| e es He Hes IH]; intros lim clock Hd.
  - simpl. split; [exact I |]. split; [intros r1 Hr; discriminate | intros Hne; congruence].
  - pose proof (wait_release e lim clock He) as Hw. cbv zeta in Hw.
    destruct Hw as (Hmi & Hclk & Hge & Hsp).
    cbn [waits].
    destruct (wait e (lim, clock)) as [lim1 clock1] eqn:Hw1.
    cbn [fst snd] in Hmi, Hclk, Hge, Hsp.
    specialize (IH lim1 clock1 (eq_trans Hmi Hd)). cbv zeta in IH.
    destruct (waits es (lim1, clock1)) as [rs [lim2 clock2]] eqn:Hws.
    cbn [fst snd head] in *. destruct IH as (IHsp & IHhd & IHtot).
    rewrite Hd in Hsp. subst clock1.
    split; [| split].
    + destruct rs as [| r2 rs']; [exact I |].
      split; [| exact IHsp]. destruct (IHhd r2 eq_refl) as [Hr2 _]. exact Hr2.
    + intros r1 [= <-]. split; assumption.
    + intros _. destruct es as [| e' es'].
      * cbn [waits] in Hws. injection Hws as <- <- <-.
        change (inject_Z (Z.of_nat (length [e]))) with 1. split; lra.
      * destruct IHtot as [Ht1 Ht2]; [discriminate |].
        set (n := length (e' :: es')) in *.
        replace (Z.of_nat (length (e :: e' :: es'))) with (Z.of_nat n + 1)%Z
          by (subst n; cbn [length]; lia).
        rewrite inject_Z_plus. change (inject_Z 1) with 1.
        set (x := inject_Z (Z.of_nat n)) in *.
        split; nra.
Qed.

(** C9. On a limiter built for a rate [rps > 0], [N >= 1] consecutive
    [wait()] calls release at stamps at least [1/rps] apart, and the clock
    advances by at least [(N-1)/rps] between the first call and the last
    release. Time is exact, and the clock and [asyncio.sleep] behave as
    [lag_ok] says: time does not run backwards and a sleep lasts at least
    its argument. *)
Theorem C9_rate_limiter_spacing (rps : Q) (es : list lag) (clock : Q) :
  0 < rps -> (1 <= length es)%nat -> Forall lag_ok es ->
  exists lim,
    init rps = Some lim /\
    let r := waits es (lim, clock) in
    length (fst r) = length es /\
    spaced (1 / rps) (fst r) /\
    inject_Z (Z.of_nat (length es) - 1) / rps <= snd (snd r) - clock.
Proof.
  intros Hrps Hlen Hes. unfold init.
  destruct (Qle_bool rps 0) eqn:Hle.
  - apply Qle_bool_iff in Hle. lra.
  - eexists. split; [reflexivity |].
    pose proof (waits_spaced (1 / rps) es Hes
                  {| min_interval := 1 / rps; last_ts := 0 |} clock eq_refl) as Hw.
    simpl in Hw. destruct Hw as (Hsp & _ & Htot).
    split; [apply waits_length |]. split; [exact Hsp |].
    destruct Htot as [_ Ht]; [destruct es; [simpl in Hlen; lia | discriminate] |].
    unfold Zminus. rewrite inject_Z_plus. change (inject_Z (- (1))) with (- (1)).
    unfold Qdiv in *. set (d := / rps) in *.
    set (x := inject_Z (Z.of_nat (length es))) in *.
    set (c := snd (snd _)) in *. nra.
Qed.

Lemma C9_rate_limiter_spacing_witness :
  exists lim,
    init 2 = Some lim /\
    let r := waits [mk_lag 0 0 0; mk_lag (1 # 10) 0 0; mk_lag 1 0 (1 # 100)] (lim, 5) in
    length (fst r) = 3%nat /\
    spaced (1 / 2) (fst r) /\
    inject_Z (Z.of_nat 3 - 1) / 2 <= snd (snd r) - 5.
Proof.
  apply (C9_rate_limiter_spacing 2
           [mk_lag 0 0 0; mk_lag (1 # 10) 0 0; mk_lag 1 0 (1 # 100)] 5).
  - reflexivity.
  - simpl. lia.
  - repeat constructor; unfold Qle; simpl; lia.
Defined.

End RateLimiterFacts.

(** ** Durable store *)

Section StoreFacts.

Context {R : Type}.
Implicit Types (table : gmap string R) (id : string) (row : R).

Lemma insert_or_ignore_taken table id row :
  is_Some (table !! id) -> insert_or_ignore id row table = table.
Proof. intros [r Hr]. unfold insert_or_ignore. rewrite Hr. reflexivity. Qed.

Lemma insert_or_ignore_free table id row :
  table !! id = None -> insert_or_ignore id row table = <[id := row]> table.
Proof. intros Hr. unfold insert_or_ignore. rewrite Hr. reflexivity. Qed.

Lemma insert_or_ignore_bound table id row :
  is_Some (insert_or_ignore id row table !! id).
Proof.
  unfold insert_or_ignore. destruct (table !! id) as [r |] eqn:Hr.
  - rewrite Hr. eauto.
  - rewrite lookup_insert_eq. eauto.
Qed.

Lemma insert_or_ignore_twice table id row row' :
  insert_or_ignore id row' (insert_or_ignore id row table)
  = insert_or_ignore id row table.
Proof. apply insert_or_ignore_taken, insert_or_ignore_bound. Qed.

(** Rows are never overwritten or removed. *)
Lemma insert_or_ignore_keeps table id row id' r :
  table !! id' = Some r -> insert_or_ignore id row table !! id' = Some r.
Proof.
  intros Hr. unfold insert_or_ignore.
  destruct (table !! id) as [r0 |] eqn:Hid; [exact Hr |].
  rewrite lookup_insert_ne; [exact Hr | congruence].
Qed.

Lemma insert_or_ignore_first table id row :
  table !! id = None -> insert_or_ignore id row table !! id = Some row.
Proof.
  intros Hr. rewrite insert_or_ignore_free by exact Hr. apply lookup_insert_eq.
Qed.

Lemma insert_or_ignore_size table id row :
  table !! id = None -> size (insert_or_ignore id row table) = S (size table).
Proof.
  intros Hr. rewrite insert_or_ignore_free by exact Hr.
  apply map_size_insert_None, Hr.
Qed.

Lemma fresh_ids_tail table id row ids :
  fresh_ids table (id :: ids) -> fresh_ids (insert_or_ignore id row table) ids.
Proof.
  intros [Hnd Hfree]. apply NoDup_cons in Hnd as [Hnotin Hnd].
  apply Forall_cons in Hfree as [Hid Hfree].
  split; [exact Hnd |].
  apply Forall_forall. intros id' Hin.
  rewrite insert_or_ignore_free by exact Hid.
  rewrite lookup_insert_ne.
  - rewrite Forall_forall in Hfree. apply Hfree, Hin.
  - intros ->. apply Hnotin, Hin.
Qed.

End StoreFacts.


Lemma replay_logs_keeps (l : list (string * request_row)) :
  forall (table : gmap string request_row) id r,
  table !! id = Some r -> replay_logs table l !! id = Some r.
Proof.
  induction l as [| [id0 row] l IH]; intros table id r Hr; simpl.
  - exact Hr.
  - unfold replay_logs in *. simpl. apply IH, insert_or_ignore_keeps, Hr.
Qed.

Lemma replay_logs_app (l1 l2 : list (string * request_row))
    (table : gmap string request_row) :
  replay_logs table (l1 ++ l2) = replay_logs (replay_logs table l1) l2.
Proof. unfold replay_logs. apply foldl_app. Qed.

(** C3. Both insertions are idempotent by identity. When the clock hands
    the second call the timestamp of the first, inserting the same outcome,
    or the same event, twice leaves the table as the first insertion left
    it, with one row under the identity (from an empty table: one row in
    all); and an insertion whose identity is already bound returns with the
    table unchanged. *)
Theorem C3_idempotent_insert (E : Env) (st : state) (endpoint_name url : string)
    (status_code : option Z) (elapsed_ms attempt : Z) (error : option string)
    (payload : json) :
  utc_now_iso E (S (clock_reads st)) = utc_now_iso E (clock_reads st) ->
  let ts := utc_now_iso E (clock_reads st) in
  let key := sha256_hex E (request_key ts endpoint_name url attempt status_code error) in
  let ekey := sha256_hex E (event_key E endpoint_name url ts (json_dumps E payload)) in
  let st1 := log_request E endpoint_name url status_code elapsed_ms attempt error st in
  let st2 := log_request E endpoint_name url status_code elapsed_ms attempt error st1 in
  let sp1 := store_payload E endpoint_name url payload st in
  let sp2 := store_payload E endpoint_name url payload sp1 in
  (request_log st2 = request_log st1 /\
   is_Some (request_log st2 !! key) /\
   (request_log st = ∅ -> size (request_log st2) = 1%nat)) /\
  (raw_events sp2 = raw_events sp1 /\
   is_Some (raw_events sp2 !! ekey) /\
   (raw_events st = ∅ -> size (raw_events sp2) = 1%nat)) /\
  (is_Some (request_log st !! key) -> request_log st1 = request_log st) /\
  (is_Some (raw_events st !! ekey) -> raw_events sp1 = raw_events st).
Proof.
  intros Hts ts key ekey st1 st2 sp1 sp2.
  assert (H2 : request_log st2 = request_log st1).
  { unfold st2, st1, log_request. cbn [request_log clock_reads].
    rewrite Hts. apply insert_or_ignore_twice. }
  assert (H1 : is_Some (request_log st1 !! key))
    by apply insert_or_ignore_bound.
  assert (P2 : raw_events sp2 = raw_events sp1).
  { unfold sp2, sp1, store_payload. cbn [raw_events clock_reads].
    rewrite Hts. apply insert_or_ignore_twice. }
  assert (P1 : is_Some (raw_events sp1 !! ekey))
    by apply insert_or_ignore_bound.
  repeat split.
  - exact H2.
  - rewrite H2. exact H1.
  - intros Hempty. rewrite H2. unfold st1, log_request. cbn [request_log].
    rewrite Hempty, insert_or_ignore_size by apply lookup_empty.
    rewrite map_size_empty. reflexivity.
  - exact P2.
  - rewrite P2. exact P1.
  - intros Hempty. rewrite P2. unfold sp1, store_payload. cbn [raw_events].
    rewrite Hempty, insert_or_ignore_size by apply lookup_empty.
    rewrite map_size_empty. reflexivity.
  - intros Hb. apply insert_or_ignore_taken, Hb.
  - intros Hb. apply insert_or_ignore_taken, Hb.
Qed.

(** C10. Two [log_request] calls that read the same timestamp and agree on
    endpoint name, URL, attempt, status code and error bind the same
    identity whatever their elapsed times; the second call leaves the table
    unchanged, and a row the first call inserted keeps the first elapsed
    time. *)
Theorem C10_elapsed_not_in_key (E : Env) (st : state) (endpoint_name url : string)
    (status_code : option Z) (elapsed1 elapsed2 attempt : Z) (error : option string) :
  utc_now_iso E (S (clock_reads st)) = utc_now_iso E (clock_reads st) ->
  elapsed1 <> elapsed2 ->
  let ts := utc_now_iso E (clock_reads st) in
  let key := sha256_hex E (request_key ts endpoint_name url attempt status_code error) in
  request_log st !! key = None ->
  let st1 := log_request E endpoint_name url status_code elapsed1 attempt error st in
  let st2 := log_request E endpoint_name url status_code elapsed2 attempt error st1 in
  log_ids (new_events st st2) = [key; key] /\
  request_log st2 = request_log st1 /\
  size (request_log st2) = S (size (request_log st)) /\
  rq_elapsed_ms <$> request_log st2 !! key = Some elapsed1.
Proof.
  intros Hts Hne ts key Hfree st1 st2.
  assert (H2 : request_log st2 = request_log st1).
  { unfold st2, st1, log_request. cbn [request_log clock_reads].
    rewrite Hts. apply insert_or_ignore_twice. }
  repeat split.
  - unfold new_events, st2, st1, log_request. cbn [trace clock_reads].
    rewrite Hts, <- app_assoc, drop_app_length. reflexivity.
  - exact H2.
  - rewrite H2. apply insert_or_ignore_size, Hfree.
  - rewrite H2. unfold st1, log_request. cbn [request_log].
    fold ts. fold key. rewrite insert_or_ignore_first by exact Hfree.
    reflexivity.
Qed.

(** ** Histories *)

Section HistoryFacts.

Lemma logged_app (tr1 tr2 : list event) :
  logged (tr1 ++ tr2) = (logged tr1 ++ logged tr2)%list.
Proof. unfold logged. apply omap_app. Qed.

Lemma stored_app (tr1 tr2 : list event) :
  stored (tr1 ++ tr2) = (stored tr1 ++ stored tr2)%list.
Proof. unfold stored. apply omap_app. Qed.

Lemma gets_app (tr1 tr2 : list event) :
  gets (tr1 ++ tr2) = (gets tr1 ++ gets tr2)%list.
Proof. unfold gets. apply omap_app. Qed.

Lemma sleeps_app (tr1 tr2 : list event) :
  sleeps (tr1 ++ tr2) = (sleeps tr1 ++ sleeps tr2)%list.
Proof. unfold sleeps. apply omap_app. Qed.

Lemma new_events_app (st st' : state) (tr : list event) :
  trace st' = (trace st ++ tr)%list -> new_events st st' = tr.
Proof. intros H. unfold new_events. rewrite H. apply drop_app_length. Qed.

Lemma new_events_refl (st : state) : new_events st st = [].
Proof. unfold new_events. apply drop_all. Qed.





End HistoryFacts.

Section LogsOnly.

Context (E : Env) (endpoint_name url : string).

Local Abbreviation grows := (logs_only E endpoint_name url).

Lemma logs_only_refl (st : state) : grows st [] st.
Proof.
  unfold logs_only. rewrite app_nil_r, Nat.add_0_r.
  repeat split; constructor.
Qed.

Lemma logs_only_emit (e : event) (st : state) :
  logged [e] = [] -> stored [e] = [] -> grows st [e] (emit e st).
Proof.
  intros Hl Hs. unfold logs_only, emit. cbn [trace request_log raw_events clock_reads].
  rewrite Hl, Hs, Nat.add_0_r. repeat split; constructor.
Qed.

Lemma logs_only_log (st : state) (status : option Z) (elapsed attempt : Z)
    (err : option string) :
  let p := row_at E endpoint_name url (clock_reads st) status elapsed attempt err in
  grows st [ELog (fst p) (snd p)]
    (log_request E endpoint_name url status elapsed attempt err st).
Proof.
  intros p. unfold logs_only, log_request.
  cbn [trace request_log raw_events clock_reads].
  change (logged [ELog (fst p) (snd p)]) with [(fst p, snd p)].
  change (stored [ELog (fst p) (snd p)]) with (@nil (string * event_row)).
  split; [reflexivity |]. split; [reflexivity |]. split; [reflexivity |].
  split; [cbn [length]; lia |]. split; [reflexivity |].
  constructor; [| constructor].
  exists (clock_reads st), status, elapsed, attempt, err. reflexivity.
Qed.

Lemma logs_only_trans (st st1 st2 : state) (tr1 tr2 : list event) :
  grows st tr1 st1 -> grows st1 tr2 st2 -> grows st (tr1 ++ tr2) st2.
Proof.
  intros (Ht1 & Hr1 & He1 & Hc1 & Hs1 & Hf1) (Ht2 & Hr2 & He2 & Hc2 & Hs2 & Hf2).
  unfold logs_only.
  rewrite logged_app, stored_app, length_app, replay_logs_app, Hs1, Hs2.
  split; [rewrite Ht2, Ht1, <- app_assoc; reflexivity |].
  split; [rewrite Hr2, Hr1; reflexivity |].
  split; [congruence |]. split; [lia |]. split; [reflexivity |].
  apply Forall_app. split; assumption.
Qed.

Lemma logs_only_new_events (st st' : state) (tr : list event) :
  grows st tr st' -> new_events st st' = tr.
Proof. intros (Ht & _). apply new_events_app, Ht. Qed.

End LogsOnly.

(** ** One attempt *)

Section SingleAttempt.

Context (E : Env) (cfg : CollectorConfig) (w : world) (endpoint_name url : string).

Local Abbreviation loop := (fetch_loop E cfg w endpoint_name url).
Local Abbreviation grows := (logs_only E endpoint_name url).
Local Abbreviation row_at := (row_at E endpoint_name url).

(** The state after the wait, the GET and the [log_request] of one attempt. *)
Local Abbreviation attempted st status elapsed attempt err :=
  (log_request E endpoint_name url status elapsed attempt err
     (emit (EGet url) (emit EWait st))).

Lemma attempted_grows (st : state) status elapsed a err :
  let p := row_at (clock_reads st) status elapsed a err in
  grows st [EWait; EGet url; ELog (fst p) (snd p)] (attempted st status elapsed a err).
Proof.
  intros p.
  apply (logs_only_trans E endpoint_name url st (emit EWait st) _ [EWait]);
    [apply logs_only_emit; reflexivity |].
  apply (logs_only_trans E endpoint_name url _ (emit (EGet url) (emit EWait st)) _
           [EGet url]); [apply logs_only_emit; reflexivity |].
  apply (logs_only_log E endpoint_name url (emit (EGet url) (emit EWait st))).
Qed.

Lemma classify_retryable (g : get_result) :
  classify g = RetryableFailure <-> retryable g = true.
Proof. unfold retryable. destruct (classify g); split; congruence. Qed.

Lemma not_retryable (g : get_result) :
  classify g <> RetryableFailure <-> retryable g = false.
Proof.
  unfold retryable. destruct (classify g); split; congruence.
Qed.

(** The backoff of an attempt is computed up to attempt 1024, and only
    there. *)
Lemma backoff_of_none (a : Z) : backoff_of cfg w a = None <-> 1025 <= a.
Proof. unfold backoff_of. apply compute_backoff_none. Qed.

Lemma backoff_of_some (a : Z) : a <= 1024 -> exists q, backoff_of cfg w a = Some q.
Proof.
  intros Ha. destruct (backoff_of cfg w a) as [q |] eqn:Hq; [eauto |].
  apply backoff_of_none in Hq. lia.
Qed.

Lemma goes_on_spec (a : Z) :
  goes_on cfg w a = true <-> retryable (response w a) = true /\ a <= 1024.
Proof.
  unfold goes_on. rewrite andb_true_iff. split; intros [Hr Hb]; (split; [exact Hr |]).
  - destruct (backoff_of cfg w a) eqn:Hq; [| discriminate].
    destruct (Z_le_gt_dec a 1024) as [H | H]; [exact H |].
    assert (Hn : backoff_of cfg w a = None) by (apply backoff_of_none; lia).
    congruence.
  - destruct (backoff_of_some a Hb) as [q ->]. reflexivity.
Qed.

(** An iteration is a run of one attempt; the loop goes on after it when
    the attempt was a retryable failure whose backoff was computed. *)
Lemma fetch_loop_S (r : nat) (a : Z) (st : state) :
  loop (S r) a st
  = if goes_on cfg w a then loop r (a + 1) (snd (loop 1 a st)) else loop 1 a st.
Proof.
  unfold goes_on, retryable, classify. cbn [fetch_loop].
  destruct (response w a) as [s b el | exc el | exc msg el].
  - destruct ((s =? 401) || (s =? 403)); [reflexivity |].
    destruct ((s =? 429) || ((500 <=? s) && (s <=? 599))).
    + destruct (backoff_of cfg w a); reflexivity.
    + destruct (negb (is_success s)); [reflexivity |].
      destruct b; reflexivity.
  - destruct (backoff_of cfg w a); reflexivity.
  - reflexivity.
Qed.

Lemma fetch_loop_O (a : Z) (st : state) : loop 0 a st = (Ok None, st).
Proof. reflexivity. Qed.

(** The error text of the second row of an attempt whose backoff overflowed. *)
Local Abbreviation overflow_error :=
  (unexpected_error "OverflowError" Backoff.overflow_message).

(** What one attempt does: it logs one row and returns; or it logs one
    row, sleeps and lets the loop go on; or, its backoff overflowing, it
    logs a second row and returns (after a 429 or 5xx) or raises (after a
    timeout or network error). *)
Lemma single_attempt (a : Z) (st : state) :
  exists status elapsed err,
    (retryable (response w a) = false /\
     exists res, loop 1 a st = (res, attempted st status elapsed a err))
    \/
    (retryable (response w a) = true /\
     exists q, backoff_of cfg w a = Some q /\
       loop 1 a st = (Ok None, emit (ESleep q) (attempted st status elapsed a err)))
    \/
    (retryable (response w a) = true /\ backoff_of cfg w a = None /\
     exists code b el, response w a = Responded code b el /\ status = Some code /\
       loop 1 a st
       = (Ok None,
          log_request E endpoint_name url (Some code) (late_elapsed_ms w a) a
            (Some overflow_error) (attempted st status elapsed a err)))
    \/
    (retryable (response w a) = true /\ backoff_of cfg w a = None /\
     (exists kind el, response w a = RaisedNetwork kind el) /\
     loop 1 a st = (Raised OverflowError, attempted st status elapsed a err)).
Proof.
  unfold retryable, classify. cbn [fetch_loop].
  destruct (response w a) as [s b el | exc el | exc msg el].
  - destruct ((s =? 401) || (s =? 403)).
    { do 3 eexists. left. split; [reflexivity | eexists; reflexivity]. }
    destruct ((s =? 429) || ((500 <=? s) && (s <=? 599))).
    + destruct (backoff_of cfg w a) as [q |].
      * do 3 eexists. right. left. split; [reflexivity |].
        exists q. split; reflexivity.
      * do 3 eexists. right. right. left. split; [reflexivity |].
        split; [reflexivity |]. exists s, b, el. repeat split.
    + destruct (negb (is_success s)).
      { do 3 eexists. left. split; [reflexivity | eexists; reflexivity]. }
      destruct b.
      * do 3 eexists. left. split; [reflexivity | eexists; reflexivity].
      * do 3 eexists. left. split; [reflexivity | eexists; reflexivity].
  - destruct (backoff_of cfg w a) as [q |].
    + do 3 eexists. right. left. split; [reflexivity |].
      exists q. split; reflexivity.
    + do 3 eexists. right. right. right. split; [reflexivity |].
      split; [reflexivity |]. split; [eauto | reflexivity].
  - do 3 eexists. left. split; [reflexivity | eexists; reflexivity].
Qed.

End SingleAttempt.

(** ** The history of a run of the attempt loop *)

Section History.

Context (E : Env) (cfg : CollectorConfig) (w : world) (endpoint_name url : string).

Local Abbreviation loop := (fetch_loop E cfg w endpoint_name url).
Local Abbreviation grows := (logs_only E endpoint_name url).
Local Abbreviation row_at := (row_at E endpoint_name url).
Local Abbreviation hist r a st := (new_events st (snd (loop r a st))).
Local Abbreviation attempted st status elapsed attempt err :=
  (log_request E endpoint_name url status elapsed attempt err
     (emit (EGet url) (emit EWait st))).
Local Abbreviation overflow_error :=
  (unexpected_error "OverflowError" Backoff.overflow_message).

(** The events of one attempt. *)
Lemma single_grows (a : Z) (st : state) :
  exists status elapsed err (tail : list event),
    let p := row_at (clock_reads st) status elapsed a err in
    grows st ([EWait; EGet url; ELog (fst p) (snd p)] ++ tail) (snd (loop 1 a st)) /\
    ((retryable (response w a) = false /\ tail = [])
     \/ (retryable (response w a) = true /\
         exists q, backoff_of cfg w a = Some q /\ tail = [ESleep q])
     \/ (retryable (response w a) = true /\ backoff_of cfg w a = None /\
         exists code b el,
           response w a = Responded code b el /\
           status = Some code /\ elapsed = el /\
           err = Some ("retryable_status:" ++ str_int code) /\
           let p2 := row_at (S (clock_reads st)) (Some code) (late_elapsed_ms w a) a
                       (Some overflow_error) in
           tail = [ELog (fst p2) (snd p2)])
     \/ (retryable (response w a) = true /\ backoff_of cfg w a = None /\
         (exists kind el, response w a = RaisedNetwork kind el) /\ tail = [])).
Proof.
  pose proof (fun status elapsed err => attempted_grows E endpoint_name url st status
                                          elapsed a err) as Hatt.
  unfold retryable, classify. cbn [fetch_loop].
  destruct (response w a) as [s b el | exc el | exc msg el].
  - destruct ((s =? 401) || (s =? 403)).
    { do 3 eexists. exists []. cbv zeta. rewrite app_nil_r.
      split; [apply Hatt | left; split; reflexivity]. }
    destruct ((s =? 429) || ((500 <=? s) && (s <=? 599))).
    + destruct (backoff_of cfg w a) as [q |].
      * do 3 eexists. exists [ESleep q]. cbv zeta. split.
        { eapply logs_only_trans; [apply Hatt |].
          apply logs_only_emit; reflexivity. }
        right. left. split; [reflexivity |]. exists q. split; reflexivity.
      * do 3 eexists. eexists. cbv zeta. split.
        { eapply logs_only_trans; [apply Hatt |].
          apply (logs_only_log E endpoint_name url
                   (attempted st (Some s) el a
                      (Some ("retryable_status:" ++ str_int s)))). }
        right. right. left. split; [reflexivity |]. split; [reflexivity |].
        exists s, b, el. repeat split.
    + destruct (negb (is_success s)).
      { do 3 eexists. exists []. cbv zeta. rewrite app_nil_r.
        split; [apply Hatt | left; split; reflexivity]. }
      destruct b.
      * do 3 eexists. exists []. cbv zeta. rewrite app_nil_r.
        split; [apply Hatt | left; split; reflexivity].
      * do 3 eexists. exists []. cbv zeta. rewrite app_nil_r.
        split; [apply Hatt | left; split; reflexivity].
  - destruct (backoff_of cfg w a) as [q |].
    + do 3 eexists. exists [ESleep q]. cbv zeta. split.
      { eapply logs_only_trans; [apply Hatt |].
        apply logs_only_emit; reflexivity. }
      right. left. split; [reflexivity |]. exists q. split; reflexivity.
    + do 3 eexists. exists []. cbv zeta. rewrite app_nil_r.
      split; [apply Hatt |].
      right. right. right. split; [reflexivity |]. split; [reflexivity |].
      split; [eauto | reflexivity].
  - do 3 eexists. exists []. cbv zeta. rewrite app_nil_r.
    split; [apply Hatt | left; split; reflexivity].
Qed.

Lemma loop_grows (r : nat) : forall (a : Z) (st : state),
  grows st (hist r a st) (snd (loop r a st)).
Proof.
  induction r as [| r IH]; intros a st.
  - cbn [fetch_loop snd]. rewrite new_events_refl. apply logs_only_refl.
  - destruct (single_grows a st) as (status & elapsed & err & tail & Hg & _).
    cbv zeta in Hg.
    rewrite fetch_loop_S. destruct (goes_on cfg w a).
    + pose proof (logs_only_trans E endpoint_name url _ _ _ _ _ Hg
                    (IH (a + 1) (snd (loop 1 a st)))) as Hall.
      rewrite (logs_only_new_events E endpoint_name url _ _ _ Hall). exact Hall.
    + rewrite (logs_only_new_events E endpoint_name url _ _ _ Hg). exact Hg.
Qed.

Lemma hist_O (a : Z) (st : state) : hist 0 a st = [].
Proof. cbn [fetch_loop snd]. apply new_events_refl. Qed.

Lemma hist_S (r : nat) (a : Z) (st : state) :
  hist (S r) a st
  = if goes_on cfg w a
    then (hist 1 a st ++ hist r (a + 1) (snd (loop 1 a st)))%list
    else hist 1 a st.
Proof.
  rewrite fetch_loop_S. destruct (goes_on cfg w a); [| reflexivity].
  apply (logs_only_new_events E endpoint_name url).
  eapply logs_only_trans; apply loop_grows.
Qed.

(** The history of one attempt. *)
Lemma hist_1 (a : Z) (st : state) :
  exists status elapsed err (tail : list event),
    let p := row_at (clock_reads st) status elapsed a err in
    hist 1 a st = ([EWait; EGet url; ELog (fst p) (snd p)] ++ tail)%list /\
    ((retryable (response w a) = false /\ tail = [])
     \/ (retryable (response w a) = true /\
         exists q, backoff_of cfg w a = Some q /\ tail = [ESleep q])
     \/ (retryable (response w a) = true /\ backoff_of cfg w a = None /\
         exists code b el,
           response w a = Responded code b el /\
           status = Some code /\ elapsed = el /\
           err = Some ("retryable_status:" ++ str_int code) /\
           let p2 := row_at (S (clock_reads st)) (Some code) (late_elapsed_ms w a) a
                       (Some overflow_error) in
           tail = [ELog (fst p2) (snd p2)])
     \/ (retryable (response w a) = true /\ backoff_of cfg w a = None /\
         (exists kind el, response w a = RaisedNetwork kind el) /\ tail = [])).
Proof.
  destruct (single_grows a st) as (status & elapsed & err & tail & Hg & Hcases).
  exists status, elapsed, err, tail. cbv zeta in *.
  split; [apply (logs_only_new_events E endpoint_name url), Hg | exact Hcases].
Qed.

Lemma retry_overflow_errors_differ (code : Z) :
  "retryable_status:" ++ str_int code <> overflow_error.
Proof.
  intros H.
  apply (f_equal (fun s => match s with String c _ => c | EmptyString => "a"%char end))
    in H.
  vm_compute in H. discriminate.
Qed.

(** What the history of one attempt consists of. *)
Lemma block_facts (a : Z) (st : state) :
  let b := hist 1 a st in
  gets b = [url] /\ iterations b = [b] /\ fst (fold_right cut ([], []) b) = [] /\
  Forall (fun p => rq_attempt (snd p) = a) (logged b) /\
  NoDup (map attempt_and_error (logged b)) /\
  sleeps b = match (if retryable (response w a) then backoff_of cfg w a else None) with
             | Some q => [q]
             | None => []
             end /\
  (1 <= length (logged b) <= 2)%nat /\
  (retryable (response w a) = false \/ a <= 1024 -> one_attempt url a b) /\
  (exists p, head (logged b) = Some p).
Proof.
  intros b. unfold b.
  destruct (hist_1 a st) as (status & elapsed & err & tail & Hb & Hcases).
  cbv zeta in Hb. rewrite Hb.
  set (p := row_at (clock_reads st) status elapsed a err) in *.
  destruct Hcases as [[Hr ->] | [(Hr & q & Hq & ->) | [(Hr & Hq & code & bd & el & Hresp
                        & -> & -> & -> & Htail) | (Hr & Hq & _ & ->)]]];
    rewrite Hr, ?Hq.
  - cbn. repeat split; try (repeat constructor; fail); try lia.
    + constructor; [apply not_elem_of_nil | constructor].
    + intros _. exists (fst p), (snd p). split; [reflexivity | left; reflexivity].
    + eauto.
  - cbn. repeat split; try (repeat constructor; fail); try lia.
    + constructor; [apply not_elem_of_nil | constructor].
    + intros _. exists (fst p), (snd p). split; [reflexivity | right; eauto].
    + eauto.
  - cbv zeta in Htail. rewrite Htail. cbn. repeat split; try (repeat constructor; fail);
      try lia.
    + constructor; [| constructor; [apply not_elem_of_nil | constructor]].
      intros Hin. apply list_elem_of_singleton in Hin.
      apply (f_equal snd) in Hin.
      exact (retry_overflow_errors_differ code Hin).
    + intros [Hf | Ha]; [discriminate |].
      apply backoff_of_none in Hq. lia.
    + eauto.
  - cbn. repeat split; try (repeat constructor; fail); try lia.
    + constructor; [apply not_elem_of_nil | constructor].
    + intros [Hf | Ha]; [discriminate |].
      apply backoff_of_none in Hq. lia.
    + eauto.
Qed.

Lemma block_going_on (a : Z) (st : state) :
  goes_on cfg w a = true ->
  exists status elapsed err q,
    let p := row_at (clock_reads st) status elapsed a err in
    hist 1 a st = [EWait; EGet url; ELog (fst p) (snd p); ESleep q] /\
    backoff_of cfg w a = Some q.
Proof.
  intros Hg. apply goes_on_spec in Hg as [Hr Ha].
  destruct (hist_1 a st) as (status & elapsed & err & tail & Hb & Hcases).
  cbv zeta in Hb.
  destruct Hcases as [[Hf _] | [(_ & q & Hq & ->) | [(_ & Hq & _) | (_ & Hq & _)]]].
  - congruence.
  - exists status, elapsed, err, q. split; [exact Hb | exact Hq].
  - apply backoff_of_none in Hq. lia.
  - apply backoff_of_none in Hq. lia.
Qed.

(** The attempts a run makes: [k] of them, each but the last going on; the
    run ends as the run of its last attempt alone does. *)
Lemma loop_attempts (r : nat) : forall (a : Z) (st : state),
  exists k : nat,
    gets (hist r a st) = replicate k url /\
    (k <= r)%nat /\ (r <> 0%nat -> k <> 0%nat) /\
    (forall j, a <= j < a + Z.of_nat k - 1 -> goes_on cfg w j = true) /\
    (k <> 0%nat -> goes_on cfg w (a + Z.of_nat k - 1) = false \/ k = r) /\
    (k = 0%nat -> loop r a st = (Ok None, st)) /\
    (k <> 0%nat ->
     exists s tr0,
       grows st tr0 s /\ gets tr0 = replicate (k - 1) url /\
       length (logged tr0) = (k - 1)%nat /\
       loop r a st = loop 1 (a + Z.of_nat k - 1) s /\
       hist r a st = (tr0 ++ hist 1 (a + Z.of_nat k - 1) s)%list).
Proof.
  induction r as [| r IH]; intros a st.
  - exists 0%nat. rewrite hist_O. cbn [fetch_loop].
    repeat split; try reflexivity; try lia; try congruence.
  - destruct (block_facts a st) as (Hgets & _).
    rewrite hist_S. destruct (goes_on cfg w a) eqn:Hg.
    + destruct (block_going_on a st Hg) as (status & elapsed & err & q & Hb & Hq).
      cbv zeta in Hb.
      destruct (IH (a + 1) (snd (loop 1 a st))) as (k & Hk & Hle & Hnz & Hpre & Hend & Hzero & Hlast).
      exists (S k). rewrite gets_app, Hgets, Hk.
      split; [reflexivity |]. split; [lia |]. split; [discriminate |].
      split.
      { intros j Hj. destruct (Z.eq_dec j a) as [-> | Hne]; [exact Hg |].
        apply Hpre. lia. }
      split.
      { intros _. destruct k as [| k'].
        - right. destruct r; [reflexivity |].
          exfalso. apply Hnz; [discriminate | reflexivity].
        - destruct Hend as [Hend | Hend]; [discriminate | |].
          + left. replace (a + Z.of_nat (S (S k')) - 1)
              with (a + 1 + Z.of_nat (S k') - 1) by lia. exact Hend.
          + right. congruence. }
      split; [discriminate |].
      intros _. rewrite fetch_loop_S, Hg.
      destruct k as [| k'].
      * destruct r as [| r'];
          [| exfalso; apply Hnz; [discriminate | reflexivity]].
        exists st, []. split; [apply logs_only_refl |].
        split; [reflexivity |]. split; [reflexivity |].
        replace (a + Z.of_nat 1 - 1) with a by lia.
        split.
        { symmetry. etransitivity; [apply fetch_loop_S |]. rewrite Hg. reflexivity. }
        rewrite (hist_O (a + 1) (snd (loop 1 a st))), app_nil_r. reflexivity.
      * destruct Hlast as (s & tr0 & Hgr & Hg0 & Hl0 & Hloop & Hhist); [discriminate |].
        exists s, (hist 1 a st ++ tr0)%list.
        split; [eapply logs_only_trans; [apply loop_grows | exact Hgr] |].
        split; [rewrite gets_app, Hgets, Hg0; cbn; rewrite Nat.sub_0_r; reflexivity |].
        split.
        { rewrite logged_app, length_app, Hl0, Hb. cbn. lia. }
        replace (a + Z.of_nat (S (S k')) - 1) with (a + 1 + Z.of_nat (S k') - 1) by lia.
        split; [exact Hloop |].
        rewrite Hhist, app_assoc. reflexivity.
    + exists 1%nat. rewrite Hgets.
      replace (a + Z.of_nat 1 - 1) with a by lia.
      split; [reflexivity |]. split; [lia |]. split; [discriminate |].
      split; [intros j Hj; lia |].
      split; [intros _; left; exact Hg |].
      split; [discriminate |].
      intros _. exists st, []. split; [apply logs_only_refl |].
      split; [reflexivity |]. split; [reflexivity |].
      split; [rewrite fetch_loop_S, Hg; reflexivity | reflexivity].
Qed.

(** The sleeps of a run: after each retryable attempt whose backoff was
    computed, for that backoff. *)
Lemma loop_sleeps (r : nat) : forall (a : Z) (st : state),
  sleeps (hist r a st)
  = omap (fun j => if retryable (response w j) then backoff_of cfg w j else None)
      (attempts_from a (length (gets (hist r a st)))).
Proof.
  induction r as [| r IH]; intros a st.
  - rewrite hist_O. reflexivity.
  - destruct (block_facts a st) as (Hgets & _ & _ & _ & _ & Hsl & _).
    rewrite hist_S. destruct (goes_on cfg w a).
    + rewrite sleeps_app, gets_app, length_app, Hgets, Hsl, IH.
      cbn [length Nat.add attempts_from omap list_omap].
      destruct (if retryable (response w a) then backoff_of cfg w a else None);
        reflexivity.
    + rewrite Hgets, Hsl. cbn [length attempts_from omap list_omap].
      destruct (if retryable (response w a) then backoff_of cfg w a else None);
        reflexivity.
Qed.


Lemma attempts_from_range (k : nat) : forall (a x : Z),
  x ∈ attempts_from a k -> a <= x < a + Z.of_nat k.
Proof.
  induction k as [| k IH]; intros a x Hx; cbn [attempts_from] in Hx.
  - inversion Hx.
  - apply elem_of_cons in Hx as [-> | Hx]; [lia |].
    apply IH in Hx. lia.
Qed.

Lemma attempts_from_NoDup (k : nat) : forall a : Z, NoDup (attempts_from a k).
Proof.
  induction k as [| k IH]; intros a; cbn [attempts_from]; constructor.
  - intros Hin. apply attempts_from_range in Hin. lia.
  - apply IH.
Qed.

Lemma attempts_from_length (k : nat) : forall a : Z, length (attempts_from a k) = k.
Proof. induction k as [| k IH]; intros a; cbn; [reflexivity | rewrite IH; reflexivity]. Qed.

Lemma attempts_from_lookup (k : nat) : forall (a : Z) (i : nat),
  (i < k)%nat -> attempts_from a k !! i = Some (a + Z.of_nat i).
Proof.
  induction k as [| k IH]; intros a i Hi; [lia |].
  destruct i as [| i]; cbn [attempts_from].
  - cbn. f_equal. lia.
  - change ((a :: attempts_from (a + 1) k) !! S i) with (attempts_from (a + 1) k !! i).
    rewrite IH by lia. f_equal. lia.
Qed.

Lemma attempts_from_app (n m : nat) : forall a : Z,
  attempts_from a (n + m) = (attempts_from a n ++ attempts_from (a + Z.of_nat n) m)%list.
Proof.
  induction n as [| n IH]; intros a.
  - cbn [attempts_from Nat.add app]. rewrite Z.add_0_r. reflexivity.
  - cbn [Nat.add attempts_from app]. rewrite IH. do 3 f_equal. lia.
Qed.

(** The rows of a run: those of attempt [j] carry [j]; no two of them agree
    on attempt and error; every attempt has one row, in order, and the last
    attempt may have a second one. *)
Lemma loop_rows (r : nat) : forall (a : Z) (st : state),
  let h := hist r a st in
  let k := length (gets h) in
  Forall (fun p => a <= rq_attempt (snd p) < a + Z.of_nat k) (logged h) /\
  NoDup (map attempt_and_error (logged h)) /\
  Forall2 (fun j p => exists s, head (logged (hist 1 j s)) = Some p)
    (attempts_from a k) (take k (logged h)) /\
  (k <= length (logged h) <= S k)%nat /\
  (a + Z.of_nat k - 1 <= 1024 -> length (logged h) = k).
Proof.
  induction r as [| r IH]; intros a st; cbv zeta.
  - rewrite hist_O. cbn. repeat split; try constructor; lia.
  - destruct (block_facts a st)
      as (Hgets & _ & _ & Hatt & Hnd & _ & Hlen & _ & (p0 & Hhead)).
    rewrite hist_S. destruct (goes_on cfg w a) eqn:Hg.
    + destruct (block_going_on a st Hg) as (status & elapsed & err & q & Hb & _).
      cbv zeta in Hb.
      destruct (IH (a + 1) (snd (loop 1 a st))) as (Hrange & Hnd' & Hrows & Hl & Hl').
      cbv zeta in Hrange, Hnd', Hrows, Hl, Hl'.
      rewrite logged_app, gets_app, length_app, Hgets.
      set (rest := hist r (a + 1) (snd (loop 1 a st))) in *.
      set (p := row_at (clock_reads st) status elapsed a err) in *.
      assert (Hlb : logged (hist 1 a st) = [p]) by (rewrite Hb; destruct p; reflexivity).
      rewrite Hlb in *. cbn [length Nat.add app].
      split.
      { constructor; [unfold p; cbn; lia |].
        eapply List.Forall_impl; [| exact Hrange]. intros x Hx. cbv beta in Hx. lia. }
      split.
      { cbn [map]. constructor; [| exact Hnd'].
        intros Hin. apply list_elem_of_In, in_map_iff in Hin as (x & Hx & Hxin).
        rewrite List.Forall_forall in Hrange. apply Hrange in Hxin.
        apply (f_equal fst) in Hx. unfold attempt_and_error, p in Hx. cbn in Hx. lia. }
      split.
      { cbn [attempts_from take]. constructor; [| exact Hrows].
        exists st. rewrite Hlb. reflexivity. }
      split; [lia |].
      intros Hk. rewrite Hl' by lia. reflexivity.
    + rewrite Hgets. cbn [length attempts_from].
      replace (a + Z.of_nat 1) with (a + 1) by lia.
      split.
      { eapply List.Forall_impl; [| exact Hatt]. intros x Hx. cbv beta in Hx. lia. }
      split; [exact Hnd |].
      split.
      { destruct (logged (hist 1 a st)) as [| p l] eqn:Hlg; [discriminate |].
        cbn [take]. rewrite take_0. constructor; [| constructor].
        exists st. rewrite Hlg. reflexivity. }
      split; [lia |].
      intros Ha.
      destruct (hist_1 a st) as (status & elapsed & err & tail & Hb & Hcases).
      cbv zeta in Hb. rewrite Hb.
      destruct Hcases as [[_ ->] | [(_ & q & _ & ->) | [(_ & Hq & _) | (_ & _ & _ & ->)]]];
        try reflexivity.
      apply backoff_of_none in Hq. lia.
Qed.

End History.

(** * Further properties of the collector *)

(** ** The identity of an outcome row *)

Section KeyFacts.

Lemma contains_app (c : ascii) (s t : string) :
  contains c (s ++ t) = contains c s || contains c t.
Proof.
  induction s as [| a s IH]; [reflexivity |].
  simpl. rewrite IH. apply orb_assoc.
Qed.

(** A string is cut in one way only at its first bar. *)
Lemma first_bar_split (s1 : string) : forall (s2 t1 t2 : string),
  contains "|" s1 = false -> contains "|" s2 = false ->
  s1 ++ String "|" t1 = s2 ++ String "|" t2 -> s1 = s2 /\ t1 = t2.
Proof.
  induction s1 as [| a s1 IH]; intros s2 t1 t2 H1 H2 Heq.
  - destruct s2 as [| b s2]; simpl in Heq.
    + injection Heq as ->. split; reflexivity.
    + injection Heq as <- _. cbn in H2. discriminate.
  - destruct s2 as [| b s2]; simpl in Heq.
    + injection Heq as -> _. cbn in H1. discriminate.
    + injection Heq as -> Heq. cbn [contains] in H1, H2.
      apply orb_false_iff in H1 as [_ H1]. apply orb_false_iff in H2 as [_ H2].
      destruct (IH s2 t1 t2 H1 H2 Heq) as [-> ->]. split; reflexivity.
Qed.

Lemma append_assoc_l (s t u : string) : (s ++ t) ++ u = s ++ t ++ u.
Proof.
  induction s as [| a s IH]; [reflexivity |].
  change (String a ((s ++ t) ++ u) = String a (s ++ t ++ u)). f_equal. exact IH.
Qed.

Lemma append_cancel_l (s t1 t2 : string) : s ++ t1 = s ++ t2 -> t1 = t2.
Proof.
  induction s as [| a s IH]; simpl; intros H; [exact H |].
  injection H as H. apply IH, H.
Qed.

Lemma uint_digits_no_bar (d : Decimal.uint) :
  contains "|" (NilEmpty.string_of_uint d) = false.
Proof. induction d; cbn [NilEmpty.string_of_uint contains]; try rewrite IHd; reflexivity. Qed.

Lemma str_int_no_bar (z : Z) : contains "|" (str_int z) = false.
Proof.
  unfold str_int, NilZero.string_of_int, NilZero.string_of_uint.
  destruct (Z.to_int z) as [d | d]; destruct d;
    try reflexivity; cbn [contains]; try apply uint_digits_no_bar;
    rewrite ?uint_digits_no_bar; reflexivity.
Qed.

Lemma to_int_not_nil (z : Z) : Z.to_int z <> Decimal.Pos Decimal.Nil /\
                               Z.to_int z <> Decimal.Neg Decimal.Nil.
Proof.
  destruct z as [| p | p]; cbn; split; try discriminate;
    intros H; injection H as H;
    pose proof (DecimalPos.Unsigned.to_uint_nonnil p) as Hp; congruence.
Qed.

(** [str] of an integer determines the integer. *)
Lemma str_int_inj (z z' : Z) : str_int z = str_int z' -> z = z'.
Proof.
  unfold str_int. intros H. apply DecimalZ.to_int_inj.
  destruct (to_int_not_nil z) as [Hz1 Hz2]. destruct (to_int_not_nil z') as [Hz1' Hz2'].
  apply (f_equal NilZero.int_of_string) in H.
  rewrite !NilZero.isi in H by assumption. congruence.
Qed.

End KeyFacts.

Section KeyTheorems.

Lemma request_key_inj (ts ts' endpoint_name url : string) (attempt attempt' : Z)
    (status status' : option Z) (error error' : option string) :
  contains "|" ts = false -> contains "|" ts' = false ->
  request_key ts endpoint_name url attempt status error
  = request_key ts' endpoint_name url attempt' status' error' ->
  ts = ts' /\ attempt = attempt'.
Proof.
  intros Hts Hts' Hkey. unfold request_key in Hkey.
  apply first_bar_split in Hkey as [-> Hkey]; [| assumption ..].
  split; [reflexivity |].
  apply (append_cancel_l endpoint_name) in Hkey. simpl in Hkey. injection Hkey as Hkey.
  apply (append_cancel_l url) in Hkey. simpl in Hkey. injection Hkey as Hkey.
  apply first_bar_split in Hkey as [Hatt _]; [| apply str_int_no_bar ..].
  apply str_int_inj, Hatt.
Qed.

Lemma str_opt_int_no_bar (o : option Z) : contains "|" (str_opt_int o) = false.
Proof. destruct o; [apply str_int_no_bar | reflexivity]. Qed.

(** For one endpoint name and URL, the key string also determines the
    attempt number and the error text. *)
Lemma request_key_inj_full (ts ts' endpoint_name url : string) (attempt attempt' : Z)
    (status status' : option Z) (error error' : option string) :
  contains "|" ts = false -> contains "|" ts' = false ->
  request_key ts endpoint_name url attempt status error
  = request_key ts' endpoint_name url attempt' status' error' ->
  attempt = attempt' /\ or_empty error = or_empty error'.
Proof.
  intros Hts Hts' Hkey. unfold request_key in Hkey.
  apply first_bar_split in Hkey as [-> Hkey]; [| assumption ..].
  apply (append_cancel_l endpoint_name) in Hkey. simpl in Hkey. injection Hkey as Hkey.
  apply (append_cancel_l url) in Hkey. simpl in Hkey. injection Hkey as Hkey.
  apply first_bar_split in Hkey as [Hatt Hkey]; [| apply str_int_no_bar ..].
  apply first_bar_split in Hkey as [_ Herr]; [| apply str_opt_int_no_bar ..].
  split; [apply str_int_inj, Hatt | exact Herr].
Qed.

(** X1. For one endpoint name and URL, the key string determines the
    timestamp and the attempt number, as long as the timestamps contain no
    bar (an ISO timestamp has none): rows of the same endpoint logged at
    different instants, or for different attempts, have different keys. *)
Theorem request_key_ts_attempt (ts ts' endpoint_name url : string) (attempt attempt' : Z)
    (status status' : option Z) (error error' : option string) :
  contains "|" ts = false -> contains "|" ts' = false ->
  (ts <> ts' \/ attempt <> attempt') ->
  request_key ts endpoint_name url attempt status error
  <> request_key ts' endpoint_name url attempt' status' error'.
Proof.
  intros Hts Hts' Hdiff Hkey.
  destruct (request_key_inj _ _ _ _ _ _ _ _ _ _ Hts Hts' Hkey) as [H1 H2].
  destruct Hdiff; contradiction.
Qed.

Lemma request_key_ts_attempt_witness :
  request_key "2026-01-01T00:00:00+00:00" "trending" "http://host/api/public/trending" 1
    (Some 500) (Some "retryable_status:500")
  <> request_key "2026-01-01T00:00:00+00:00" "trending" "http://host/api/public/trending" 2
       (Some 500) (Some "retryable_status:500").
Proof.
  apply (request_key_ts_attempt "2026-01-01T00:00:00+00:00" "2026-01-01T00:00:00+00:00"
           "trending" "http://host/api/public/trending" 1 2).
  - reflexivity.
  - reflexivity.
  - right. lia.
Defined.

(** X2. The bar that separates the fields of the key is not escaped: a bar
    can move between the endpoint name and the URL without changing the
    key. The outcome of the second endpoint is then ignored by the insert,
    and the table keeps the row of the first endpoint only. *)
Theorem request_key_bar_ambiguity (E : Env) (st : state) (a b c : string)
    (status : option Z) (elapsed elapsed' attempt : Z) (error : option string) :
  utc_now_iso E (S (clock_reads st)) = utc_now_iso E (clock_reads st) ->
  let ts := utc_now_iso E (clock_reads st) in
  let key := sha256_hex E (request_key ts (a ++ "|" ++ b) c attempt status error) in
  request_log st !! key = None ->
  let st1 := log_request E (a ++ "|" ++ b) c status elapsed attempt error st in
  let st2 := log_request E a (b ++ "|" ++ c) status elapsed' attempt error st1 in
  request_key ts (a ++ "|" ++ b) c attempt status error
  = request_key ts a (b ++ "|" ++ c) attempt status error /\
  request_log st2 = request_log st1 /\
  rq_endpoint_name <$> request_log st2 !! key = Some (a ++ "|" ++ b).
Proof.
  intros Hts ts key Hfree st1 st2.
  assert (Hkey : request_key ts (a ++ "|" ++ b) c attempt status error
                 = request_key ts a (b ++ "|" ++ c) attempt status error).
  { unfold request_key. rewrite !append_assoc_l. reflexivity. }
  split; [exact Hkey |].
  assert (H2 : request_log st2 = request_log st1).
  { unfold st2, st1, log_request. cbn [request_log clock_reads].
    rewrite Hts. fold ts. rewrite <- Hkey. apply insert_or_ignore_twice. }
  split; [exact H2 |].
  rewrite H2. unfold st1, log_request. cbn [request_log]. fold ts. fold key.
  rewrite insert_or_ignore_first by exact Hfree. reflexivity.
Qed.

Lemma request_key_bar_ambiguity_witness :
  let st1 := log_request Demo.frozen_env "a|b" "c" (Some 200) 5 1 None Demo.empty_state in
  let st2 := log_request Demo.frozen_env "a" "b|c" (Some 200) 7 1 None st1 in
  request_log st2 = request_log st1.
Proof.
  destruct (request_key_bar_ambiguity Demo.frozen_env Demo.empty_state "a" "b" "c"
              (Some 200) 5 7 1 None) as (_ & Hsame & _).
  - reflexivity.
  - apply lookup_empty.
  - exact Hsame.
Defined.

End KeyTheorems.

(** ** The run of [fetch_json_with_retries] *)

Section ListFacts.

(** If [g] separates what [f] separates, [g] has no duplicates where [f]
    has none. *)
Lemma NoDup_map_via {A B C : Type} (f : A -> B) (g : A -> C) (l : list A) :
  (forall x y, x ∈ l -> y ∈ l -> g x = g y -> f x = f y) ->
  NoDup (map f l) -> NoDup (map g l).
Proof.
  induction l as [| x l IH]; intros Hsep Hnd; cbn [map] in *; [constructor |].
  apply NoDup_cons in Hnd as [Hx Hnd]. constructor.
  - intros Hin. apply list_elem_of_In, in_map_iff in Hin as (y & Hy & Hyl).
    apply Hx. apply list_elem_of_In, in_map_iff. exists y. split; [| exact Hyl].
    apply Hsep; [right; apply list_elem_of_In, Hyl | left | exact Hy].
  - apply IH; [| exact Hnd]. intros y z Hy Hz. apply Hsep; right; assumption.
Qed.

Lemma lookup_map {A B : Type} (f : A -> B) (l : list A) : forall (i : nat) (x : A),
  l !! i = Some x -> map f l !! i = Some (f x).
Proof.
  induction l as [| y l IH]; intros i x H; [discriminate |].
  destruct i as [| i]; cbn in *; [congruence | apply IH, H].
Qed.

Lemma replay_logs_subseteq (l : list (string * request_row))
    (table : gmap string request_row) :
  table ⊆ replay_logs table l.
Proof.
  apply map_subseteq_spec. intros id r Hr. apply replay_logs_keeps, Hr.
Qed.


(** Rows whose ids are pairwise distinct and free are all stored. *)
Lemma replay_logs_fresh (l : list (string * request_row)) :
  forall (table : gmap string request_row) (p : string * request_row),
  fresh_ids table (map fst l) -> p ∈ l ->
  replay_logs table l !! fst p = Some (snd p).
Proof.
  induction l as [| q l IH]; intros table p Hfresh Hp; [inversion Hp |].
  unfold replay_logs in *. cbn [foldl].
  pose proof (fresh_ids_tail table (fst q) (snd q) (map fst l) Hfresh) as Htail.
  apply elem_of_cons in Hp as [-> | Hp]; [| apply IH; assumption].
  apply (replay_logs_keeps l). apply insert_or_ignore_first.
  destruct Hfresh as [_ Hfree]. apply Forall_cons in Hfree as [Hq _]. exact Hq.
Qed.

Lemma replay_logs_size_le (l : list (string * request_row)) :
  forall table : gmap string request_row,
  (size table <= size (replay_logs table l) <= size table + length l)%nat.
Proof.
  induction l as [| [id row] l IH]; intros table; unfold replay_logs in *; cbn.
  - lia.
  - specialize (IH (insert_or_ignore id row table)).
    assert (size table <= size (insert_or_ignore id row table) <= S (size table))%nat.
    { unfold insert_or_ignore. destruct (table !! id) as [r |] eqn:Hr; [lia |].
      rewrite map_size_insert_None by exact Hr. lia. }
    lia.
Qed.

Lemma replay_logs_snoc (l : list (string * request_row)) (p : string * request_row)
    (table : gmap string request_row) :
  replay_logs table (l ++ [p])
  = insert_or_ignore (fst p) (snd p) (replay_logs table l).
Proof. rewrite replay_logs_app. reflexivity. Qed.

End ListFacts.

Section FetchFacts.

Context (E : Env) (cfg : CollectorConfig) (w : world) (endpoint_name url : string).

Local Abbreviation loop := (fetch_loop E cfg w endpoint_name url).
Local Abbreviation grows := (logs_only E endpoint_name url).
Local Abbreviation row_at := (row_at E endpoint_name url).
Local Abbreviation hist r a st := (new_events st (snd (loop r a st))).
Local Abbreviation fetch st := (fetch_json_with_retries E cfg w endpoint_name url st).
Local Abbreviation history st := (new_events st (snd (fetch st))).

Lemma fetch_grows (st : state) : grows st (history st) (snd (fetch st)).
Proof. apply loop_grows. Qed.

(** The attempts of a run, counted from 1. *)
Lemma fetch_attempts (st : state) :
  exists k : nat,
    gets (history st) = replicate k url /\
    (k <= Z.to_nat (max_retries cfg))%nat /\ (1 <= max_retries cfg -> k <> 0%nat) /\
    (forall j, 1 <= j < Z.of_nat k -> goes_on cfg w j = true) /\
    (k <> 0%nat -> goes_on cfg w (Z.of_nat k) = false \/ Z.of_nat k = max_retries cfg) /\
    (k = 0%nat -> fetch st = (Ok None, st)) /\
    (k <> 0%nat ->
     exists s tr0,
       grows st tr0 s /\ gets tr0 = replicate (k - 1) url /\
       length (logged tr0) = (k - 1)%nat /\
       fetch st = loop 1 (Z.of_nat k) s /\
       history st = (tr0 ++ hist 1 (Z.of_nat k) s)%list).
Proof.
  unfold fetch_json_with_retries.
  destruct (loop_attempts E cfg w endpoint_name url (Z.to_nat (max_retries cfg)) 1 st)
    as (k & Hg & Hle & Hnz & Hpre & Hend & Hzero & Hlast).
  replace (1 + Z.of_nat k - 1) with (Z.of_nat k) in * by lia.
  exists k. split; [exact Hg |]. split; [exact Hle |].
  split; [intros H; apply Hnz; lia |].
  split; [intros j Hj; apply Hpre; lia |].
  split; [intros Hk; destruct (Hend Hk) as [H | H]; [left; exact H | right; lia] |].
  split; assumption.
Qed.

(** Attempt [n] is made exactly when it is reached. *)
Lemma reached_made (st : state) (n : nat) :
  reached cfg w (Z.of_nat n) <-> (1 <= n <= length (gets (history st)))%nat.
Proof.
  destruct (fetch_attempts st) as (k & Hg & Hle & Hnz & Hpre & Hend & _).
  rewrite Hg, length_replicate. split.
  - intros (Hn & H1025 & Hretry). split; [lia |].
    destruct (le_lt_dec n k) as [H | H]; [exact H | exfalso].
    assert (Hk : k <> 0%nat) by (apply Hnz; lia).
    destruct (Hend Hk) as [Hoff | Hmax]; [| lia].
    assert (Hon : goes_on cfg w (Z.of_nat k) = true).
    { apply goes_on_spec. split; [apply classify_retryable, Hretry |]; lia. }
    congruence.
  - intros [H1 Hk]. split; [lia |].
    assert (Hgo : forall j, 1 <= j < Z.of_nat n -> goes_on cfg w j = true)
      by (intros j Hj; apply Hpre; lia).
    split.
    + destruct (Z.eq_dec (Z.of_nat n) 1) as [-> | Hne]; [lia |].
      assert (Hprev : goes_on cfg w (Z.of_nat n - 1) = true) by (apply Hgo; lia).
      apply goes_on_spec in Hprev as [_ Hprev]. lia.
    + intros j Hj. apply classify_retryable. apply Hgo in Hj.
      apply goes_on_spec in Hj as [Hj _]. exact Hj.
Qed.

(** A run whose attempt [n] is reached and does not let the loop go on
    ends as the run of attempt [n] alone does, after [n - 1] attempts that
    logged one row each. *)
Lemma fetch_ends_at (st : state) (n : nat) :
  reached cfg w (Z.of_nat n) ->
  goes_on cfg w (Z.of_nat n) = false \/ Z.of_nat n = max_retries cfg ->
  gets (history st) = replicate n url /\
  exists s tr0,
    grows st tr0 s /\ gets tr0 = replicate (n - 1) url /\
    length (logged tr0) = (n - 1)%nat /\
    fetch st = loop 1 (Z.of_nat n) s /\
    history st = (tr0 ++ hist 1 (Z.of_nat n) s)%list.
Proof.
  intros Hreach Hstop.
  pose proof (proj1 (reached_made st n) Hreach) as [H1 Hn].
  destruct (fetch_attempts st) as (k & Hg & Hle & _ & Hpre & _ & _ & Hlast).
  rewrite Hg, length_replicate in Hn.
  assert (Hk : k = n).
  { destruct (Nat.eq_dec k n) as [H | H]; [exact H | exfalso].
    assert (Hon : goes_on cfg w (Z.of_nat n) = true) by (apply Hpre; lia).
    destruct Hstop as [Hoff | Hmax]; [congruence | lia]. }
  subst k. split; [exact Hg |]. apply Hlast. lia.
Qed.

End FetchFacts.

(** ** How a run ends *)

Section EndOfRun.

Context (E : Env) (cfg : CollectorConfig) (w : world) (endpoint_name url : string).

Local Abbreviation loop := (fetch_loop E cfg w endpoint_name url).
Local Abbreviation grows := (logs_only E endpoint_name url).
Local Abbreviation row_at := (row_at E endpoint_name url).
Local Abbreviation hist r a st := (new_events st (snd (loop r a st))).
Local Abbreviation fetch st := (fetch_json_with_retries E cfg w endpoint_name url st).
Local Abbreviation history st := (new_events st (snd (fetch st))).
Local Abbreviation attempted st status elapsed attempt err :=
  (log_request E endpoint_name url status elapsed attempt err
     (emit (EGet url) (emit EWait st))).

Lemma status_tests (code : Z) :
  code <> 401 -> code <> 403 -> code <> 429 -> ~ 500 <= code <= 599 ->
  (code =? 401) || (code =? 403) = false /\
  (code =? 429) || ((500 <=? code) && (code <=? 599)) = false.
Proof.
  intros H1 H2 H3 H4.
  replace (code =? 401) with false by (symmetry; apply Z.eqb_neq; lia).
  replace (code =? 403) with false by (symmetry; apply Z.eqb_neq; lia).
  replace (code =? 429) with false by (symmetry; apply Z.eqb_neq; lia).
  split; [reflexivity |]. cbn [orb].
  destruct (500 <=? code) eqn:Hlo; [| reflexivity].
  destruct (code <=? 599) eqn:Hhi; [| reflexivity].
  apply Z.leb_le in Hlo, Hhi. lia.
Qed.


(** A returned payload comes from an attempt that ended in [Success]. *)
Lemma payload_from_success (a : Z) (s : state) (payload : json) :
  fst (loop 1 a s) = Ok (Some payload) ->
  exists code elapsed,
    response w a = Responded code (ParsesTo payload) elapsed /\
    is_success code = true /\ classify (response w a) = Success /\
    loop 1 a s = (Ok (Some payload), attempted s (Some code) elapsed a None).
Proof.
  cbn [fetch_loop].
  destruct (response w a) as [code b el | exc el | exc msg el] eqn:Hresp.
  - destruct ((code =? 401) || (code =? 403)) eqn:H1; [discriminate |].
    destruct ((code =? 429) || ((500 <=? code) && (code <=? 599))) eqn:H2.
    { destruct (backoff_of cfg w a); discriminate. }
    destruct (is_success code) eqn:Hs; cbn [negb]; [| discriminate].
    destruct b as [data | exc]; [| discriminate].
    cbn [fst]. intros H. injection H as H.
    assert (Hd : data = payload) by (destruct data; cbn in H; congruence).
    subst data. exists code, el.
    split; [reflexivity |]. split; [exact Hs |].
    split; [unfold classify; rewrite H1, H2, Hs; reflexivity |].
    rewrite H. reflexivity.
  - destruct (backoff_of cfg w a); discriminate.
  - discriminate.
Qed.

(** The history of an attempt that logs its row and returns. *)
Lemma final_step (a : Z) (s : state) res status elapsed err :
  loop 1 a s = (res, attempted s status elapsed a err) ->
  let p := row_at (clock_reads s) status elapsed a err in
  hist 1 a s = [EWait; EGet url; ELog (fst p) (snd p)].
Proof.
  intros H p. rewrite H. cbn [snd].
  apply (logs_only_new_events E endpoint_name url), attempted_grows.
Qed.

(** A run whose attempt [n] is reached, logs its row and returns. *)
Lemma run_ends_with (st : state) (n : nat) res status elapsed err :
  reached cfg w (Z.of_nat n) ->
  goes_on cfg w (Z.of_nat n) = false ->
  (forall s, loop 1 (Z.of_nat n) s = (res, attempted s status elapsed (Z.of_nat n) err)) ->
  let r := fetch st in
  let tr := new_events st (snd r) in
  let p := row_at (clock_reads st + (n - 1))%nat status elapsed (Z.of_nat n) err in
  fst r = res /\ gets tr = replicate n url /\ length (logged tr) = n /\
  stored tr = [] /\ raw_events (snd r) = raw_events st /\
  clock_reads (snd r) = (clock_reads st + n)%nat /\
  (size (request_log (snd r)) <= size (request_log st) + n)%nat /\
  exists earlier,
    logged tr = (earlier ++ [p])%list /\ length earlier = (n - 1)%nat /\
    is_Some (request_log (snd r) !! fst p) /\
    (replay_logs (request_log st) earlier !! fst p = None ->
     request_log (snd r) !! fst p = Some (snd p)).
Proof.
  intros Hreach Hoff Hstep r tr p. subst r tr.
  assert (Hn : (1 <= n)%nat) by (destruct Hreach as [? _]; lia).
  destruct (fetch_ends_at E cfg w endpoint_name url st n Hreach (or_introl Hoff))
    as (Hgets & s & tr0 & Hgr & Hg0 & Hl0 & Hrun & Hhist).
  destruct (fetch_grows E cfg w endpoint_name url st) as (_ & Hrl & Hre & Hcr & Hst & _).
  pose proof (final_step (Z.of_nat n) s res status elapsed err (Hstep s)) as Hlast.
  cbv zeta in Hlast.
  assert (Hclock : clock_reads s = (clock_reads st + (n - 1))%nat).
  { destruct Hgr as (_ & _ & _ & Hc & _). rewrite Hc, Hl0. reflexivity. }
  rewrite Hclock in Hlast. fold p in Hlast.
  assert (Hlogged : logged (history st) = (logged tr0 ++ [p])%list).
  { rewrite Hhist, logged_app, Hlast. destruct p. reflexivity. }
  split; [rewrite Hrun, Hstep; reflexivity |].
  split; [exact Hgets |].
  assert (Hlen : length (logged (history st)) = n)
    by (rewrite Hlogged, length_app, Hl0; cbn; lia).
  split; [exact Hlen |]. split; [exact Hst |]. split; [exact Hre |].
  split; [rewrite Hcr, Hlen; reflexivity |].
  split.
  { rewrite Hrl, <- Hlen. apply replay_logs_size_le. }
  exists (logged tr0). split; [exact Hlogged |]. split; [exact Hl0 |].
  rewrite Hrl, Hlogged, replay_logs_snoc.
  split; [apply insert_or_ignore_bound | apply insert_or_ignore_first].
Qed.

End EndOfRun.

(** ** Rows and attempts *)

Section RowsOfRun.

Context (E : Env) (cfg : CollectorConfig) (w : world) (endpoint_name url : string).

Local Abbreviation loop := (fetch_loop E cfg w endpoint_name url).
Local Abbreviation hist r a st := (new_events st (snd (loop r a st))).
Local Abbreviation fetch st := (fetch_json_with_retries E cfg w endpoint_name url st).

Lemma Forall2_impl_in {A B : Type} (P Q : A -> B -> Prop) (l : list A) (k : list B) :
  Forall2 P l k -> (forall x y, x ∈ l -> P x y -> Q x y) -> Forall2 Q l k.
Proof.
  induction 1 as [| x y l k Hxy _ IH]; intros Himp; constructor.
  - apply Himp; [left | exact Hxy].
  - apply IH. intros x' y' Hin. apply Himp. right. exact Hin.
Qed.

(** The rows of a run: each id is the hash of the key string of its row;
    the key strings are pairwise distinct when the timestamps hold no bar,
    and so are the ids when moreover the hash does not collide on them. *)
Lemma run_keys (st : state) :
  (forall i, contains "|" (utc_now_iso E i) = false) ->
  let tr := new_events st (snd (fetch st)) in
  Forall (fun p => fst p = sha256_hex E (row_key (snd p))) (logged tr) /\
  NoDup (map (fun p => row_key (snd p)) (logged tr)) /\
  ((forall p q, p ∈ logged tr -> q ∈ logged tr ->
      sha256_hex E (row_key (snd p)) = sha256_hex E (row_key (snd q)) ->
      row_key (snd p) = row_key (snd q)) ->
   NoDup (log_ids tr)).
Proof.
  intros Hbar tr. subst tr.
  destruct (fetch_grows E cfg w endpoint_name url st) as (_ & _ & _ & _ & _ & Hrows).
  destruct (loop_rows E cfg w endpoint_name url (Z.to_nat (max_retries cfg)) 1 st)
    as (_ & Hnd & _).
  fold (fetch_json_with_retries E cfg w endpoint_name url st) in Hnd.
  rewrite List.Forall_forall in Hrows.
  assert (Hids : Forall (fun p => fst p = sha256_hex E (row_key (snd p)))
                   (logged (new_events st (snd (fetch st))))).
  { apply List.Forall_forall. intros p Hp.
    destruct (Hrows p Hp) as (c & status & el & a & err & ->). reflexivity. }
  assert (Hkeys : NoDup (map (fun p => row_key (snd p))
                           (logged (new_events st (snd (fetch st)))))).
  { apply (NoDup_map_via attempt_and_error); [| exact Hnd].
    intros p q Hp Hq Hkey.
    destruct (Hrows p (proj1 (list_elem_of_In _ _) Hp)) as (c & status & el & a & err & ->).
    destruct (Hrows q (proj1 (list_elem_of_In _ _) Hq))
      as (c' & status' & el' & a' & err' & ->).
    unfold row_key, row_at in Hkey. cbn in Hkey.
    apply request_key_inj_full in Hkey as [Ha He]; [| apply Hbar ..].
    unfold attempt_and_error, row_at. cbn. congruence. }
  split; [exact Hids |]. split; [exact Hkeys |].
  intros Hinj. unfold log_ids.
  apply (NoDup_map_via (fun p => row_key (snd p))); [| exact Hkeys].
  intros p q Hp Hq Hkey. rewrite List.Forall_forall in Hids.
  rewrite (Hids p (proj1 (list_elem_of_In _ _) Hp)) in Hkey.
  rewrite (Hids q (proj1 (list_elem_of_In _ _) Hq)) in Hkey.
  apply Hinj; assumption.
Qed.

(** X3. The rows of one run of [fetch_json_with_retries] have pairwise
    distinct key strings when the clock's timestamps contain no bar, each
    id being the hash of the key string of its row; so the ids are pairwise
    distinct as long as the hash does not collide on these keys. *)
Theorem run_keys_distinct (st : state) :
  (forall i, contains "|" (utc_now_iso E i) = false) ->
  let tr := new_events st (snd (fetch st)) in
  Forall (fun p => fst p = sha256_hex E (row_key (snd p))) (logged tr) /\
  NoDup (map (fun p => row_key (snd p)) (logged tr)) /\
  ((forall p q, p ∈ logged tr -> q ∈ logged tr ->
      sha256_hex E (row_key (snd p)) = sha256_hex E (row_key (snd q)) ->
      row_key (snd p) = row_key (snd q)) ->
   NoDup (log_ids tr)).
Proof. exact (run_keys st). Qed.

End RowsOfRun.

Section ClaimsOnFetch.

Context (E : Env) (cfg : CollectorConfig) (w : world) (endpoint_name url : string).

Local Abbreviation loop := (fetch_loop E cfg w endpoint_name url).
Local Abbreviation hist r a st := (new_events st (snd (loop r a st))).
Local Abbreviation fetch st := (fetch_json_with_retries E cfg w endpoint_name url st).
Local Abbreviation row_at := (row_at E endpoint_name url).
Local Abbreviation attempted st status elapsed attempt err :=
  (log_request E endpoint_name url status elapsed attempt err
     (emit (EGet url) (emit EWait st))).



End ClaimsOnFetch.




(** ** The worker of one endpoint *)

Section WorkerFacts.

Context (E : Env) (cfg : CollectorConfig) (spec : EndpointSpec) (w : world).

Local Abbreviation fetch url st := (fetch_json_with_retries E cfg w (name spec) url st).

(** The worker, by what its fetch returned. *)
Lemma worker_no_payload (url : string) (st : state) :
  build_url (base_url cfg) (path_template spec) (params spec) = Ok url ->
  fst (fetch url st) = Ok None ->
  worker E cfg spec w st = Ok ((name spec, None), snd (fetch url st)).
Proof.
  intros Hurl Hnone. unfold worker. rewrite Hurl.
  destruct (fetch url st) as [res st1]. cbn [fst snd] in *. subst res. reflexivity.
Qed.

Lemma worker_payload (url : string) (st : state) (payload : json) :
  build_url (base_url cfg) (path_template spec) (params spec) = Ok url ->
  fst (fetch url st) = Ok (Some payload) ->
  worker E cfg spec w st
  = if utf8_encodable E (json_dumps E payload)
    then Ok ((name spec, Some payload),
             store_payload E (name spec) url payload (snd (fetch url st)))
    else Raised UnicodeEncodeError.
Proof.
  intros Hurl Hsome. unfold worker, try_store_payload. rewrite Hurl.
  destruct (fetch url st) as [res st1]. cbn [fst snd] in *. subst res.
  destruct (utf8_encodable E (json_dumps E payload)); reflexivity.
Qed.

Lemma worker_raised (url : string) (st : state) (e : exn) :
  build_url (base_url cfg) (path_template spec) (params spec) = Ok url ->
  fst (fetch url st) = Raised e ->
  worker E cfg spec w st = Raised e.
Proof.
  intros Hurl Hr. unfold worker. rewrite Hurl.
  destruct (fetch url st) as [res st1]. cbn [fst] in *. subst res. reflexivity.
Qed.

Lemma success_tests (code : Z) :
  200 <= code <= 299 ->
  (code =? 401) || (code =? 403) = false /\
  (code =? 429) || ((500 <=? code) && (code <=? 599)) = false /\
  is_success code = true.
Proof.
  intros Hc. destruct (status_tests code) as [H1 H2]; try lia.
  repeat split; try assumption.
  unfold is_success. apply andb_true_iff. split; apply Z.leb_le; lia.
Qed.



End WorkerFacts.

Lemma demo_reached_first (w : world) : reached Demo.cfg w (Z.of_nat 1).
Proof. split; [cbn; lia |]. split; [cbn; lia |]. intros j Hj. cbn in Hj. lia. Qed.



(** C2 fails on the code for a body that is the JSON document [null]. The
    attempt is a [Success]: status 200, the body parses, and the row is
    logged with no error. But [resp.json()] is then [None], the value that
    also means "no payload", so the worker calls no [store_payload] and no
    [RawEvent] row is written. *)
Theorem C2_null_payload_not_stored :
  classify (response Demo.null_body 1) = Success /\
  exists st' id row,
    worker Demo.env Demo.cfg Demo.trending Demo.null_body Demo.empty_state
    = Ok (("trending", None), st') /\
    logged (new_events Demo.empty_state st') = [(id, row)] /\
    success_row "trending" "http://host/api/public/trending" row /\
    stored (new_events Demo.empty_state st') = [] /\
    raw_events st' = ∅.
Proof.
  split; [reflexivity |].
  do 3 eexists. split; [vm_compute; reflexivity |].
  split; [vm_compute; reflexivity |].
  split; [| split; reflexivity].
  repeat split. exists 200. split; reflexivity.
Qed.

(** C8 fails on the code for two endpoints whose names and URLs differ
    only in the place of a bar, fetched at the same reading of the clock.
    The bar that separates the fields of the outcome key is not escaped, so
    the success rows of the two endpoints have the same key string and the
    same id. The worker of the first endpoint logs its success row and
    stores its event: the invariant holds. The [log_request] of the second
    is then ignored, and its [store_payload], whose key holds another
    payload hash, inserts an event for which the outcome table has no
    success row under that endpoint name and URL. *)
Theorem C8_event_without_outcome :
  worker Demo.coarse_env Demo.cfg Demo.pipe_first (Demo.ok_with (JObj []))
    Demo.empty_state
  = Ok (("x", Some (JObj [])), Demo.after_pipe_first) /\
  backed Demo.after_pipe_first /\
  worker Demo.coarse_env Demo.cfg Demo.pipe_second (Demo.ok_with (JArr []))
    Demo.after_pipe_first
  = Ok (("x|http://host/p", Some (JArr [])), Demo.after_pipe_second) /\
  size (request_log Demo.after_pipe_second) = 1%nat /\
  size (raw_events Demo.after_pipe_second) = 2%nat /\
  ~ backed Demo.after_pipe_second.
Proof.
  split; [vm_compute; reflexivity |].
  split.
  { intros id ev Hev. apply elem_of_map_to_list in Hev. vm_compute in Hev.
    apply list_elem_of_singleton in Hev. injection Hev as -> ->.
    exists (request_key "2026-01-01T00:00:00+00:00" "x" "http://host/p|http://host/q" 1
              (Some 200) None).
    eexists. split; [vm_compute; reflexivity |].
    repeat split. exists 200. split; reflexivity. }
  split; [vm_compute; reflexivity |].
  split; [vm_compute; reflexivity |].
  split; [vm_compute; reflexivity |].
  intros Hbacked.
  destruct (Hbacked
              (event_key Demo.coarse_env "x|http://host/p" "http://host/q"
                 "2026-01-01T00:00:00+00:00" "[]")
              (mkEventRow "2026-01-01T00:00:00+00:00" "x|http://host/p" "http://host/q"
                 "[]"))
    as (id' & rq & Hrq & Hname & _); [vm_compute; reflexivity |].
  apply elem_of_map_to_list in Hrq. vm_compute in Hrq.
  apply list_elem_of_singleton in Hrq. injection Hrq as _ ->.
  cbn in Hname. discriminate.
Qed.

(** ** Events and their outcome rows *)

Section InvariantFacts.

Context (E : Env).

Lemma log_request_backed (endpoint_name url : string) (status : option Z)
    (elapsed attempt : Z) (error : option string) (st : state) :
  backed st -> backed (log_request E endpoint_name url status elapsed attempt error st).
Proof.
  intros Hb id ev Hev. cbn [log_request raw_events] in Hev.
  destruct (Hb id ev Hev) as (id' & rq & Hrq & Hok).
  exists id', rq. split; [| exact Hok].
  cbn [log_request request_log]. apply insert_or_ignore_keeps, Hrq.
Qed.

Lemma store_payload_backed (endpoint_name url : string) (payload : json) (st : state) :
  backed st ->
  (exists id rq, request_log st !! id = Some rq /\ success_row endpoint_name url rq) ->
  backed (store_payload E endpoint_name url payload st).
Proof.
  intros Hb (id0 & rq0 & Hrq0 & Hok0) id ev Hev.
  cbn [store_payload raw_events request_log] in *.
  unfold insert_or_ignore in Hev.
  destruct (raw_events st !! _) as [old |] eqn:Hold; [exact (Hb id ev Hev) |].
  apply lookup_insert_Some in Hev as [[<- <-] | [_ Hev]]; [| exact (Hb id ev Hev)].
  exists id0, rq0. split; [exact Hrq0 | exact Hok0].
Qed.

End InvariantFacts.

Section WorkerInvariant.

Context (E : Env) (cfg : CollectorConfig) (spec : EndpointSpec) (w : world).

Local Abbreviation fetch url st := (fetch_json_with_retries E cfg w (name spec) url st).
Local Abbreviation loop url := (fetch_loop E cfg w (name spec) url).

(** A returned payload follows a success row, the last row of the run. *)
Lemma payload_after_success_row (url : string) (st : state) (payload : json) :
  fst (fetch url st) = Ok (Some payload) ->
  exists earlier p code,
    logged (new_events st (snd (fetch url st))) = (earlier ++ [p])%list /\
    rq_status_code (snd p) = Some code /\ is_success code = true /\
    success_row (name spec) url (snd p).
Proof.
  intros Hp.
  destruct (fetch_attempts E cfg w (name spec) url st)
    as (k & _ & _ & _ & _ & _ & Hzero & Hlast).
  destruct k as [| k'].
  { rewrite (Hzero eq_refl) in Hp. discriminate. }
  destruct Hlast as (s & tr0 & _ & _ & _ & Hrun & Hhist); [discriminate |].
  rewrite Hrun in Hp.
  destruct (payload_from_success E cfg w (name spec) url _ s payload Hp)
    as (code & el & _ & Hok & _ & Hstep).
  pose proof (final_step E cfg w (name spec) url _ s _ _ _ _ Hstep) as Hb.
  cbv zeta in Hb.
  eexists (logged tr0), _, code. rewrite Hhist, logged_app, Hb.
  split; [reflexivity |]. split; [reflexivity |]. split; [exact Hok |].
  repeat split. exists code. split; [reflexivity | exact Hok].
Qed.

(** X27. A worker keeps the invariant "every [RawEvent] row has a
    [RequestOutcome] row with no error and a 2xx status for the same
    endpoint name and URL" when the ids its [log_request] calls bind are
    pairwise distinct and free in the table: the success row is then
    inserted, not ignored, before the event is. *)
Theorem events_backed_when_fresh (url : string) (st st' : state)
    (res : string * option json) :
  backed st ->
  build_url (base_url cfg) (path_template spec) (params spec) = Ok url ->
  worker E cfg spec w st = Ok (res, st') ->
  fresh_ids (request_log st) (log_ids (new_events st st')) ->
  backed (snd (fetch url st)) /\ backed st'.
Proof.
  intros Hb Hurl Hw Hfresh.
  destruct (fetch_grows E cfg w (name spec) url st) as (Ht & Hrl & Hre & _ & Hst & _).
  assert (Hb1 : backed (snd (fetch url st))).
  { intros id ev Hev. rewrite Hre in Hev.
    destruct (Hb id ev Hev) as (id' & rq & Hrq & Hok).
    exists id', rq. split; [| exact Hok]. rewrite Hrl. apply replay_logs_keeps, Hrq. }
  split; [exact Hb1 |].
  destruct (fst (fetch url st)) as [[payload |] | e] eqn:Hres.
  - rewrite (worker_payload E cfg spec w url st payload Hurl Hres) in Hw.
    destruct (utf8_encodable E (json_dumps E payload)); [| discriminate].
    injection Hw as <- <-.
    destruct (payload_after_success_row url st payload Hres)
      as (earlier & p & code & Hlogged & _ & _ & Hok).
    assert (Hnew : logged (new_events st
                             (store_payload E (name spec) url payload (snd (fetch url st))))
                   = logged (new_events st (snd (fetch url st)))).
    { erewrite (new_events_app st (store_payload _ _ _ _ _)).
      2: { cbn [store_payload trace]. rewrite Ht, <- app_assoc. reflexivity. }
      rewrite logged_app. cbn. apply app_nil_r. }
    unfold log_ids in Hfresh. rewrite Hnew in Hfresh.
    apply store_payload_backed; [exact Hb1 |].
    exists (fst p), (snd p). split; [| exact Hok].
    rewrite Hrl. apply replay_logs_fresh; [exact Hfresh |].
    rewrite Hlogged. apply elem_of_app. right. left.
  - rewrite (worker_no_payload E cfg spec w url st Hurl Hres) in Hw.
    injection Hw as <- <-. exact Hb1.
  - rewrite (worker_raised E cfg spec w url st e Hurl Hres) in Hw. discriminate.
Qed.

(** X15. The worker of an endpoint whose run ends in a 2xx response with a
    body that parses to something other than [null], and whose text
    encodes as UTF-8, stores that body once: the event row holds the text
    [json.dumps] gives for the body, is stamped with the reading of the
    clock after those of the [n] outcome rows, and is identified by the
    hash of the endpoint name, the URL, that stamp and the hash of the
    text. *)
Theorem worker_stores_body (url : string) (st : state) (n : nat) (code : Z)
    (data : json) (elapsed : Z) :
  build_url (base_url cfg) (path_template spec) (params spec) = Ok url ->
  reached cfg w (Z.of_nat n) ->
  response w (Z.of_nat n) = Responded code (ParsesTo data) elapsed ->
  200 <= code <= 299 -> data <> JNull ->
  utf8_encodable E (json_dumps E data) = true ->
  let ts := utc_now_iso E (clock_reads st + n) in
  let text := json_dumps E data in
  let row := mkEventRow ts (name spec) url text in
  let id := sha256_hex E (name spec ++ "|" ++ url ++ "|" ++ ts ++ "|" ++ sha256_hex E text) in
  exists st',
    worker E cfg spec w st = Ok ((name spec, Some data), st') /\
    stored (new_events st st') = [(id, row)] /\
    raw_events st' = insert_or_ignore id row (raw_events st) /\
    clock_reads st' = (clock_reads st + n + 1)%nat.
Proof.
  intros Hurl Hreach Hresp Hcode Hnull Henc ts text row id.
  destruct (success_tests code Hcode) as (H1 & H2 & Hok).
  assert (Hoff : goes_on cfg w (Z.of_nat n) = false).
  { unfold goes_on, retryable, classify. rewrite Hresp, H1, H2, Hok. reflexivity. }
  destruct (run_ends_with E cfg w (name spec) url st n (Ok (py_optional data))
              (Some code) elapsed None Hreach Hoff)
    as (Hres & _ & _ & Hst & Hre & Hcr & _).
  { intros s. cbn [fetch_loop]. rewrite Hresp, H1, H2, Hok. reflexivity. }
  assert (Hsome : fst (fetch url st) = Ok (Some data)).
  { rewrite Hres. destruct data; [contradiction | reflexivity ..]. }
  destruct (fetch_grows E cfg w (name spec) url st) as (Ht & _).
  rewrite (worker_payload E cfg spec w url st data Hurl Hsome), Henc.
  eexists. split; [reflexivity |].
  unfold store_payload. cbn [trace raw_events clock_reads]. rewrite Hcr, Hre.
  split; [| split; [reflexivity | lia]].
  erewrite new_events_app.
  2: { rewrite Ht, <- app_assoc. reflexivity. }
  rewrite stored_app, Hst. reflexivity.
Qed.

(** X26. When the text of such a body does not encode as UTF-8 (the body
    holds a lone surrogate), [store_payload] raises [UnicodeEncodeError]
    while hashing it, after the fetch has returned the body: the exception
    leaves the worker and no event is stored. *)
Theorem unencodable_payload_raises (url : string) (st : state) (n : nat) (code : Z)
    (data : json) (elapsed : Z) :
  build_url (base_url cfg) (path_template spec) (params spec) = Ok url ->
  reached cfg w (Z.of_nat n) ->
  response w (Z.of_nat n) = Responded code (ParsesTo data) elapsed ->
  200 <= code <= 299 -> data <> JNull ->
  utf8_encodable E (json_dumps E data) = false ->
  fst (fetch url st) = Ok (Some data) /\
  stored (new_events st (snd (fetch url st))) = [] /\
  worker E cfg spec w st = Raised UnicodeEncodeError.
Proof.
  intros Hurl Hreach Hresp Hcode Hnull Henc.
  destruct (success_tests code Hcode) as (H1 & H2 & Hok).
  assert (Hoff : goes_on cfg w (Z.of_nat n) = false).
  { unfold goes_on, retryable, classify. rewrite Hresp, H1, H2, Hok. reflexivity. }
  destruct (run_ends_with E cfg w (name spec) url st n (Ok (py_optional data))
              (Some code) elapsed None Hreach Hoff)
    as (Hres & _ & _ & Hst & _).
  { intros s. cbn [fetch_loop]. rewrite Hresp, H1, H2, Hok. reflexivity. }
  assert (Hsome : fst (fetch url st) = Ok (Some data)).
  { rewrite Hres. destruct data; [contradiction | reflexivity ..]. }
  split; [exact Hsome |]. split; [exact Hst |].
  rewrite (worker_payload E cfg spec w url st data Hurl Hsome), Henc. reflexivity.
Qed.

End WorkerInvariant.

(** ** The worker and the orchestrator *)

Section StoreGrowth.

Context {R : Type}.

Lemma insert_or_ignore_subseteq (id : string) (row : R) (table : gmap string R) :
  table ⊆ insert_or_ignore id row table.
Proof.
  apply map_subseteq_spec. intros id' r Hr. apply insert_or_ignore_keeps, Hr.
Qed.

Lemma insert_or_ignore_size_le (id : string) (row : R) (table : gmap string R) :
  (size (insert_or_ignore id row table) <= S (size table))%nat.
Proof.
  unfold insert_or_ignore. destruct (table !! id) as [r |] eqn:Hr; [lia |].
  rewrite map_size_insert_None by exact Hr. lia.
Qed.

End StoreGrowth.

Section Exceptions.

Context (E : Env) (cfg : CollectorConfig) (w : world) (endpoint_name url : string).

Local Abbreviation loop := (fetch_loop E cfg w endpoint_name url).
Local Abbreviation fetch st := (fetch_json_with_retries E cfg w endpoint_name url st).
Local Abbreviation history st := (new_events st (snd (fetch st))).




(** The counts of a run of one endpoint. *)
Lemma fetch_counts (st : state) :
  exists k : nat,
    gets (history st) = replicate k url /\ (k <= Z.to_nat (max_retries cfg))%nat /\
    (k <= length (logged (history st)) <= S k)%nat /\
    ((k <= 1024)%nat -> length (logged (history st)) = k).
Proof.
  destruct (fetch_attempts E cfg w endpoint_name url st) as (k & Hg & Hle & _).
  pose proof (loop_rows E cfg w endpoint_name url (Z.to_nat (max_retries cfg)) 1 st)
    as Hrows.
  cbv zeta in Hrows. destruct Hrows as (_ & _ & _ & Hlen & Heq).
  unfold fetch_json_with_retries in *.
  rewrite Hg, length_replicate in Hlen, Heq.
  exists k. split; [exact Hg |]. split; [exact Hle |]. split; [exact Hlen |].
  intros Hk. apply Heq. lia.
Qed.

End Exceptions.

Section WorkerHistory.

Context (E : Env) (cfg : CollectorConfig).

(** The number of payloads among the results. *)
Local Abbreviation stored_by data :=
  (match data with Some _ => 1%nat | None => 0%nat end).

(** What one worker adds to the history and to the tables. *)
Lemma worker_history (spec : EndpointSpec) (w : world) (st st' : state)
    (res : string * option json) :
  worker E cfg spec w st = Ok (res, st') ->
  exists tr,
    trace st' = (trace st ++ tr)%list /\
    worker_segment cfg spec res tr /\
    request_log st ⊆ request_log st' /\ raw_events st ⊆ raw_events st' /\
    (size (request_log st') <= size (request_log st) + length (logged tr))%nat /\
    (size (raw_events st') <= size (raw_events st) + stored_by (snd res))%nat.
Proof.
  intros Hw.
  destruct (build_url (base_url cfg) (path_template spec) (params spec))
    as [url | e] eqn:Hurl; [| unfold worker in Hw; rewrite Hurl in Hw; discriminate].
  destruct (fetch_grows E cfg w (name spec) url st) as (Ht & Hrl & Hre & _ & Hst & _).
  destruct (fetch_counts E cfg w (name spec) url st) as (k & Hg & Hle & Hlen & Heq).
  pose proof (replay_logs_size_le
                (logged (new_events st (snd (fetch_json_with_retries E cfg w (name spec) url st))))
                (request_log st)) as [_ Hsz].
  destruct (fst (fetch_json_with_retries E cfg w (name spec) url st))
    as [[payload |] | e] eqn:Hres.
  - rewrite (worker_payload E cfg spec w url st payload Hurl Hres) in Hw.
    destruct (utf8_encodable E (json_dumps E payload)); [| discriminate].
    injection Hw as <- <-.
    eexists (_ ++ [EStore _ _])%list.
    unfold store_payload. cbn [trace request_log raw_events fst snd].
    split; [rewrite Ht, <- app_assoc; reflexivity |].
    rewrite !logged_app, !length_app.
    change (length (logged [EStore _ _])) with 0%nat.
    split.
    { split; [reflexivity |]. exists url, k.
      rewrite gets_app, stored_app, logged_app, !length_app, Hst, Hg.
      change (length (logged [EStore _ _])) with 0%nat.
      split; [exact Hurl |]. split; [apply app_nil_r |]. split; [exact Hle |].
      split; [lia |]. split; [intros Hk; rewrite (Heq Hk); lia | reflexivity]. }
    split; [rewrite Hrl; apply replay_logs_subseteq |].
    split; [rewrite Hre; apply insert_or_ignore_subseteq |].
    split; [rewrite Hrl; lia |].
    rewrite Hre. etransitivity; [apply insert_or_ignore_size_le | lia].
  - rewrite (worker_no_payload E cfg spec w url st Hurl Hres) in Hw.
    injection Hw as <- <-. eexists. split; [exact Ht |].
    split.
    { split; [reflexivity |]. exists url, k. rewrite Hst.
      split; [exact Hurl |]. split; [exact Hg |]. split; [exact Hle |].
      split; [exact Hlen |]. split; [exact Heq | reflexivity]. }
    split; [rewrite Hrl; apply replay_logs_subseteq |].
    split; [rewrite Hre; reflexivity |].
    split; [rewrite Hrl; exact Hsz |]. rewrite Hre. cbn. lia.
  - rewrite (worker_raised E cfg spec w url st e Hurl Hres) in Hw. discriminate.
Qed.

Lemma count_ok_cons (res : string * option json) (rs : list (string * option json)) :
  count_ok (res :: rs) = (stored_by (snd res) + count_ok rs)%nat.
Proof. unfold count_ok. cbn [List.filter]. destruct (snd res); reflexivity. Qed.


Lemma gather_history (server : nat -> world) (specs : list EndpointSpec) :
  forall (i : nat) (st st' : state) (results : list (string * option json)),
  gather E cfg specs server i st = Ok (results, st') ->
  length results = length specs /\
  exists segments,
    trace st' = (trace st ++ concat segments)%list /\
    Forall2 (fun sr seg => worker_segment cfg (fst sr) (snd sr) seg)
      (zip specs results) segments /\
    length (stored (concat segments)) = count_ok results /\
    (length (gets (concat segments)) <= length specs * Z.to_nat (max_retries cfg))%nat /\
    request_log st ⊆ request_log st' /\ raw_events st ⊆ raw_events st' /\
    (size (request_log st')
     <= size (request_log st) + length (logged (concat segments)))%nat /\
    (size (raw_events st') <= size (raw_events st) + count_ok results)%nat.
Proof.
  induction specs as [| spec specs IH]; intros i st st' results Hg; cbn [gather] in Hg.
  - injection Hg as <- <-. split; [reflexivity |]. exists [].
    cbn [concat]. rewrite app_nil_r.
    split; [reflexivity |]. split; [constructor |]. cbn.
    repeat split; try reflexivity; lia.
  - destruct (worker E cfg spec (server i) st) as [[res st1] | e] eqn:Hw;
      [| discriminate].
    destruct (gather E cfg specs server (S i) st1) as [[rs st2] | e] eqn:Hrest;
      [| discriminate].
    injection Hg as <- <-.
    destruct (worker_history spec (server i) st st1 res Hw)
      as (tr1 & Ht1 & Hseg & Hrq1 & Hev1 & Hsz1 & Hse1).
    destruct (IH (S i) st1 st2 rs Hrest)
      as (Hlen & segs & Ht2 & Hsegs & Hs2 & Hg2 & Hrq2 & Hev2 & Hsz2 & Hse2).
    split; [cbn [length]; rewrite Hlen; reflexivity |].
    exists (tr1 :: segs). cbn [concat].
    pose proof Hseg as (_ & url & k & _ & Hgets & Hk & _ & _ & Hstored).
    rewrite count_ok_cons, stored_app, logged_app, gets_app, !length_app.
    split; [rewrite Ht2, Ht1, <- app_assoc; reflexivity |].
    split; [constructor; [exact Hseg | exact Hsegs] |].
    split; [rewrite Hstored, Hs2; reflexivity |].
    split; [rewrite Hgets, length_replicate; cbn [length]; lia |].
    split; [etransitivity; eassumption |].
    split; [etransitivity; eassumption |].
    split; lia.
Qed.




End WorkerHistory.

Section Orchestrator.

Context (E : Env) (cfg : CollectorConfig).

(** A completed run, taken apart. *)
Lemma run_once_completed (specs : list EndpointSpec) (server : nat -> world)
    (st st' : state) (results : list (string * option json)) (ok total : nat) :
  run_once E cfg specs server st = RunCompleted results ok total st' ->
  ok = count_ok results /\ total = length results /\
  gather E cfg specs server 0 st = Ok (results, st').
Proof.
  unfold run_once.
  destruct (RateLimiter.init (rps_per_host cfg)); [| discriminate].
  destruct (max_concurrency cfg <? 0); [discriminate |].
  destruct (first_resolution_error cfg specs); [discriminate |].
  destruct specs as [| spec specs].
  - intros H. injection H as <- <- <- <-. repeat split.
  - destruct (max_concurrency cfg =? 0); [discriminate |].
    destruct (gather E cfg (spec :: specs) server 0 st) as [[rs st1] | e];
      [| discriminate].
    intros H. injection H as <- <- <- <-. repeat split.
Qed.



(** X13. A run that completes only adds rows: every row that was in a
    table before the run is there after it, unchanged; the outcome table
    grows by at most one row per [log_request] call and the event table by
    at most one row per stored payload. *)
Theorem run_once_append_only (specs : list EndpointSpec) (server : nat -> world)
    (st st' : state) (results : list (string * option json)) (ok total : nat) :
  run_once E cfg specs server st = RunCompleted results ok total st' ->
  request_log st ⊆ request_log st' /\ raw_events st ⊆ raw_events st' /\
  (size (request_log st')
   <= size (request_log st) + length (logged (new_events st st')))%nat /\
  (size (raw_events st') <= size (raw_events st) + ok)%nat.
Proof.
  intros Hrun.
  destruct (run_once_completed specs server st st' results ok total Hrun)
    as (-> & -> & Hg).
  destruct (gather_history E cfg server specs 0 st st' results Hg)
    as (_ & segs & Ht & _ & _ & _ & Hrq & Hev & Hsz & Hse).
  rewrite (new_events_app _ _ _ Ht). repeat split; assumption.
Qed.

Lemma gather_without_attempts (server : nat -> world) (specs : list EndpointSpec) :
  max_retries cfg <= 0 -> first_resolution_error cfg specs = None ->
  forall (i : nat) (st : state),
  gather E cfg specs server i st = Ok (map (fun s => (name s, None)) specs, st).
Proof.
  intros Hmax. induction specs as [| spec specs IH]; intros Hres i st; [reflexivity |].
  cbn [first_resolution_error] in Hres. cbn [gather map]. unfold worker.
  destruct (build_url (base_url cfg) (path_template spec) (params spec)) as [url | e];
    [| discriminate].
  unfold fetch_json_with_retries.
  replace (Z.to_nat (max_retries cfg)) with 0%nat by lia.
  cbn [fetch_loop]. rewrite (IH Hres). reflexivity.
Qed.

(** X14. With [max_retries <= 0] the attempt loop has no iteration: a run
    whose setup succeeds and whose URLs resolve completes with [None] for
    every endpoint and [ok = 0], without a request, a row or an event. *)
Theorem no_attempts_allowed (specs : list EndpointSpec) (server : nat -> world)
    (st : state) :
  max_retries cfg <= 0 -> setup_ok cfg -> 1 <= max_concurrency cfg ->
  first_resolution_error cfg specs = None ->
  run_once E cfg specs server st
  = RunCompleted (map (fun s => (name s, None)) specs) 0 (length specs) st.
Proof.
  intros Hmax [Hlim _] Hcap Hres. unfold run_once.
  destruct (RateLimiter.init (rps_per_host cfg)); [| congruence].
  replace (max_concurrency cfg <? 0) with false by (symmetry; apply Z.ltb_ge; lia).
  rewrite Hres. destruct specs as [| spec specs]; [reflexivity |].
  replace (max_concurrency cfg =? 0) with false by (symmetry; apply Z.eqb_neq; lia).
  rewrite (gather_without_attempts server (spec :: specs) Hmax Hres).
  f_equal.
  - unfold count_ok. generalize (spec :: specs). intros l.
    induction l as [| s l IHl]; [reflexivity | exact IHl].
  - apply length_map.
Qed.

End Orchestrator.



(** ** The retry loop, outcome by outcome *)

Section ListFacts.

Context {A B : Type} (f : A -> option B).

Lemma omap_cons_eq (x : A) (l : list A) :
  omap f (x :: l) = match f x with Some y => y :: omap f l | None => omap f l end.
Proof. reflexivity. Qed.

Lemma omap_all_some (l : list A) :
  (forall x, x ∈ l -> is_Some (f x)) ->
  Forall2 (fun x y => f x = Some y) l (omap f l).
Proof.
  induction l as [| x l IH]; intros H; [constructor |].
  rewrite omap_cons_eq. destruct (H x) as [y Hy]; [left |]. rewrite Hy.
  constructor; [exact Hy |]. apply IH. intros z Hz. apply H. right. exact Hz.
Qed.

Lemma omap_none (l : list A) :
  (forall x, x ∈ l -> f x = None) -> omap f l = [].
Proof.
  induction l as [| x l IH]; intros H; [reflexivity |].
  rewrite omap_cons_eq. rewrite (H x) by left. apply IH. intros z Hz. apply H. right. exact Hz.
Qed.

Lemma omap_elem (l : list A) (y : B) :
  y ∈ omap f l -> exists x, x ∈ l /\ f x = Some y.
Proof.
  induction l as [| x l IH]; intros H.
  - apply not_elem_of_nil in H. contradiction.
  - rewrite omap_cons_eq in H. destruct (f x) as [y' |] eqn:Hx.
    + apply elem_of_cons in H as [-> | H].
      * exists x. split; [left | exact Hx].
      * destruct (IH H) as (z & Hz & Hfz). exists z. split; [right; exact Hz | exact Hfz].
    + destruct (IH H) as (z & Hz & Hfz). exists z. split; [right; exact Hz | exact Hfz].
Qed.

Lemma omap_length_le (l : list A) : (length (omap f l) <= length l)%nat.
Proof.
  induction l as [| x l IH]; [reflexivity |].
  rewrite omap_cons_eq. destruct (f x); cbn [length]; lia.
Qed.

End ListFacts.

Lemma Qsum_bounded (b : Q) (l : list Q) :
  Forall (fun s => (s <= b)%Q) l ->
  (Backoff.Qsum l <= inject_Z (Z.of_nat (length l)) * b)%Q.
Proof.
  unfold Backoff.Qsum. induction 1 as [| s l Hs _ IH]; cbn [fold_right length].
  - change (inject_Z (Z.of_nat 0)) with 0%Q. lra.
  - rewrite Nat2Z.inj_succ. unfold Z.succ. rewrite inject_Z_plus.
    change (inject_Z 1) with 1%Q. set (n := inject_Z (Z.of_nat (length l))) in *.
    set (t := fold_right Qplus 0%Q l) in *. nra.
Qed.

Section FetchOutcomes.

Context (E : Env) (cfg : CollectorConfig) (w : world) (endpoint_name url : string).

Local Abbreviation loop := (fetch_loop E cfg w endpoint_name url).
Local Abbreviation grows := (logs_only E endpoint_name url).
Local Abbreviation row_at := (row_at E endpoint_name url).
Local Abbreviation hist r a st := (new_events st (snd (loop r a st))).
Local Abbreviation fetch st := (fetch_json_with_retries E cfg w endpoint_name url st).
Local Abbreviation history st := (new_events st (snd (fetch st))).
Local Abbreviation attempted st status elapsed attempt err :=
  (log_request E endpoint_name url status elapsed attempt err
     (emit (EGet url) (emit EWait st))).
Local Abbreviation overflow_error :=
  (unexpected_error "OverflowError" Backoff.overflow_message).
Local Abbreviation delay_after :=
  (fun j => if retryable (response w j) then backoff_of cfg w j else None).

(** The history of an attempt that logs its row, sleeps and goes on. *)
Lemma retried_step (a : Z) (s : state) res status elapsed err q :
  loop 1 a s = (res, emit (ESleep q) (attempted s status elapsed a err)) ->
  let p := row_at (clock_reads s) status elapsed a err in
  hist 1 a s = [EWait; EGet url; ELog (fst p) (snd p); ESleep q].
Proof.
  intros H p. rewrite H. cbn [snd].
  apply (logs_only_new_events E endpoint_name url).
  change [EWait; EGet url; ELog (fst p) (snd p); ESleep q]
    with ([EWait; EGet url; ELog (fst p) (snd p)] ++ [ESleep q])%list.
  eapply logs_only_trans; [apply attempted_grows |].
  apply logs_only_emit; reflexivity.
Qed.

(** The history of an attempt whose backoff overflows inside the [try]. *)
Lemma overflow_step (a : Z) (s : state) res status elapsed err status2 elapsed2 err2 :
  loop 1 a s
  = (res, log_request E endpoint_name url status2 elapsed2 a err2
            (attempted s status elapsed a err)) ->
  let p := row_at (clock_reads s) status elapsed a err in
  let p2 := row_at (S (clock_reads s)) status2 elapsed2 a err2 in
  hist 1 a s = [EWait; EGet url; ELog (fst p) (snd p); ELog (fst p2) (snd p2)].
Proof.
  intros H p p2. rewrite H. cbn [snd].
  apply (logs_only_new_events E endpoint_name url).
  change [EWait; EGet url; ELog (fst p) (snd p); ELog (fst p2) (snd p2)]
    with ([EWait; EGet url; ELog (fst p) (snd p)] ++ [ELog (fst p2) (snd p2)])%list.
  eapply logs_only_trans; [apply attempted_grows |].
  apply (logs_only_log E endpoint_name url (attempted s status elapsed a err)).
Qed.

(** The first row of an attempt that met a timeout or a network error. *)
Lemma network_row (a : Z) (s : state) (kind : string) (el : Z) :
  response w a = RaisedNetwork kind el ->
  head (logged (hist 1 a s))
  = Some (row_at (clock_reads s) None el a (Some ("network:" ++ kind))).
Proof.
  intros Hresp. destruct (backoff_of cfg w a) as [q |] eqn:Hq.
  - erewrite retried_step; [reflexivity |].
    cbn [fetch_loop]. rewrite Hresp, Hq. reflexivity.
  - erewrite final_step; [reflexivity |].
    cbn [fetch_loop]. rewrite Hresp, Hq. reflexivity.
Qed.

Lemma retryable_tests (code : Z) :
  code = 429 \/ 500 <= code <= 599 ->
  (code =? 401) || (code =? 403) = false /\
  (code =? 429) || ((500 <=? code) && (code <=? 599)) = true.
Proof.
  intros H.
  replace (code =? 401) with false by (symmetry; apply Z.eqb_neq; lia).
  replace (code =? 403) with false by (symmetry; apply Z.eqb_neq; lia).
  split; [reflexivity |]. destruct H as [-> | H]; [reflexivity |].
  replace (500 <=? code) with true by (symmetry; apply Z.leb_le; lia).
  replace (code <=? 599) with true by (symmetry; apply Z.leb_le; lia).
  apply orb_true_r.
Qed.

(** The first row of an attempt that met status 429 or 5xx. *)
Lemma retryable_status_row (a : Z) (s : state) (code : Z) (b : body) (el : Z) :
  response w a = Responded code b el ->
  code = 429 \/ 500 <= code <= 599 ->
  head (logged (hist 1 a s))
  = Some (row_at (clock_reads s) (Some code) el a
            (Some ("retryable_status:" ++ str_int code))).
Proof.
  intros Hresp Hcode. destruct (retryable_tests code Hcode) as [H1 H2].
  destruct (backoff_of cfg w a) as [q |] eqn:Hq.
  - erewrite retried_step; [reflexivity |].
    cbn [fetch_loop]. rewrite Hresp, H1, H2, Hq. reflexivity.
  - erewrite overflow_step; [reflexivity |].
    cbn [fetch_loop]. rewrite Hresp, H1, H2, Hq. reflexivity.
Qed.

(** The sleeps of a run: one after each attempt that was a retryable
    failure and whose backoff was computed. *)
Lemma fetch_sleeps (st : state) :
  sleeps (history st)
  = omap delay_after (attempts_from 1 (length (gets (history st)))).
Proof. apply loop_sleeps. Qed.

(** The row of attempt [n] is the [n]-th of the run, whatever it is. *)
Lemma row_of_attempt (st : state) (n : nat) :
  reached cfg w (Z.of_nat n) ->
  exists p s, logged (history st) !! (n - 1)%nat = Some p /\
              head (logged (hist 1 (Z.of_nat n) s)) = Some p.
Proof.
  intros Hreach.
  pose proof (proj1 (reached_made E cfg w endpoint_name url st n) Hreach) as [H1 Hn].
  pose proof (loop_rows E cfg w endpoint_name url (Z.to_nat (max_retries cfg)) 1 st)
    as Hrows.
  cbv zeta in Hrows. destruct Hrows as (_ & _ & Hheads & Hlen & _).
  unfold fetch_json_with_retries in *.
  set (h := new_events st (snd (loop (Z.to_nat (max_retries cfg)) 1 st))) in *.
  set (k := length (gets h)) in *.
  assert (Hj : attempts_from 1 k !! (n - 1)%nat = Some (Z.of_nat n)).
  { rewrite attempts_from_lookup by lia. f_equal. lia. }
  destruct (Forall2_lookup_l _ _ _ _ _ Hheads Hj) as (p & Hp & s & Hs).
  exists p, s. split; [| exact Hs].
  rewrite lookup_take_lt in Hp by lia. exact Hp.
Qed.

(** The sleep after attempt [n] is the [n]-th of the run. *)
Lemma sleep_of_attempt (st : state) (n : nat) (q : Q) :
  reached cfg w (Z.of_nat n) ->
  retryable (response w (Z.of_nat n)) = true ->
  backoff_of cfg w (Z.of_nat n) = Some q ->
  sleeps (history st) !! (n - 1)%nat = Some q.
Proof.
  intros Hreach Hretry Hq.
  pose proof (proj1 (reached_made E cfg w endpoint_name url st n) Hreach) as [H1 Hn].
  rewrite fetch_sleeps.
  set (k := length (gets (history st))) in *.
  replace k with (n + (k - n))%nat by lia.
  rewrite attempts_from_app, omap_app.
  assert (Hall : Forall2 (fun x y => delay_after x = Some y) (attempts_from 1 n)
                   (omap delay_after (attempts_from 1 n))).
  { apply omap_all_some. intros j Hj. apply attempts_from_range in Hj.
    destruct (Z.eq_dec j (Z.of_nat n)) as [-> | Hne].
    - rewrite Hretry, Hq. eauto.
    - pose proof Hreach as (_ & H1025 & Hpre).
      assert (Hr : retryable (response w j) = true) by (apply classify_retryable, Hpre; lia).
      rewrite Hr. destruct (backoff_of_some cfg w j) as [q' Hq']; [lia |].
      rewrite Hq'. eauto. }
  assert (Hj : attempts_from 1 n !! (n - 1)%nat = Some (Z.of_nat n)).
  { rewrite attempts_from_lookup by lia. f_equal. lia. }
  destruct (Forall2_lookup_l _ _ _ _ _ Hall Hj) as (q' & Hq' & Hd).
  rewrite Hretry, Hq in Hd. injection Hd as <-.
  apply lookup_app_l_Some. exact Hq'.
Qed.

(** The attempt numbers of the rows, when no attempt logged a second row. *)
Lemma fetch_row_attempts (st : state) :
  length (logged (history st)) = length (gets (history st)) ->
  map (fun p => rq_attempt (snd p)) (logged (history st))
  = attempts_from 1 (length (gets (history st))).
Proof.
  intros Hlen.
  pose proof (loop_rows E cfg w endpoint_name url (Z.to_nat (max_retries cfg)) 1 st)
    as Hrows.
  cbv zeta in Hrows. destruct Hrows as (_ & _ & Hheads & _).
  unfold fetch_json_with_retries in *.
  set (h := new_events st (snd (loop (Z.to_nat (max_retries cfg)) 1 st))) in *.
  rewrite <- Hlen, firstn_all in Hheads. rewrite <- Hlen.
  symmetry. apply list_eq_Forall2. apply Forall2_fmap_r.
  eapply Forall2_impl; [exact Hheads |].
  intros j p (s & Hs). cbn beta.
  destruct (block_facts E cfg w endpoint_name url j s) as (_ & _ & _ & Hatt & _).
  cbv zeta in Hatt.
  destruct (logged (new_events s (snd (loop 1 j s)))) as [| p' l]; [discriminate |].
  injection Hs as ->. apply Forall_cons in Hatt as [Hp _]. symmetry. exact Hp.
Qed.

End FetchOutcomes.

Section SubstringFacts.




End SubstringFacts.

Section Outcomes.

Context (E : Env) (cfg : CollectorConfig) (w : world) (endpoint_name url : string).

Local Abbreviation loop := (fetch_loop E cfg w endpoint_name url).
Local Abbreviation grows := (logs_only E endpoint_name url).
Local Abbreviation row_at := (row_at E endpoint_name url).
Local Abbreviation hist r a st := (new_events st (snd (loop r a st))).
Local Abbreviation fetch st := (fetch_json_with_retries E cfg w endpoint_name url st).
Local Abbreviation history st := (new_events st (snd (fetch st))).
Local Abbreviation attempted st status elapsed attempt err :=
  (log_request E endpoint_name url status elapsed attempt err
     (emit (EGet url) (emit EWait st))).
Local Abbreviation overflow_error :=
  (unexpected_error "OverflowError" Backoff.overflow_message).
Local Abbreviation delay_after :=
  (fun j => if retryable (response w j) then backoff_of cfg w j else None).

(** An attempt that is retried returns nothing by itself. *)
Lemma retried_result (a : Z) (s : state) :
  retryable (response w a) = true -> a <= 1024 -> fst (loop 1 a s) = Ok None.
Proof.
  intros Hr Ha.
  destruct (single_attempt E cfg w endpoint_name url a s)
    as (status & elapsed & err & [(Hf & _) | [(_ & q & _ & Heq) | [H | H]]]).
  - congruence.
  - rewrite Heq. reflexivity.
  - destruct H as (_ & Hnone & _). apply (backoff_of_none cfg w) in Hnone. lia.
  - destruct H as (_ & Hnone & _). apply (backoff_of_none cfg w) in Hnone. lia.
Qed.

(** The delays of [m] attempts that are all retried. *)
Lemma delays_of (m : nat) :
  (forall j, 1 <= j <= Z.of_nat m -> retryable (response w j) = true /\ j <= 1024) ->
  Forall2 (fun j s => backoff_of cfg w j = Some s) (attempts_from 1 m)
    (omap delay_after (attempts_from 1 m)).
Proof.
  intros Hall.
  eapply Forall2_impl_in; [apply omap_all_some |].
  - intros j Hj. apply attempts_from_range in Hj.
    destruct (Hall j) as [Hr Hle]; [lia |]. rewrite Hr.
    destruct (backoff_of_some cfg w j Hle) as [q Hq]. rewrite Hq. eauto.
  - intros j s Hj Hd. apply attempts_from_range in Hj. cbn beta in Hd.
    destruct (Hall j) as [Hr _]; [lia |]. rewrite Hr in Hd. exact Hd.
Qed.

Lemma reached_retried (n : nat) (j : Z) :
  reached cfg w (Z.of_nat n) -> 1 <= j < Z.of_nat n ->
  retryable (response w j) = true /\ j <= 1024.
Proof.
  intros (_ & H1025 & Hpre) Hj. split; [apply classify_retryable, Hpre; exact Hj | lia].
Qed.

(** The sleeps of a run that ends at an attempt followed by no sleep. *)
Lemma sleeps_before_last (st : state) (n : nat) :
  reached cfg w (Z.of_nat n) ->
  gets (history st) = replicate n url ->
  delay_after (Z.of_nat n) = None ->
  Forall2 (fun j s => backoff_of cfg w j = Some s) (attempts_from 1 (n - 1))
    (sleeps (history st)).
Proof.
  intros Hreach Hg Hnone.
  assert (Hn : (1 <= n)%nat) by (destruct Hreach as [? _]; lia).
  rewrite fetch_sleeps, Hg, length_replicate.
  replace n with ((n - 1) + 1)%nat at 2 by lia.
  rewrite attempts_from_app, omap_app.
  replace (1 + Z.of_nat (n - 1)) with (Z.of_nat n) by lia.
  change (attempts_from (Z.of_nat n) 1) with [Z.of_nat n].
  rewrite (omap_none delay_after [Z.of_nat n]), app_nil_r.
  - apply delays_of. intros j Hj. apply (reached_retried n); [exact Hreach | lia].
  - intros x Hx. apply list_elem_of_singleton in Hx. subst x. exact Hnone.
Qed.

(** X4. When every allowed attempt is a retryable failure and at most
    1024 attempts are allowed, the run makes [max_retries] GETs, logs one
    row per attempt and returns no payload; it sleeps after every attempt,
    the last one included, for the backoff delay of that attempt, before
    it returns, and it stores no event. *)
Theorem retries_exhausted (st : state) :
  1 <= max_retries cfg <= 1024 ->
  (forall j, 1 <= j <= max_retries cfg -> classify (response w j) = RetryableFailure) ->
  let r := fetch st in
  let tr := new_events st (snd r) in
  let n := Z.to_nat (max_retries cfg) in
  fst r = Ok None /\
  gets tr = replicate n url /\
  map (fun p => rq_attempt (snd p)) (logged tr) = attempts_from 1 n /\
  Forall2 (fun j s => backoff_of cfg w j = Some s) (attempts_from 1 n) (sleeps tr) /\
  stored tr = [] /\ raw_events (snd r) = raw_events st.
Proof.
  intros Hmax Hall r tr n. subst r tr.
  assert (Hreach : reached cfg w (Z.of_nat n)).
  { split; [lia |]. split; [lia |]. intros j Hj. apply Hall. lia. }
  destruct (fetch_ends_at E cfg w endpoint_name url st n Hreach)
    as (Hg & s & tr0 & _ & _ & _ & Hrun & _); [right; lia |].
  destruct (fetch_grows E cfg w endpoint_name url st) as (_ & _ & Hre & _ & Hst & _).
  destruct (fetch_counts E cfg w endpoint_name url st) as (k & Hg' & _ & _ & Heq).
  assert (Hk : k = n).
  { rewrite Hg in Hg'. apply (f_equal (@length string)) in Hg'.
    rewrite !length_replicate in Hg'. congruence. }
  subst k.
  split.
  { rewrite Hrun. apply retried_result; [apply classify_retryable, Hall |]; lia. }
  split; [exact Hg |].
  split.
  { rewrite fetch_row_attempts; rewrite Hg, length_replicate; [reflexivity |].
    apply Heq. lia. }
  split.
  { rewrite fetch_sleeps, Hg, length_replicate. apply delays_of.
    intros j Hj. split; [apply classify_retryable, Hall |]; lia. }
  split; assumption.
Qed.

(** X5. A run that ends at an attempt [n] that is reached, with an outcome
    that is not retryable, has slept [n - 1] times, once after each of the
    earlier attempts, for the backoff delay of that attempt, and has
    logged one row per attempt. *)
Theorem backoff_schedule (st : state) (n : nat) :
  reached cfg w (Z.of_nat n) ->
  classify (response w (Z.of_nat n)) <> RetryableFailure ->
  let tr := new_events st (snd (fetch st)) in
  Forall2 (fun j s => backoff_of cfg w j = Some s) (attempts_from 1 (n - 1)) (sleeps tr) /\
  gets tr = replicate n url /\
  map (fun p => rq_attempt (snd p)) (logged tr) = attempts_from 1 n.
Proof.
  intros Hreach Hlast tr. subst tr.
  assert (Hn : (1 <= n)%nat) by (destruct Hreach as [? _]; lia).
  apply not_retryable in Hlast.
  assert (Hoff : goes_on cfg w (Z.of_nat n) = false).
  { unfold goes_on. rewrite Hlast. reflexivity. }
  destruct (fetch_ends_at E cfg w endpoint_name url st n Hreach (or_introl Hoff))
    as (Hg & s & tr0 & _ & _ & Hl0 & _ & Hhist).
  split.
  { apply sleeps_before_last; [exact Hreach | exact Hg |]. rewrite Hlast. reflexivity. }
  split; [exact Hg |].
  assert (Hlen : length (logged (history st)) = n).
  { rewrite Hhist, logged_app, length_app, Hl0.
    destruct (hist_1 E cfg w endpoint_name url (Z.of_nat n) s)
      as (status & elapsed & err & tail & Hh & [(_ & ->) | [H | [H | H]]]);
      [| destruct H as (H & _); congruence ..].
    rewrite Hh. cbn. lia. }
  rewrite fetch_row_attempts; rewrite Hg, length_replicate; [reflexivity | exact Hlen].
Qed.

(** X6. With a non-negative base, cap and jitter ratio, every backoff
    sleep of a run lasts between 0 and [cap * (1 + jitter_ratio)] seconds,
    there are at most [max_retries] of them, and the run sleeps at most
    [max_retries * cap * (1 + jitter_ratio)] seconds in backoff. *)
Theorem backoff_sleeps_bounded (st : state) :
  (0 <= backoff_base_s cfg)%Q -> (0 <= backoff_cap_s cfg)%Q ->
  (0 <= jitter_ratio cfg)%Q ->
  (forall j, 0 <= random_k w j < Z.pos Backoff.python_resolution) ->
  let tr := new_events st (snd (fetch st)) in
  let bound := (backoff_cap_s cfg * (1 + jitter_ratio cfg))%Q in
  Forall (fun s => (0 <= s)%Q /\ (s <= bound)%Q) (sleeps tr) /\
  (length (sleeps tr) <= Z.to_nat (max_retries cfg))%nat /\
  (Backoff.Qsum (sleeps tr) <= inject_Z (Z.max 0 (max_retries cfg)) * bound)%Q.
Proof.
  intros Hb Hc Hj Hk tr bound.
  destruct (fetch_counts E cfg w endpoint_name url st) as (k & Hg & Hle & _).
  assert (Hall : Forall (fun s => (0 <= s)%Q /\ (s <= bound)%Q) (sleeps tr)).
  { apply List.Forall_forall. intros s Hs. apply list_elem_of_In in Hs.
    unfold tr in Hs. rewrite fetch_sleeps in Hs.
    apply omap_elem in Hs as (j & _ & Hd). cbn beta in Hd.
    destruct (retryable (response w j)); [| discriminate].
    unfold backoff_of in Hd.
    destruct (unit_draw_range Backoff.python_resolution (random_k w j) (Hk j))
      as [Hu0 Hu1].
    exact (compute_backoff_bounds _ _ _ _ _ _ Hb Hc Hj Hu0 Hu1 Hd). }
  assert (Hlen : (length (sleeps tr) <= Z.to_nat (max_retries cfg))%nat).
  { unfold tr. rewrite fetch_sleeps, Hg, length_replicate.
    etransitivity; [apply omap_length_le |].
    rewrite attempts_from_length. exact Hle. }
  split; [exact Hall |]. split; [exact Hlen |].
  assert (Hbound : (0 <= bound)%Q).
  { unfold bound. apply Qmult_le_0_compat; [exact Hc | lra]. }
  assert (Hsum : (Backoff.Qsum (sleeps tr)
                  <= inject_Z (Z.of_nat (length (sleeps tr))) * bound)%Q).
  { apply Qsum_bounded. eapply List.Forall_impl; [| exact Hall].
    intros s [_ Hs]. exact Hs. }
  assert (Hn : (inject_Z (Z.of_nat (length (sleeps tr)))
                <= inject_Z (Z.max 0 (max_retries cfg)))%Q).
  { rewrite <- Zle_Qle. lia. }
  eapply Qle_trans; [exact Hsum |].
  apply Qmult_le_compat_r; assumption.
Qed.

(** X7. When an attempt that is reached receives a 2xx status and a body
    that parses, the function returns the decoded body ([None] for the
    body [null]) and that attempt is the last; its [log_request] call is
    the last of the run and carries the status, the elapsed time of that
    attempt and no error; afterwards the table holds a row under the id of
    the call, the row of the call when the id was free before it. *)
Theorem success_returns_body (st : state) (n : nat) (code : Z) (data : json)
    (elapsed : Z) :
  reached cfg w (Z.of_nat n) ->
  response w (Z.of_nat n) = Responded code (ParsesTo data) elapsed ->
  200 <= code <= 299 ->
  let r := fetch st in
  let tr := new_events st (snd r) in
  let p := row_at (clock_reads st + (n - 1))%nat (Some code) elapsed (Z.of_nat n) None in
  fst r = Ok (py_optional data) /\ gets tr = replicate n url /\
  length (logged tr) = n /\ stored tr = [] /\
  exists earlier,
    logged tr = (earlier ++ [p])%list /\
    is_Some (request_log (snd r) !! fst p) /\
    (replay_logs (request_log st) earlier !! fst p = None ->
     request_log (snd r) !! fst p = Some (snd p)).
Proof.
  intros Hreach Hresp Hcode r tr p. subst r tr p.
  destruct (success_tests code Hcode) as (H1 & H2 & Hok).
  assert (Hoff : goes_on cfg w (Z.of_nat n) = false).
  { unfold goes_on, retryable, classify. rewrite Hresp, H1, H2, Hok. reflexivity. }
  destruct (run_ends_with E cfg w endpoint_name url st n (Ok (py_optional data))
              (Some code) elapsed None Hreach Hoff)
    as (Hres & Hg & Hlen & Hst & _ & _ & _ & earlier & Hlog & _ & Hin & Hrow).
  { intros s. cbn [fetch_loop]. rewrite Hresp, H1, H2, Hok. reflexivity. }
  repeat (split; [assumption |]).
  exists earlier. repeat split; assumption.
Qed.

(** X8. A status that is neither 2xx nor 401, 403, 429 or 5xx (a redirect
    or another client error, say), at an attempt that is reached, ends the
    run at once: no payload, no further attempt, no event, and a last
    [log_request] call with the status and the error [http_status:<code>];
    afterwards the table holds a row under the id of the call, the row of
    the call when the id was free before it. *)
Theorem other_status_is_terminal (st : state) (n : nat) (code : Z) (b : body)
    (elapsed : Z) :
  reached cfg w (Z.of_nat n) ->
  response w (Z.of_nat n) = Responded code b elapsed ->
  code < 200 \/ 300 <= code < 500 \/ 600 <= code ->
  code <> 401 -> code <> 403 -> code <> 429 ->
  let r := fetch st in
  let tr := new_events st (snd r) in
  let p := row_at (clock_reads st + (n - 1))%nat (Some code) elapsed (Z.of_nat n)
             (Some ("http_status:" ++ str_int code)) in
  fst r = Ok None /\ gets tr = replicate n url /\ length (logged tr) = n /\
  stored tr = [] /\
  exists earlier,
    logged tr = (earlier ++ [p])%list /\
    is_Some (request_log (snd r) !! fst p) /\
    (replay_logs (request_log st) earlier !! fst p = None ->
     request_log (snd r) !! fst p = Some (snd p)).
Proof.
  intros Hreach Hresp Hcode H401 H403 H429 r tr p. subst r tr p.
  destruct (status_tests code H401 H403 H429) as [H1 H2]; [lia |].
  assert (Hbad : negb (is_success code) = true).
  { unfold is_success. apply negb_true_iff, andb_false_iff.
    destruct (Z_lt_le_dec code 200) as [Hlo | Hhi];
      [left; apply Z.leb_gt; lia | right; apply Z.leb_gt; lia]. }
  assert (Hoff : goes_on cfg w (Z.of_nat n) = false).
  { unfold goes_on, retryable, classify. rewrite Hresp, H1, H2, Hbad. reflexivity. }
  destruct (run_ends_with E cfg w endpoint_name url st n (Ok None)
              (Some code) elapsed (Some ("http_status:" ++ str_int code)) Hreach Hoff)
    as (Hres & Hg & Hlen & Hst & _ & _ & _ & earlier & Hlog & _ & Hin & Hrow).
  { intros s. cbn [fetch_loop]. rewrite Hresp, H1, H2, Hbad. reflexivity. }
  repeat (split; [assumption |]).
  exists earlier. repeat split; assumption.
Qed.


(** What follows a retryable failure at an attempt up to the 1024th. *)
Lemma retried_then (st : state) (n : nat) :
  reached cfg w (Z.of_nat n) ->
  retryable (response w (Z.of_nat n)) = true ->
  Z.of_nat n <= 1024 ->
  exists q, backoff_of cfg w (Z.of_nat n) = Some q /\
            sleeps (history st) !! (n - 1)%nat = Some q /\
            (Z.of_nat n < max_retries cfg -> (n < length (gets (history st)))%nat).
Proof.
  intros Hreach Hretry Hle.
  destruct (backoff_of_some cfg w (Z.of_nat n) Hle) as [q Hq].
  exists q. split; [exact Hq |].
  split; [apply sleep_of_attempt; assumption |].
  intros Hmore.
  assert (Hnext : reached cfg w (Z.of_nat (S n))).
  { destruct Hreach as (Hn & _ & Hpre). split; [lia |]. split; [lia |].
    intros j Hj. destruct (Z.eq_dec j (Z.of_nat n)) as [-> | Hne].
    - apply classify_retryable, Hretry.
    - apply Hpre. lia. }
  apply (reached_made E cfg w endpoint_name url st (S n)) in Hnext. lia.
Qed.

(** What the 1025th attempt leaves behind when it is a retryable failure. *)
Lemma overflow_at_last (st : state) (n : nat) :
  reached cfg w (Z.of_nat n) -> Z.of_nat n = 1025 ->
  gets (history st) = replicate n url /\
  length (sleeps (history st)) = (n - 1)%nat /\
  exists s tr0,
    clock_reads s = (clock_reads st + (n - 1))%nat /\
    length (logged tr0) = (n - 1)%nat /\
    fetch st = loop 1 (Z.of_nat n) s /\
    logged (history st) = (logged tr0 ++ logged (hist 1 (Z.of_nat n) s))%list.
Proof.
  intros Hreach Hn.
  assert (Hnone : backoff_of cfg w (Z.of_nat n) = None)
    by (apply (backoff_of_none cfg w); lia).
  assert (Hoff : goes_on cfg w (Z.of_nat n) = false).
  { unfold goes_on. rewrite Hnone. apply andb_false_r. }
  destruct (fetch_ends_at E cfg w endpoint_name url st n Hreach (or_introl Hoff))
    as (Hg & s & tr0 & Hgr & _ & Hl0 & Hrun & Hhist).
  split; [exact Hg |].
  split.
  { assert (Hd : delay_after (Z.of_nat n) = None).
    { cbn beta. rewrite Hnone. destruct (retryable (response w (Z.of_nat n))); reflexivity. }
    pose proof (sleeps_before_last st n Hreach Hg Hd) as Hall.
    apply Forall2_length in Hall. rewrite attempts_from_length in Hall.
    symmetry. exact Hall. }
  exists s, tr0.
  split; [destruct Hgr as (_ & _ & _ & Hc & _); rewrite Hc, Hl0; reflexivity |].
  split; [exact Hl0 |]. split; [exact Hrun |].
  rewrite Hhist, logged_app. reflexivity.
Qed.

(** X10. A timeout or a network error of the GET at an attempt that is
    reached is logged with no status and the error [network:<kind>]. Up to
    the 1024th attempt it is followed by the backoff sleep of that attempt
    and, unless it was the last attempt allowed, by the next attempt. At
    the 1025th attempt the backoff cannot be computed: the [OverflowError]
    leaves the function, after 1025 GETs and rows and 1024 sleeps. *)
Theorem network_error_is_retried (st : state) (n : nat) (kind : string) (elapsed : Z) :
  reached cfg w (Z.of_nat n) ->
  response w (Z.of_nat n) = RaisedNetwork kind elapsed ->
  let r := fetch st in
  let tr := new_events st (snd r) in
  (exists clock,
     logged tr !! (n - 1)%nat
     = Some (row_at clock None elapsed (Z.of_nat n) (Some ("network:" ++ kind)))) /\
  (Z.of_nat n <= 1024 ->
   exists q, backoff_of cfg w (Z.of_nat n) = Some q /\
             sleeps tr !! (n - 1)%nat = Some q /\
             (Z.of_nat n < max_retries cfg -> (n < length (gets tr))%nat)) /\
  (Z.of_nat n = 1025 ->
   fst r = Raised OverflowError /\ gets tr = replicate n url /\
   length (logged tr) = n /\ length (sleeps tr) = (n - 1)%nat).
Proof.
  intros Hreach Hresp r tr. subst r tr.
  assert (Hretry : retryable (response w (Z.of_nat n)) = true).
  { unfold retryable, classify. rewrite Hresp. reflexivity. }
  split.
  { destruct (row_of_attempt E cfg w endpoint_name url st n Hreach) as (p & s & Hp & Hs).
    rewrite (network_row E cfg w endpoint_name url _ s kind elapsed Hresp) in Hs.
    injection Hs as <-. exists (clock_reads s). exact Hp. }
  split; [apply retried_then; assumption |].
  intros Hn.
  destruct (overflow_at_last st n Hreach Hn)
    as (Hg & Hsl & s & tr0 & _ & Hl0 & Hrun & Hlog).
  assert (Hnone : backoff_of cfg w (Z.of_nat n) = None)
    by (apply (backoff_of_none cfg w); lia).
  assert (Hstep : loop 1 (Z.of_nat n) s
                  = (Raised OverflowError,
                     attempted s None elapsed (Z.of_nat n) (Some ("network:" ++ kind)))).
  { cbn [fetch_loop]. rewrite Hresp, Hnone. reflexivity. }
  split; [rewrite Hrun, Hstep; reflexivity |].
  split; [exact Hg |]. split; [| exact Hsl].
  rewrite Hlog, length_app, Hl0.
  rewrite (final_step E cfg w endpoint_name url _ s _ _ _ _ Hstep).
  assert (H1 : (1 <= n)%nat) by lia. cbn [logged length]. 
  change (length (logged [EWait; EGet url; ELog _ _])) with 1%nat. lia.
Qed.

(** X11. Status 429 or 5xx at an attempt that is reached is logged with
    the status and the error [retryable_status:<code>], whatever the body.
    Up to the 1024th attempt it is followed by the backoff sleep of that
    attempt and, unless it was the last attempt allowed, by the next
    attempt. At the 1025th attempt the backoff cannot be computed: the
    [OverflowError] is caught, a second row is logged for the attempt with
    the error [unexpected:OverflowError:int too large to convert to float]
    and the elapsed time measured then, and the function returns no
    payload, after 1025 GETs, 1026 rows and 1024 sleeps. *)
Theorem retryable_status_is_retried (st : state) (n : nat) (code : Z) (b : body)
    (elapsed : Z) :
  reached cfg w (Z.of_nat n) ->
  response w (Z.of_nat n) = Responded code b elapsed ->
  code = 429 \/ 500 <= code <= 599 ->
  let r := fetch st in
  let tr := new_events st (snd r) in
  let first := row_at (clock_reads st + (n - 1))%nat (Some code) elapsed (Z.of_nat n)
                 (Some ("retryable_status:" ++ str_int code)) in
  let second := row_at (clock_reads st + n)%nat (Some code)
                  (late_elapsed_ms w (Z.of_nat n)) (Z.of_nat n)
                  (Some "unexpected:OverflowError:int too large to convert to float") in
  (exists clock,
     logged tr !! (n - 1)%nat
     = Some (row_at clock (Some code) elapsed (Z.of_nat n)
               (Some ("retryable_status:" ++ str_int code)))) /\
  (Z.of_nat n <= 1024 ->
   exists q, backoff_of cfg w (Z.of_nat n) = Some q /\
             sleeps tr !! (n - 1)%nat = Some q /\
             (Z.of_nat n < max_retries cfg -> (n < length (gets tr))%nat)) /\
  (Z.of_nat n = 1025 ->
   fst r = Ok None /\ gets tr = replicate n url /\
   length (sleeps tr) = (n - 1)%nat /\
   exists earlier,
     length earlier = (n - 1)%nat /\
     logged tr = (earlier ++ [first; second])%list).
Proof.
  intros Hreach Hresp Hcode r tr first second. subst r tr first second.
  destruct (retryable_tests code Hcode) as [H1 H2].
  assert (Hretry : retryable (response w (Z.of_nat n)) = true).
  { unfold retryable, classify. rewrite Hresp, H1, H2. reflexivity. }
  split.
  { destruct (row_of_attempt E cfg w endpoint_name url st n Hreach) as (p & s & Hp & Hs).
    rewrite (retryable_status_row E cfg w endpoint_name url _ s code b elapsed Hresp Hcode)
      in Hs.
    injection Hs as <-. exists (clock_reads s). exact Hp. }
  split; [apply retried_then; assumption |].
  intros Hn.
  destruct (overflow_at_last st n Hreach Hn)
    as (Hg & Hsl & s & tr0 & Hclock & Hl0 & Hrun & Hlog).
  assert (Hnone : backoff_of cfg w (Z.of_nat n) = None)
    by (apply (backoff_of_none cfg w); lia).
  assert (Hstep : loop 1 (Z.of_nat n) s
                  = (Ok None,
                     log_request E endpoint_name url (Some code)
                       (late_elapsed_ms w (Z.of_nat n)) (Z.of_nat n) (Some overflow_error)
                       (attempted s (Some code) elapsed (Z.of_nat n)
                          (Some ("retryable_status:" ++ str_int code))))).
  { cbn [fetch_loop]. rewrite Hresp, H1, H2, Hnone. reflexivity. }
  split; [rewrite Hrun, Hstep; reflexivity |].
  split; [exact Hg |]. split; [exact Hsl |].
  exists (logged tr0). split; [exact Hl0 |].
  rewrite Hlog.
  rewrite (overflow_step E cfg w endpoint_name url _ s _ _ _ _ _ _ _ Hstep).
  rewrite Hclock. replace (S (clock_reads st + (n - 1))) with (clock_reads st + n)%nat by lia.
  reflexivity.
Qed.

(** X25. No run makes more than 1025 attempts, whatever [max_retries]
    allows: it makes at most [max_retries] GETs and at most 1025, one
    [log_request] call per GET, and a second one for the 1025th only. *)
Theorem attempts_are_limited (st : state) :
  let tr := new_events st (snd (fetch st)) in
  let k := length (gets tr) in
  (Z.of_nat k <= Z.max 0 (max_retries cfg)) /\ (k <= 1025)%nat /\
  (k <= length (logged tr) <= S k)%nat /\
  ((k <= 1024)%nat -> length (logged tr) = k).
Proof.
  intros tr k. subst tr k.
  destruct (fetch_counts E cfg w endpoint_name url st) as (k & Hg & Hle & Hlen & Heq).
  rewrite Hg, length_replicate.
  split; [lia |]. split; [| split; assumption].
  destruct (Nat.eq_dec k 0%nat) as [-> | Hk]; [lia |].
  assert (Hreach : reached cfg w (Z.of_nat k)).
  { apply (reached_made E cfg w endpoint_name url st k).
    rewrite Hg, length_replicate. lia. }
  destruct Hreach as (_ & H1025 & _). lia.
Qed.

End Outcomes.

(** ** URL resolution *)

Section UrlFacts.

Implicit Types (ps : gmap string pyvalue) (s t pre post : string).

Lemma app_cons (c : ascii) (s t : string) : String c s ++ t = String c (s ++ t).
Proof. reflexivity. Qed.

Lemma app_empty_l (s : string) : "" ++ s = s.
Proof. reflexivity. Qed.

Lemma prepend_app s t (r : result string) :
  prepend s (prepend t r) = prepend (s ++ t) r.
Proof. destruct r; cbn [prepend]; [rewrite append_assoc_l |]; reflexivity. Qed.

Lemma prepend_empty (r : result string) : prepend "" r = r.
Proof. destruct r; reflexivity. Qed.

Lemma brace_free_cons (c : ascii) s :
  brace_free (String c s) = true ->
  (c =? "{")%char = false /\ (c =? "}")%char = false /\ brace_free s = true.
Proof.
  unfold brace_free. cbn [contains]. intros H.
  apply andb_true_iff in H as [H1 H2].
  apply negb_true_iff, orb_false_iff in H1 as [H1 H1'].
  apply negb_true_iff, orb_false_iff in H2 as [H2 H2'].
  rewrite H1', H2'. repeat split; assumption.
Qed.

(** Literal text is copied. *)
Lemma format_literal pre : forall t ps,
  brace_free pre = true ->
  format_from None (pre ++ t) ps = prepend pre (format_from None t ps).
Proof.
  induction pre as [| c pre IH]; intros t ps Hpre.
  - rewrite app_empty_l, prepend_empty. reflexivity.
  - apply brace_free_cons in Hpre as (Ho & Hc & Hpre).
    rewrite app_cons. cbn [format_from]. rewrite Ho, Hc, IH by exact Hpre.
    rewrite prepend_app. reflexivity.
Qed.

(** A replacement field with a plain name is looked up in the keyword
    arguments. *)
Lemma format_field k : forall acc post ps,
  plain_name k = true ->
  format_from (Some acc) (k ++ "}" ++ post) ps
  = match field_value (acc ++ k) ps with
    | Ok v => prepend v (format_from None post ps)
    | Raised e => Raised e
    end.
Proof.
  induction k as [| c k IH]; intros acc post ps Hk.
  - rewrite app_empty_l. change ("}" ++ post) with (String "}" post).
    cbn [format_from]. rewrite Ascii.eqb_refl.
    replace (acc ++ "") with acc; [reflexivity |].
    clear. induction acc as [| a acc IHa]; [reflexivity |].
    rewrite app_cons, <- IHa. reflexivity.
  - cbn [plain_name] in Hk. apply andb_true_iff in Hk as [Hk Hk'].
    apply andb_true_iff in Hk as [Hk Ha].
    apply andb_true_iff in Hk as [Hc Hs].
    apply negb_true_iff in Hc, Hs.
    rewrite app_cons. cbn [format_from]. rewrite Hc, Hs, Ha. cbn [orb negb].
    rewrite IH by exact Hk'.
    rewrite append_assoc_l. reflexivity.
Qed.

Lemma format_open (c : ascii) rest ps :
  (c =? "{")%char = false ->
  format_from None (String "{" (String c rest)) ps
  = format_from (Some "") (String c rest) ps.
Proof. intros H. cbn [format_from]. rewrite Ascii.eqb_refl, H. reflexivity. Qed.

Lemma format_placeholder pre k post ps :
  brace_free pre = true -> plain_name k = true ->
  format (pre ++ "{" ++ k ++ "}" ++ post) ps
  = prepend pre
      match field_value k ps with
      | Ok v => prepend v (format post ps)
      | Raised e => Raised e
      end.
Proof.
  intros Hpre Hk. unfold format. rewrite format_literal by exact Hpre.
  f_equal. change ("{" ++ k ++ "}" ++ post) with (String "{" (k ++ "}" ++ post)).
  transitivity (format_from (Some "") (k ++ "}" ++ post) ps);
    [| exact (format_field k "" post ps Hk)].
  destruct k as [| c k].
  - rewrite app_empty_l. apply (format_open "}"). reflexivity.
  - rewrite app_cons. apply format_open.
    cbn [plain_name] in Hk. apply andb_true_iff in Hk as [Hk _].
    apply andb_true_iff in Hk as [Hk _].
    apply andb_true_iff in Hk as [_ Hs]. apply negb_true_iff in Hs.
    unfold field_special in Hs. apply orb_false_iff in Hs as [_ Hs]. exact Hs.
Qed.

Lemma endswith_slash_snoc s : endswith_slash (s ++ "/") = true.
Proof.
  induction s as [| c s IH]; [reflexivity |].
  rewrite app_cons. destruct s as [| c' s']; [reflexivity |].
  rewrite app_cons in *. exact IH.
Qed.

Lemma app_empty_r s : s ++ "" = s.
Proof. induction s as [| c s IH]; [reflexivity | rewrite app_cons, IH; reflexivity]. Qed.

Lemma format_brace_free s ps : brace_free s = true -> format s ps = Ok s.
Proof.
  intros H. unfold format. rewrite <- (app_empty_r s) at 1.
  rewrite format_literal by exact H. cbn [format_from prepend].
  rewrite app_empty_r. reflexivity.
Qed.

(** X16. For a template without braces, [build_url] joins the base and the
    path with exactly one slash, whether or not the base ends with one and
    the path starts with one, and whatever [params] holds: parameters that
    the template does not name are dropped. *)
Theorem build_url_one_slash (b p : string) ps :
  brace_free p = true -> endswith_slash b = false -> startswith_slash p = false ->
  build_url b p ps = Ok (b ++ "/" ++ p) /\
  build_url (b ++ "/") p ps = Ok (b ++ "/" ++ p) /\
  build_url b ("/" ++ p) ps = Ok (b ++ "/" ++ p) /\
  build_url (b ++ "/") ("/" ++ p) ps = Ok (b ++ "/" ++ p).
Proof.
  intros Hp Hb Hs.
  assert (Hp' : brace_free ("/" ++ p) = true) by exact Hp.
  unfold build_url.
  rewrite (format_brace_free p ps Hp), (format_brace_free ("/" ++ p) ps Hp').
  rewrite Hb, endswith_slash_snoc. change ("/" ++ p) with (String "/" p).
  cbv iota beta zeta. rewrite Ascii.eqb_refl.
  assert (Hstrip : match p with
                   | String c rest => if (c =? "/")%char then rest else p
                   | EmptyString => p
                   end = p).
  { destruct p as [| c rest]; [reflexivity |]. cbn [startswith_slash] in Hs.
    rewrite Hs. reflexivity. }
  rewrite Hstrip.
  change (String "/" p) with ("/" ++ p). rewrite !append_assoc_l.
  repeat split; reflexivity.
Qed.

Lemma all_digits_not_empty k : all_digits k = false -> k <> "".
Proof. intros H ->. discriminate. Qed.

(** X17. A placeholder whose name is made of ASCII characters, is not a
    number and holds none of the characters that start an attribute, an
    index, a conversion or a format specification, and that [params] does
    not fill, makes [build_url] raise [KeyError] for that name, when only
    literal text stands before it, whatever follows it in the template. *)
Theorem missing_placeholder_raises (base pre k post : string) ps :
  brace_free pre = true -> plain_name k = true -> all_digits k = false ->
  ps !! k = None ->
  build_url base (pre ++ "{" ++ k ++ "}" ++ post) ps = Raised (KeyError k).
Proof.
  intros Hpre Hk Hd Hmiss. unfold build_url.
  rewrite (format_placeholder pre k post ps Hpre Hk).
  unfold field_value. rewrite Hd, Hmiss. reflexivity.
Qed.

(** X18. An empty or numeric placeholder is a positional field, and the
    template is formatted with keyword arguments only: [build_url] raises
    [IndexError], whatever [params] holds. The number has at most nine
    digits, so that it is an index on every platform. *)
Theorem positional_placeholder_raises (base pre k post : string) ps :
  brace_free pre = true -> all_digits k = true -> (String.length k <= 9)%nat ->
  build_url base (pre ++ "{" ++ k ++ "}" ++ post) ps = Raised IndexError.
Proof.
  intros Hpre Hd _. unfold build_url.
  assert (Hk : plain_name k = true).
  { clear - Hd. induction k as [| c k IH]; [reflexivity |].
    cbn [all_digits] in Hd. apply andb_true_iff in Hd as [Hc Hd].
    cbn [plain_name]. rewrite (IH Hd), andb_true_r.
    unfold is_digit in Hc. apply andb_true_iff in Hc as [Hlo Hhi].
    apply Nat.leb_le in Hlo, Hhi.
    assert (Hne : forall d : ascii,
              (nat_of_ascii d < 48 \/ 57 < nat_of_ascii d)%nat -> (c =? d)%char = false).
    { intros d Hdn. apply Ascii.eqb_neq. intros ->. lia. }
    unfold field_special.
    rewrite !Hne by (change (nat_of_ascii "."%char) with 46%nat; change (nat_of_ascii "["%char) with 91%nat; change (nat_of_ascii "!"%char) with 33%nat; change (nat_of_ascii ":"%char) with 58%nat; change (nat_of_ascii "{"%char) with 123%nat; change (nat_of_ascii "}"%char) with 125%nat; lia).
    unfold is_ascii. replace (nat_of_ascii c <? 128)%nat with true; [reflexivity |].
    symmetry. apply Nat.ltb_lt. lia. }
  rewrite (format_placeholder pre k post ps Hpre Hk).
  unfold field_value. rewrite Hd. reflexivity.
Qed.

(** X19. A placeholder with such an ASCII name that [params] fills is
    replaced by the [str] of its value, whatever the type of the value,
    copied as it is: the text is neither escaped nor formatted again, even
    when it holds braces, slashes or a question mark. With a base that has
    no trailing slash and a template that starts with one, the URL is the
    base followed by the filled template. *)
Theorem placeholder_is_filled_verbatim (base pre k post : string) ps (v : pyvalue) :
  brace_free pre = true -> plain_name k = true -> all_digits k = false ->
  brace_free post = true -> ps !! k = Some v ->
  format (pre ++ "{" ++ k ++ "}" ++ post) ps = Ok (pre ++ str_value v ++ post) /\
  (endswith_slash base = false ->
   build_url base ("/" ++ pre ++ "{" ++ k ++ "}" ++ post) ps
   = Ok (base ++ "/" ++ pre ++ str_value v ++ post)).
Proof.
  intros Hpre Hk Hd Hpost Hv.
  assert (Hfmt : forall pre', brace_free pre' = true ->
            format (pre' ++ "{" ++ k ++ "}" ++ post) ps
            = Ok (pre' ++ str_value v ++ post)).
  { intros pre' Hpre'. rewrite (format_placeholder pre' k post ps Hpre' Hk).
    unfold field_value. rewrite Hd, Hv, (format_brace_free post ps Hpost).
    reflexivity. }
  split; [apply Hfmt, Hpre |].
  intros Hb. unfold build_url.
  change ("/" ++ pre ++ "{" ++ k ++ "}" ++ post)
    with (("/" ++ pre) ++ "{" ++ k ++ "}" ++ post).
  rewrite (Hfmt ("/" ++ pre) Hpre), Hb.
  change (("/" ++ pre) ++ str_value v ++ post)
    with (String "/" (pre ++ str_value v ++ post)).
  cbv iota beta. rewrite Ascii.eqb_refl, append_assoc_l. reflexivity.
Qed.

End UrlFacts.

(** ** More on the backoff policy and on the rate limiter *)

Section BackoffGrowth.

Import Backoff.
Local Open Scope Q_scope.

Lemma pow2_double (a : Z) :
  (1 <= a)%Z -> inject_Z (2 ^ a) == 2 * inject_Z (2 ^ (a - 1)).
Proof.
  intros Ha. replace a with (Z.succ (a - 1)) at 1 by lia.
  rewrite Z.pow_succ_r by lia. rewrite inject_Z_mult. reflexivity.
Qed.

(** X20. For attempts up to the 1024th, the exponential part of the delay
    is computed; below the cap it doubles from one attempt to the next,
    starting from the base; from the attempt at which
    [base * 2^(attempt-1)] reaches the cap on, it is the cap; and with a
    jitter ratio of 0 the delay is the exponential part, whatever the
    draw. *)
Theorem backoff_doubles_until_cap (a : Z) (base cap u : Q) :
  (1 <= a)%Z -> (a < 1024)%Z -> 0 <= base ->
  exists first this next delay,
    exp_delay 1 base cap = Some first /\ first == Qmin cap base /\
    exp_delay a base cap = Some this /\
    exp_delay (a + 1) base cap = Some next /\
    (base * inject_Z (2 ^ a) <= cap -> next == 2 * this) /\
    (cap <= base * inject_Z (2 ^ (a - 1)) ->
     forall a', (a <= a' <= 1024)%Z ->
     exists later, exp_delay a' base cap = Some later /\ later == cap) /\
    compute_backoff_s a base cap 0 u = Some delay /\ delay == this.
Proof.
  intros Ha Hmax Hb.
  do 4 eexists.
  split; [apply exp_delay_computed; lia |].
  split.
  { change (inject_Z (2 ^ Z.max 0 (1 - 1))) with 1. rewrite Qmult_1_r. reflexivity. }
  split; [apply exp_delay_computed; lia |].
  split; [apply exp_delay_computed; lia |].
  replace (Z.max 0 (a + 1 - 1)) with a by lia.
  replace (Z.max 0 (a - 1)) with (a - 1)%Z by lia.
  split.
  { intros Hle.
    pose proof (pow2_double a Ha) as Hd.
    pose proof (pow2_nonneg (a - 1)) as Hp.
    set (x := inject_Z (2 ^ a)) in *. set (y := inject_Z (2 ^ (a - 1))) in *.
    assert (Hy : base * y <= cap) by nra.
    rewrite (Q.min_r cap (base * x)) by exact Hle.
    rewrite (Q.min_r cap (base * y)) by exact Hy.
    rewrite Hd. ring. }
  split.
  { intros Hcap a' Ha'. eexists. split; [apply exp_delay_computed; lia |].
    replace (Z.max 0 (a' - 1)) with (a' - 1)%Z by lia.
    apply Q.min_l.
    eapply Qle_trans; [exact Hcap |].
    rewrite (Qmult_comm base), (Qmult_comm base).
    apply Qmult_le_compat_r; [| exact Hb].
    rewrite <- Zle_Qle. apply Z.pow_le_mono_r; lia. }
  unfold compute_backoff_s. rewrite exp_delay_computed by lia.
  replace (Z.max 0 (a - 1)) with (a - 1)%Z by lia.
  split; [reflexivity |]. unfold jitter. ring.
Qed.

End BackoffGrowth.

Section LimiterRelease.

Import RateLimiter.
Local Open Scope Q_scope.

Lemma wait_keeps (e : lag) (lim : t) (clock : Q) :
  min_interval (fst (wait e (lim, clock))) = min_interval lim /\
  last_ts (fst (wait e (lim, clock))) = snd (wait e (lim, clock)).
Proof. split; reflexivity. Qed.

(** X21. A [wait()] on a limiter that has been idle for at least the
    minimum interval does not sleep: the caller is released as soon as the
    clock has been read. On a limiter that has not, the caller sleeps
    until one minimum interval after the last release, and for as long as
    the sleep overruns. In both cases the limiter keeps its interval and
    takes the release time as its new [_last_ts]. *)
Theorem wait_release_time (e : lag) (lim : t) (clock : Q) :
  let now := clock + before_now e in
  let s := wait e (lim, clock) in
  (min_interval lim <= now - last_ts lim -> snd s == now + before_stamp e) /\
  (now - last_ts lim < min_interval lim ->
   snd s == last_ts lim + min_interval lim + oversleep e + before_stamp e) /\
  min_interval (fst s) = min_interval lim /\ last_ts (fst s) = snd s.
Proof.
  intros now s. unfold s, wait. cbv zeta. fold now.
  destruct (Qltb (now - last_ts lim) (min_interval lim)) eqn:Hlt; cbn [fst snd].
  - apply Qltb_true in Hlt.
    split; [intros H; lra |]. split; [intros _; ring |]. split; reflexivity.
  - apply Qltb_false in Hlt.
    split; [intros _; reflexivity |]. split; [intros H; lra |]. split; reflexivity.
Qed.

Lemma wait_no_lag (lim : t) (clock : Q) :
  0 < min_interval lim -> last_ts lim = clock ->
  last_ts (fst (wait no_lag (lim, clock))) == clock + min_interval lim /\
  snd (wait no_lag (lim, clock)) = last_ts (fst (wait no_lag (lim, clock))) /\
  min_interval (fst (wait no_lag (lim, clock))) = min_interval lim.
Proof.
  intros Hd Hlast. unfold wait, no_lag. cbn [before_now oversleep before_stamp].
  rewrite Hlast.
  destruct (Qltb (clock + 0 - clock) (min_interval lim)) eqn:Hlt; cbn [fst snd last_ts].
  - split; [ring | split; reflexivity].
  - apply Qltb_false in Hlt. split; [lra | split; reflexivity].
Qed.

Lemma waits_no_lag (n : nat) : forall (lim : t) (clock : Q),
  0 < min_interval lim -> last_ts lim = clock ->
  evenly_spaced (min_interval lim) (fst (waits (replicate n no_lag) (lim, clock))) /\
  (forall r, head (fst (waits (replicate n no_lag) (lim, clock))) = Some r ->
     r == clock + min_interval lim).
Proof.
  induction n as [| n IH]; intros lim clock Hd Hlast; [split; [exact I | discriminate] |].
  cbn [replicate waits].
  destruct (wait_no_lag lim clock Hd Hlast) as (Hrel & Hsnd & Hmin).
  destruct (wait no_lag (lim, clock)) as [lim1 clock1] eqn:Hw. cbn [fst snd] in *.
  destruct (IH lim1 clock1) as [Hev Hhead]; [rewrite Hmin; exact Hd | congruence |].
  destruct (waits (replicate n no_lag) (lim1, clock1)) as [rs s2]. cbn [fst] in *.
  split.
  - destruct rs as [| r2 rs']; [exact I |].
    split; [| rewrite <- Hmin; exact Hev].
    rewrite (Hhead r2 eq_refl), Hmin, Hsnd. reflexivity.
  - intros r Hr. injection Hr as <-. exact Hrel.
Qed.

(** X22. The limiter delays no more than it must: when the scheduler and
    the clock add no time of their own and the calls follow one another at
    once, consecutive [wait()] calls release exactly one minimum interval
    apart, whatever the state of the limiter at the first call. *)
Theorem limiter_is_tight (n : nat) (lim : t) (clock : Q) :
  0 < min_interval lim ->
  evenly_spaced (min_interval lim) (fst (waits (replicate n no_lag) (lim, clock))).
Proof.
  intros Hd. destruct n as [| n]; [exact I |].
  cbn [replicate waits].
  destruct (wait_keeps no_lag lim clock) as [Hmin Hlast].
  destruct (wait no_lag (lim, clock)) as [lim1 clock1]. cbn [fst snd] in *.
  destruct (waits_no_lag n lim1 clock1) as [Hev Hhead];
    [rewrite Hmin; exact Hd | exact Hlast |].
  destruct (waits (replicate n no_lag) (lim1, clock1)) as [rs s2]. cbn [fst] in *.
  destruct rs as [| r2 rs']; [exact I |].
  split; [| rewrite <- Hmin; exact Hev].
  rewrite (Hhead r2 eq_refl), Hmin, Hlast. reflexivity.
Qed.

End LimiterRelease.

(** ** The identity of an event row *)

Section EventKey.

(** X23. For one endpoint name and URL, the key string of an event row
    determines the timestamp and the hash of the payload text, as long as
    the timestamps contain no bar: the same payload stored at another
    instant, or a payload with another hash stored at the same instant,
    has another key. *)
Theorem event_key_ts_payload (E : Env) (endpoint_name url ts ts' text text' : string) :
  contains "|" ts = false -> contains "|" ts' = false ->
  (ts <> ts' \/ sha256_hex E text <> sha256_hex E text') ->
  event_key E endpoint_name url ts text <> event_key E endpoint_name url ts' text'.
Proof.
  intros Hts Hts' Hdiff Hkey. unfold event_key in Hkey.
  apply (append_cancel_l endpoint_name) in Hkey. simpl in Hkey. injection Hkey as Hkey.
  apply (append_cancel_l url) in Hkey. simpl in Hkey. injection Hkey as Hkey.
  apply first_bar_split in Hkey as [H1 H2]; [| assumption ..].
  destruct Hdiff; contradiction.
Qed.

End EventKey.

(** ** The properties at concrete inputs *)

Lemma empty_state_backed : backed Demo.empty_state.
Proof. intros id ev Hev. cbn in Hev. rewrite lookup_empty in Hev. discriminate. Qed.

Lemma C3_idempotent_insert_witness :
  let st1 := log_request Demo.frozen_env "trending" Demo.trending_url
               (Some 200) 5 1 None Demo.empty_state in
  let st2 := log_request Demo.frozen_env "trending" Demo.trending_url
               (Some 200) 5 1 None st1 in
  request_log st2 = request_log st1 /\ size (request_log st2) = 1%nat.
Proof.
  destruct (C3_idempotent_insert Demo.frozen_env Demo.empty_state "trending"
              Demo.trending_url (Some 200) 5 1 None (JObj []))
    as ((Hsame & _ & Hone) & _).
  - reflexivity.
  - split; [exact Hsame | apply Hone; reflexivity].
Defined.

Lemma C10_elapsed_not_in_key_witness :
  let st1 := log_request Demo.frozen_env "trending" Demo.trending_url
               (Some 200) 5 1 None Demo.empty_state in
  let st2 := log_request Demo.frozen_env "trending" Demo.trending_url
               (Some 200) 9 1 None st1 in
  request_log st2 = request_log st1 /\
  size (request_log st2) = 1%nat.
Proof.
  destruct (C10_elapsed_not_in_key Demo.frozen_env Demo.empty_state "trending"
              Demo.trending_url (Some 200) 5 9 1 None)
    as (_ & Hsame & Hsize & _).
  - reflexivity.
  - lia.
  - apply lookup_empty.
  - split; [exact Hsame | exact Hsize].
Defined.


Section Scenarios.

Local Abbreviation history w :=
  (new_events Demo.empty_state (snd (Demo.fetch_trending w Demo.empty_state))).
Local Abbreviation patient w :=
  (fetch_json_with_retries Demo.frozen_env Demo.patient_cfg w "trending"
     Demo.trending_url Demo.empty_state).

Lemma patient_reached (w : world) :
  (forall j, classify (response w j) = RetryableFailure) ->
  reached Demo.patient_cfg w (Z.of_nat 1025).
Proof.
  intros Hall. split; [cbn; lia |]. split; [cbn; lia |]. intros j _. apply Hall.
Qed.

Lemma run_keys_distinct_witness :
  NoDup (map (fun p => row_key (snd p)) (logged (history Demo.flaky))).
Proof.
  destruct (run_keys_distinct Demo.frozen_env Demo.cfg Demo.flaky "trending"
              Demo.trending_url Demo.empty_state) as (_ & Hkeys & _).
  - intros i. reflexivity.
  - exact Hkeys.
Defined.

(** HTTP 503 on every attempt. *)
Lemma retries_exhausted_witness :
  let w := Demo.always (Responded 503 (ParseRaises "JSONDecodeError") 4) in
  fst (Demo.fetch_trending w Demo.empty_state) = Ok None /\
  gets (history w) = replicate 6 Demo.trending_url /\
  Forall2 (fun j s => backoff_of Demo.cfg w j = Some s) (attempts_from 1 6)
    (sleeps (history w)).
Proof.
  intros w.
  destruct (retries_exhausted Demo.frozen_env Demo.cfg w "trending" Demo.trending_url
              Demo.empty_state) as (Hnone & Hgets & _ & Hsleeps & _).
  - cbn. lia.
  - intros j Hj. reflexivity.
  - split; [exact Hnone |]. split; [exact Hgets | exact Hsleeps].
Defined.

Lemma backoff_schedule_witness :
  gets (history Demo.forbidden) = [Demo.trending_url] /\
  map (fun p => rq_attempt (snd p)) (logged (history Demo.forbidden)) = [1].
Proof.
  destruct (backoff_schedule Demo.frozen_env Demo.cfg Demo.forbidden "trending"
              Demo.trending_url Demo.empty_state 1) as (_ & Hgets & Hrows).
  - apply demo_reached_first.
  - cbn. discriminate.
  - split; [exact Hgets | exact Hrows].
Defined.

Lemma backoff_sleeps_bounded_witness :
  let w := Demo.always (Responded 503 (ParseRaises "JSONDecodeError") 4) in
  (Backoff.Qsum (sleeps (history w)) <= inject_Z (Z.max 0 6) * (30 * (1 + (25 # 100))))%Q.
Proof.
  intros w.
  destruct (backoff_sleeps_bounded Demo.frozen_env Demo.cfg w "trending"
              Demo.trending_url Demo.empty_state) as (_ & _ & Hsum).
  - unfold Qle. cbn. lia.
  - unfold Qle. cbn. lia.
  - unfold Qle. cbn. lia.
  - intros j. cbn. split; [lia | reflexivity].
  - exact Hsum.
Defined.

Lemma success_returns_body_witness :
  let w := Demo.ok_with (JObj []) in
  fst (Demo.fetch_trending w Demo.empty_state) = Ok (Some (JObj [])) /\
  gets (history w) = [Demo.trending_url].
Proof.
  intros w.
  destruct (success_returns_body Demo.frozen_env Demo.cfg w "trending" Demo.trending_url
              Demo.empty_state 1 200 (JObj []) 5) as (Hres & Hgets & _).
  - apply demo_reached_first.
  - reflexivity.
  - lia.
  - split; [exact Hres | exact Hgets].
Defined.

(** HTTP 404 on attempt 1. *)
Lemma other_status_is_terminal_witness :
  let w := Demo.always (Responded 404 (ParseRaises "JSONDecodeError") 5) in
  fst (Demo.fetch_trending w Demo.empty_state) = Ok None /\
  gets (history w) = [Demo.trending_url] /\
  length (logged (history w)) = 1%nat.
Proof.
  intros w.
  destruct (other_status_is_terminal Demo.frozen_env Demo.cfg w "trending"
              Demo.trending_url Demo.empty_state 1 404 (ParseRaises "JSONDecodeError") 5)
    as (Hres & Hgets & Hlen & _).
  - apply demo_reached_first.
  - reflexivity.
  - lia.
  - lia.
  - lia.
  - lia.
  - split; [exact Hres |]. split; [exact Hgets | exact Hlen].
Defined.


(** A timeout on every attempt: retried under the defaults, and an
    [OverflowError] at the 1025th attempt when 2000 attempts are allowed. *)
Lemma network_error_is_retried_witness :
  let w := Demo.always (RaisedNetwork "ConnectTimeout" 20000) in
  (exists q, backoff_of Demo.cfg w 1 = Some q /\ sleeps (history w) !! 0%nat = Some q /\
             (1 < length (gets (history w)))%nat) /\
  fst (patient w) = Raised OverflowError.
Proof.
  intros w. split.
  - destruct (network_error_is_retried Demo.frozen_env Demo.cfg w "trending"
                Demo.trending_url Demo.empty_state 1 "ConnectTimeout" 20000)
      as (_ & Hretried & _).
    + apply demo_reached_first.
    + reflexivity.
    + destruct Hretried as (q & Hq & Hsleep & Hnext); [cbn; lia |].
      exists q. split; [exact Hq |]. split; [exact Hsleep | apply Hnext; cbn; lia].
  - destruct (network_error_is_retried Demo.frozen_env Demo.patient_cfg w "trending"
                Demo.trending_url Demo.empty_state 1025 "ConnectTimeout" 20000)
      as (_ & _ & Hoverflow).
    + apply patient_reached. intros j. reflexivity.
    + reflexivity.
    + destruct Hoverflow as (Hres & _); [reflexivity | exact Hres].
Defined.

(** HTTP 429 on every attempt: retried under the defaults, and a second
    row for the 1025th attempt when 2000 attempts are allowed. *)
Lemma retryable_status_is_retried_witness :
  let w := Demo.always (Responded 429 (ParsesTo (JObj [])) 3) in
  (exists q, backoff_of Demo.cfg w 1 = Some q /\ sleeps (history w) !! 0%nat = Some q /\
             (1 < length (gets (history w)))%nat) /\
  fst (patient w) = Ok None /\
  length (gets (new_events Demo.empty_state (snd (patient w)))) = 1025%nat /\
  length (logged (new_events Demo.empty_state (snd (patient w)))) = 1026%nat.
Proof.
  intros w. split.
  - destruct (retryable_status_is_retried Demo.frozen_env Demo.cfg w "trending"
                Demo.trending_url Demo.empty_state 1 429 (ParsesTo (JObj [])) 3)
      as (_ & Hretried & _).
    + apply demo_reached_first.
    + reflexivity.
    + left. reflexivity.
    + destruct Hretried as (q & Hq & Hsleep & Hnext); [cbn; lia |].
      exists q. split; [exact Hq |]. split; [exact Hsleep | apply Hnext; cbn; lia].
  - destruct (retryable_status_is_retried Demo.frozen_env Demo.patient_cfg w "trending"
                Demo.trending_url Demo.empty_state 1025 429 (ParsesTo (JObj [])) 3)
      as (_ & _ & Hoverflow).
    + apply patient_reached. intros j. reflexivity.
    + reflexivity.
    + left. reflexivity.
    + destruct Hoverflow as (Hres & Hgets & _ & earlier & Hlen & Hrows); [reflexivity |].
      split; [exact Hres |].
      split; [rewrite Hgets; apply length_replicate |].
      rewrite Hrows, length_app, Hlen. reflexivity.
Defined.

End Scenarios.

Section OrchestratorScenarios.


Lemma run_once_append_only_witness :
  exists results ok total st',
    run_once Demo.frozen_env Demo.cfg [Demo.trending] (fun _ => Demo.forbidden)
      Demo.empty_state
    = RunCompleted results ok total st' /\
    (size (raw_events st') <= size (raw_events Demo.empty_state) + ok)%nat.
Proof.
  destruct (run_once Demo.frozen_env Demo.cfg [Demo.trending] (fun _ => Demo.forbidden)
              Demo.empty_state) as [e | | results ok total st'] eqn:Hrun;
    [vm_compute in Hrun; discriminate .. |].
  exists results, ok, total, st'. split; [reflexivity |].
  destruct (run_once_append_only Demo.frozen_env Demo.cfg [Demo.trending]
              (fun _ => Demo.forbidden) Demo.empty_state st' results ok total Hrun)
    as (_ & _ & _ & Hsize).
  exact Hsize.
Defined.

(** The defaults with [MOLTBOOK_MAX_RETRIES=0]. *)
Lemma no_attempts_allowed_witness :
  let cfg := mkCollectorConfig "http://host" "moltbook-observatory/0.1 (public-only)"
               20 4 1 0 (8 # 10) 30 (25 # 100) "data/observatory.sqlite" None in
  run_once Demo.frozen_env cfg [Demo.trending] (fun _ => Demo.flaky) Demo.empty_state
  = RunCompleted [("trending", None)] 0 1 Demo.empty_state.
Proof.
  intros cfg.
  apply (no_attempts_allowed Demo.frozen_env cfg [Demo.trending] (fun _ => Demo.flaky)
           Demo.empty_state).
  - cbn. lia.
  - split; [vm_compute; discriminate | cbn; lia].
  - cbn. lia.
  - vm_compute. reflexivity.
Defined.

Lemma worker_stores_body_witness :
  exists st',
    worker Demo.frozen_env Demo.cfg Demo.trending (Demo.ok_with (JObj []))
      Demo.empty_state
    = Ok (("trending", Some (JObj [])), st') /\
    clock_reads st' = 2%nat.
Proof.
  destruct (worker_stores_body Demo.frozen_env Demo.cfg Demo.trending
              (Demo.ok_with (JObj [])) Demo.trending_url Demo.empty_state 1 200
              (JObj []) 5) as (st' & Hw & _ & _ & Hclock).
  - vm_compute. reflexivity.
  - apply demo_reached_first.
  - reflexivity.
  - lia.
  - discriminate.
  - reflexivity.
  - exists st'. split; [exact Hw | exact Hclock].
Defined.

(** A body whose text holds a lone surrogate. *)
Lemma unencodable_payload_raises_witness :
  worker Demo.surrogate_env Demo.cfg Demo.trending (Demo.ok_with (JObj []))
    Demo.empty_state
  = Raised UnicodeEncodeError.
Proof.
  destruct (unencodable_payload_raises Demo.surrogate_env Demo.cfg Demo.trending
              (Demo.ok_with (JObj [])) Demo.trending_url Demo.empty_state 1 200
              (JObj []) 5) as (_ & _ & Hraises).
  - vm_compute. reflexivity.
  - apply demo_reached_first.
  - reflexivity.
  - lia.
  - discriminate.
  - reflexivity.
  - exact Hraises.
Defined.

(** Scenario A on an empty store. *)
Lemma events_backed_when_fresh_witness :
  exists res st',
    worker Demo.env Demo.cfg Demo.trending Demo.flaky Demo.empty_state = Ok (res, st') /\
    size (raw_events st') = 1%nat /\ backed st'.
Proof.
  destruct (worker Demo.env Demo.cfg Demo.trending Demo.flaky Demo.empty_state)
    as [[res st'] | e] eqn:Hw; [| vm_compute in Hw; discriminate].
  exists res, st'. split; [reflexivity |].
  assert (Hst : worker Demo.env Demo.cfg Demo.trending Demo.flaky Demo.empty_state
                = Ok (res, st')) by exact Hw.
  vm_compute in Hw. injection Hw as Hres Hst'.
  split; [rewrite <- Hst'; vm_compute; reflexivity |].
  apply (events_backed_when_fresh Demo.env Demo.cfg Demo.trending Demo.flaky
           Demo.trending_url Demo.empty_state st' res).
  - exact empty_state_backed.
  - vm_compute. reflexivity.
  - exact Hst.
  - rewrite <- Hst'. split.
    + apply (bool_decide_unpack _). vm_compute. exact I.
    + apply Forall_forall. intros x _. apply lookup_empty.
Defined.

Lemma build_url_one_slash_witness :
  build_url "http://host/" "/api/public/trending" (<["limit" := PInt 10]> ∅)
  = Ok "http://host/api/public/trending".
Proof.
  destruct (build_url_one_slash "http://host" "api/public/trending"
              (<["limit" := PInt 10]> ∅)) as (_ & _ & _ & Hboth).
  - reflexivity.
  - reflexivity.
  - reflexivity.
  - exact Hboth.
Defined.

Lemma missing_placeholder_raises_witness :
  build_url "http://host" "/api/public/submolt/{name}/posts?limit={limit}"
    (<["limit" := PInt 10]> ∅)
  = Raised (KeyError "name").
Proof.
  apply (missing_placeholder_raises "http://host" "/api/public/submolt/" "name"
           "/posts?limit={limit}" (<["limit" := PInt 10]> ∅)).
  - reflexivity.
  - reflexivity.
  - reflexivity.
  - vm_compute. reflexivity.
Defined.

Lemma positional_placeholder_raises_witness :
  build_url "http://host" "/api/public/posts/{}" (<["limit" := PInt 10]> ∅)
  = Raised IndexError.
Proof.
  apply (positional_placeholder_raises "http://host" "/api/public/posts/" "" ""
           (<["limit" := PInt 10]> ∅)).
  - reflexivity.
  - reflexivity.
  - cbn. lia.
Defined.

(** A value that is neither a string nor an integer: the float [2.5]. *)
Lemma placeholder_is_filled_verbatim_witness :
  build_url "http://host" "/api/public/submolt/{name}/posts"
    (<["name" := PStr "a/b?{x}"]> ∅)
  = Ok "http://host/api/public/submolt/a/b?{x}/posts" /\
  format "/api/public/posts?since={days}" (<["days" := POther "2.5"]> ∅)
  = Ok "/api/public/posts?since=2.5".
Proof.
  split.
  - destruct (placeholder_is_filled_verbatim "http://host" "api/public/submolt/" "name"
                "/posts" (<["name" := PStr "a/b?{x}"]> ∅) (PStr "a/b?{x}"))
      as (_ & Hurl).
    + reflexivity.
    + reflexivity.
    + reflexivity.
    + reflexivity.
    + vm_compute. reflexivity.
    + apply Hurl. reflexivity.
  - destruct (placeholder_is_filled_verbatim "http://host" "/api/public/posts?since="
                "days" "" (<["days" := POther "2.5"]> ∅) (POther "2.5"))
      as (Hfmt & _).
    + reflexivity.
    + reflexivity.
    + reflexivity.
    + reflexivity.
    + vm_compute. reflexivity.
    + exact Hfmt.
Defined.

Lemma backoff_doubles_until_cap_witness :
  exists this next,
    Backoff.exp_delay 2 (8 # 10) 30 = Some this /\
    Backoff.exp_delay 3 (8 # 10) 30 = Some next /\ (next == 2 * this)%Q.
Proof.
  destruct (backoff_doubles_until_cap 2 (8 # 10) 30 0)
    as (first & this & next & delay & _ & _ & Hthis & Hnext & Hdouble & _).
  - lia.
  - lia.
  - unfold Qle. cbn. lia.
  - exists this, next. split; [exact Hthis |]. split; [exact Hnext |].
    apply Hdouble. unfold Qle. cbn. lia.
Defined.

Lemma limiter_is_tight_witness :
  evenly_spaced (1 # 2)
    (fst (RateLimiter.waits (replicate 3 no_lag) (RateLimiter.mk (1 # 2) 0, 5%Q))).
Proof.
  apply (limiter_is_tight 3 (RateLimiter.mk (1 # 2) 0) 5%Q).
  reflexivity.
Defined.

Lemma event_key_ts_payload_witness :
  event_key Demo.env "trending" Demo.trending_url "2026-01-01T00:00:00+00:00" "{}"
  <> event_key Demo.env "trending" Demo.trending_url "2026-01-01T00:00:05+00:00" "{}".
Proof.
  apply (event_key_ts_payload Demo.env "trending" Demo.trending_url
           "2026-01-01T00:00:00+00:00" "2026-01-01T00:00:05+00:00" "{}" "{}").
  - reflexivity.
  - reflexivity.
  - left. discriminate.
Defined.

End OrchestratorScenarios.

Lemma wait_release_time_witness :
  (snd (RateLimiter.wait no_lag (RateLimiter.mk (1 # 2) 0, 5)) == 5 + 0 + 0)%Q.
Proof.
  destruct (wait_release_time no_lag (RateLimiter.mk (1 # 2) 0) 5%Q) as (Hidle & _).
  apply Hidle. unfold Qle. cbn. lia.
Defined.
